(** * Series grouping and splitting of the anime pipeline

    A shallow embedding of [scripts/2-series-grouping.js] (the grouping
    stage: relation normalisation, [findAllRelatedIds],
    [generateSeriesId], [groupAnimeIntoSeries_internal]) and of
    [scripts/3-advanced-series-split.js] (the [Graph] class,
    [getSeriesNameFromOldestAnime], [processSeriesData],
    [processRelationGroups], [advancedSeriesSplit]), with the properties
    of the specification stated over it, and of [updateAnimeData] and the
    ranking of [logSeriesSummary] of the grouping stage.

    Modelling conventions.
    - A JavaScript identifier value is a [JsVal]: [undefined], a string or
      an integral number.  A [Set] or [Map] compares such values as they
      are (the number 1 and the string "1" differ), a plain object used as
      a dictionary compares their string forms ([jsStr]).
    - A [Set] is a duplicate-free list in insertion order, a [Map] an
      association list in insertion order; a plain object that is only
      read by key is a [gmap].
    - Loops that JavaScript runs until a condition holds carry a fuel
      argument that is computed from their input, with a lemma that the
      fuel never runs out.
    - Strings are sequences of one-byte code units; [toLowerCase] and the
      slug act on the ASCII letters.
    - Left out: ids that are neither strings nor integral numbers, a
      [null] element in a [relations] array (the code throws on it), and
      ids that name a property of [Object.prototype]. *)

From stdpp Require Import base decidable option list gmap strings pretty sorting.
From Stdlib Require Import ZArith Lia Ascii.

Local Open Scope string_scope.
Local Open Scope list_scope.
Local Open Scope Z_scope.

(** ** JavaScript values used as identifiers *)

Inductive JsVal : Type :=
| JUndef
| JStr (s : string)
| JNum (n : Z).

Global Instance JsVal_eq_dec : EqDecision JsVal.
Proof. solve_decision. Defined.

Definition JsVal_to_sum (v : JsVal) : unit + (string + Z) :=
  match v with
  | JUndef => inl tt
  | JStr s => inr (inl s)
  | JNum n => inr (inr n)
  end.

Definition JsVal_of_sum (x : unit + (string + Z)) : JsVal :=
  match x with
  | inl _ => JUndef
  | inr (inl s) => JStr s
  | inr (inr n) => JNum n
  end.

Global Instance JsVal_countable : Countable JsVal.
Proof.
  refine (inj_countable' JsVal_to_sum JsVal_of_sum _).
  intros v; destruct v; reflexivity.
Defined.

(** [!!v]: [undefined], the empty string and 0 are falsy. *)
Definition truthy (v : JsVal) : bool :=
  match v with
  | JUndef => false
  | JStr s => negb (String.eqb s "")
  | JNum n => negb (Z.eqb n 0)
  end.

(** String conversion, as in a template literal, [v.toString()] and a
    property key. *)
Definition jsStr (v : JsVal) : string :=
  match v with
  | JUndef => "undefined"
  | JStr s => s
  | JNum n => pretty n
  end.

(** [a || b] on values. *)
Definition jsOr (a b : JsVal) : JsVal := if truthy a then a else b.

(** [a || b] on optional strings; an absent or empty string is falsy. *)
Definition strTruthy (s : option string) : bool :=
  match s with
  | Some t => negb (String.eqb t "")
  | None => false
  end.

Definition strOr (a b : option string) : option string :=
  if strTruthy a then a else b.

(** [x || d] for an optional string [x] and a string [d]. *)
Definition strOrD (x : option string) (d : string) : string :=
  if strTruthy x then default d x else d.

(** [String.prototype.toLowerCase] on the ASCII letters. *)
Definition lowerAscii (c : ascii) : ascii :=
  let n := N_of_ascii c in
  if ((65 <=? n) && (n <=? 90))%N then ascii_of_N (n + 32) else c.

Fixpoint toLowerCase (s : string) : string :=
  match s with
  | EmptyString => EmptyString
  | String c s' => String (lowerAscii c) (toLowerCase s')
  end.

(** ** Insertion-ordered sets and maps *)

Section ordered_containers.
Context {K V : Type} `{EqDecision K}.

(** [Set.prototype.add] *)
Definition set_add (x : K) (l : list K) : list K :=
  if decide (x ∈ l) then l else l ++ [x].

(** [Map.prototype.get] *)
Fixpoint al_lookup (k : K) (l : list (K * V)) : option V :=
  match l with
  | [] => None
  | (k', v) :: l' => if decide (k = k') then Some v else al_lookup k l'
  end.

(** [Map.prototype.set]: an existing key keeps its position. *)
Fixpoint al_set (k : K) (v : V) (l : list (K * V)) : list (K * V) :=
  match l with
  | [] => [(k, v)]
  | (k', v') :: l' =>
      if decide (k = k') then (k, v) :: l' else (k', v') :: al_set k v l'
  end.

(** [if (!m.has(k)) m.set(k, v)] *)
Definition al_init (k : K) (v : V) (l : list (K * V)) : list (K * V) :=
  match al_lookup k l with
  | Some _ => l
  | None => l ++ [(k, v)]
  end.

(** [m.get(k)] updated in place by [f]; nothing happens on a missing key
    (the code always initialises the key first). *)
Fixpoint al_alter (f : V → V) (k : K) (l : list (K * V)) : list (K * V) :=
  match l with
  | [] => []
  | (k', v) :: l' =>
      if decide (k = k') then (k', f v) :: l' else (k', v) :: al_alter f k l'
  end.
End ordered_containers.

(** ** [Array.prototype.sort]

    A comparator returns a number; [None] stands for [NaN], which [sort]
    reads as 0.  The sort is stable.  When the comparator is not a
    consistent order ECMAScript leaves the result to the engine; the model
    then fixes the result of a stable insertion sort. *)

Section js_sort.
Context {A : Type} (cmp : A → A → option Z).

Definition cmp_le (a b : A) : bool :=
  match cmp a b with
  | Some z => bool_decide (z ≤ 0)
  | None => true
  end.

Fixpoint sort_insert (x : A) (l : list A) : list A :=
  match l with
  | [] => [x]
  | y :: l' => if cmp_le x y then x :: l else y :: sort_insert x l'
  end.

Definition sort_stable (l : list A) : list A := foldr sort_insert [] l.
End js_sort.

(** On an array of values, [sort] moves every [undefined] to the end
    without calling the comparator. *)
Definition sortVals (cmp : JsVal → JsVal → option Z) (l : list JsVal) : list JsVal :=
  sort_stable cmp (filter (λ v, v ≠ JUndef) l) ++ filter (λ v, v = JUndef) l.

(** ** Data model *)

(** An element of a raw [relations] array that is an object.
    [rel_node_id] is [rel.node && rel.node.id]: [JUndef] when [rel.node]
    is absent.  An absent property is [JUndef] or [None]. *)
Record RelObj : Type := mkRelObj {
  rel_node_id : JsVal;
  rel_id : JsVal;
  rel_targetAnimeId : JsVal;
  rel_relationType : option string;
  rel_type : option string
}.

(** An element of a [relations] array: a bare id ([typeof] string or
    number, so [EBare] carries a [JStr] or a [JNum]) or an object. *)
Inductive RelElem : Type :=
| EBare (v : JsVal)
| EObj (o : RelObj).

(** The [relations] property of a record: a falsy value, a string (to be
    parsed as JSON), an array, or any other value. *)
Inductive RelValue : Type :=
| VAbsent
| VString (s : string)
| VArray (l : list RelElem)
| VOther.

Record Anime : Type := mkAnime {
  a_id : JsVal;
  a_title : option string;
  a_title_romaji : option string;
  a_start_date : option string;
  a_relations : RelValue;
  a_seriesId : option string
}.

(** An entry of [seriesGroup.relations]. *)
Record GroupRel : Type := mkGroupRel {
  r_sourceAnimeId : JsVal;
  r_targetAnimeId : JsVal;
  r_relationType : string;
  r_direction : string
}.

Record SeriesGroup : Type := mkSeriesGroup {
  g_seriesId : string;
  g_seriesName : string;
  g_animeIds : list JsVal;
  g_animeDetails : gmap string (JsVal * string);
  g_relations : list GroupRel;
  g_relationTypes : gmap string (list string)
}.

(** An entry of [results.main]. *)
Record MainCluster : Type := mkMainCluster {
  m_seriesId : string;
  m_seriesName : string;
  m_originalSeriesId : string;
  m_animeIds : list JsVal;
  m_otherIds : list JsVal;
  m_characterIds : list JsVal;
  m_adaptationIds : list JsVal;
  m_spinOffIds : list JsVal;
  m_relations : list GroupRel
}.

(** An entry of [results.character], [results.adaptation], ... *)
Record SoftCluster : Type := mkSoftCluster {
  c_seriesId : string;
  c_seriesName : string;
  c_originalSeriesId : string;
  c_animeIds : list JsVal;
  c_seriesType : string;
  c_relations : list GroupRel
}.

(** The [results] object of [processSeriesData]: [results.main] and the
    arrays of the other keys ([character], [adaptation], [spinOff],
    [other], [parent], and any key [processRelationGroups] creates). *)
Record SplitResults : Type := mkSplitResults {
  res_main : list MainCluster;
  res_soft : gmap string (list SoftCluster)
}.

(** ** The [Graph] class of the splitting stage *)

Module Graph.

(** [adjacencyList]: a [Map] from a vertex to the array of its
    neighbours. *)
Definition t : Type := list (JsVal * list JsVal).

Definition empty : t := [].

Definition addVertex (vertex : JsVal) (g : t) : t := al_init vertex [] g.

Definition addEdge (source target : JsVal) (g : t) : t :=
  let g := addVertex source g in
  let g := addVertex target g in
  let g := al_alter (λ ns, ns ++ [target]) source g in
  al_alter (λ ns, ns ++ [source]) target g.

(** One turn of the [while] loop of [dfs].  The head of [stack] is the
    top of the JavaScript stack ([pop] takes it, [push] conses). *)
Definition push_unvisited (visited : list JsVal) (stack : list JsVal)
    (neighbors : list JsVal) : list JsVal :=
  foldl (λ st n, if decide (n ∈ visited) then st else n :: st) stack neighbors.

Fixpoint dfs_loop (fuel : nat) (g : t) (stack visited group : list JsVal)
    : list JsVal * list JsVal :=
  match fuel with
  | O => (visited, group)
  | S fuel' =>
      match stack with
      | [] => (visited, group)
      | vertex :: rest =>
          if decide (vertex ∈ visited) then dfs_loop fuel' g rest visited group
          else
            let visited' := visited ++ [vertex] in
            let neighbors := default [] (al_lookup vertex g) in
            dfs_loop fuel' g (push_unvisited visited' rest neighbors)
              visited' (group ++ [vertex])
      end
  end.

(** The number of turns the loop can still take: every stack entry is
    popped once and only an unvisited vertex pushes its neighbours. *)
Definition pending (g : t) (visited : list JsVal) : nat :=
  foldr (λ e acc, if decide (e.1 ∈ visited) then acc else (length e.2 + acc)%nat) O g.

Definition dfs_budget (g : t) (stack visited : list JsVal) : nat :=
  (length stack + pending g visited)%nat.

(** [dfs(start, visited)]: the new [visited] set and the group found. *)
Definition dfs (g : t) (start : JsVal) (visited : list JsVal)
    : list JsVal * list JsVal :=
  dfs_loop (S (dfs_budget g [start] visited)) g [start] visited [].

(** The loop of [dfs] from any of its states, with the fuel of that
    state. *)
Definition dfs_run (g : t) (stack visited group : list JsVal)
    : list JsVal * list JsVal :=
  dfs_loop (S (dfs_budget g stack visited)) g stack visited group.

Definition findConnectedGroups (g : t) : list (list JsVal) :=
  snd (foldl
         (λ (st : list JsVal * list (list JsVal)) vertex,
            if decide (vertex ∈ st.1) then st
            else
              let r := dfs g vertex st.1 in
              (r.1, st.2 ++ [r.2]))
         ([], []) (g.*1)).

End Graph.

(** [findConnectedGroupsFromRelations]: [relationMap] is a [Map] from a
    source id to the [Set] of its targets. *)
Definition findConnectedGroupsFromRelations
    (relationMap : list (JsVal * list JsVal)) : list (list JsVal) :=
  Graph.findConnectedGroups
    (foldl (λ g e, foldl (λ g targetId, Graph.addEdge e.1 targetId g) g e.2)
       Graph.empty relationMap).

(** ** The splitting stage *)

Section splitter.
(** [Number(s)] on a string and [new Date(s)] are taken as given;
    [None] is [NaN], respectively an invalid date. *)
Variable strToNumber : string → option Z.
Variable parseDate : string → option Z.

(** [Number(v)] *)
Definition toNumber (v : JsVal) : option Z :=
  match v with
  | JUndef => None
  | JStr s => strToNumber s
  | JNum n => Some n
  end.

(** [Number(a) - Number(b)] *)
Definition numCmp (a b : JsVal) : option Z :=
  match toNumber a, toNumber b with
  | Some x, Some y => Some (x - y)
  | _, _ => None
  end.

(** [(a, b) => Number(a.sourceAnimeId) - Number(b.sourceAnimeId) ||
    Number(a.targetAnimeId) - Number(b.targetAnimeId)] *)
Definition relCmp (a b : GroupRel) : option Z :=
  match numCmp (r_sourceAnimeId a) (r_sourceAnimeId b) with
  | Some z =>
      if Z.eqb z 0 then numCmp (r_targetAnimeId a) (r_targetAnimeId b)
      else Some z
  | None => numCmp (r_targetAnimeId a) (r_targetAnimeId b)
  end.

(** The date branch of the comparator of
    [getSeriesNameFromOldestAnime]: [Some] when it returns
    [dateA - dateB]. *)
Definition dateCmp (animeA animeB : Anime) : option Z :=
  if strTruthy (a_start_date animeA) && strTruthy (a_start_date animeB) then
    match a_start_date animeA ≫= parseDate, a_start_date animeB ≫= parseDate with
    | Some dateA, Some dateB => Some (dateA - dateB)
    | _, _ => None
    end
  else None.

Definition oldestCmp (animeMap : gmap string Anime) (a b : JsVal) : option Z :=
  match animeMap !! jsStr a, animeMap !! jsStr b with
  | Some animeA, Some animeB =>
      match dateCmp animeA animeB with
      | Some d => Some d
      | None => numCmp a b
      end
  | _, _ => numCmp a b
  end.

Definition getSeriesNameFromOldestAnime (animeIds : list JsVal)
    (animeMap : gmap string Anime) : string :=
  match animeIds with
  | [] => "Unknown Series"
  | _ =>
      let sortedIds := sortVals (oldestCmp animeMap) animeIds in
      let oldestId := default JUndef (head sortedIds) in
      match animeMap !! jsStr oldestId with
      | None => "Series " +:+ jsStr oldestId
      | Some oldestAnime =>
          strOrD (strOr (a_title_romaji oldestAnime) (a_title oldestAnime))
            ("Series " +:+ jsStr oldestId)
      end
  end.

(** The five relation maps and the graph built by the first pass of
    [processSeriesData]. *)
Record RelMaps : Type := mkRelMaps {
  rm_graph : Graph.t;
  rm_character : list (JsVal * list JsVal);
  rm_adaptation : list (JsVal * list JsVal);
  rm_spinOff : list (JsVal * list JsVal);
  rm_other : list (JsVal * list JsVal);
  rm_parent : list (JsVal * list JsVal)
}.

(** The four statements that enter an edge into a relation map. *)
Definition addPair (s t : JsVal) (m : list (JsVal * list JsVal))
    : list (JsVal * list JsVal) :=
  let m := al_init s [] m in
  let m := al_init t [] m in
  let m := al_alter (set_add t) s m in
  al_alter (set_add s) t m.

Definition firstPassStep (rm : RelMaps) (relation : GroupRel) : RelMaps :=
  let s := r_sourceAnimeId relation in
  let t := r_targetAnimeId relation in
  let ty := r_relationType relation in
  if decide (ty = "CHARACTER") then
    mkRelMaps (rm_graph rm) (addPair s t (rm_character rm)) (rm_adaptation rm)
      (rm_spinOff rm) (rm_other rm) (rm_parent rm)
  else if decide (ty = "ADAPTATION") then
    mkRelMaps (rm_graph rm) (rm_character rm) (addPair s t (rm_adaptation rm))
      (rm_spinOff rm) (rm_other rm) (rm_parent rm)
  else if decide (ty = "SPIN_OFF") then
    mkRelMaps (rm_graph rm) (rm_character rm) (rm_adaptation rm)
      (addPair s t (rm_spinOff rm)) (rm_other rm) (rm_parent rm)
  else if decide (ty = "OTHER" ∨ ty = "PARENT") then
    mkRelMaps (rm_graph rm) (rm_character rm) (rm_adaptation rm)
      (rm_spinOff rm) (addPair s t (rm_other rm))
      (if decide (ty = "PARENT") then addPair s t (rm_parent rm) else rm_parent rm)
  else
    mkRelMaps (Graph.addEdge s t (rm_graph rm)) (rm_character rm)
      (rm_adaptation rm) (rm_spinOff rm) (rm_other rm) (rm_parent rm).

(** The first loop of [processSeriesData].  Its [allRelations] map is
    written and never read; it is left out. *)
Definition firstPass (relations : list GroupRel) : RelMaps :=
  foldl firstPassStep (mkRelMaps Graph.empty [] [] [] [] []) relations.

(** The sets a main group collects while it scans the relations. *)
Record MainAcc : Type := mkMainAcc {
  acc_otherIds : list JsVal;
  acc_characterIds : list JsVal;
  acc_adaptationIds : list JsVal;
  acc_spinOffIds : list JsVal;
  acc_uniqueRelations : list (string * GroupRel)
}.

Definition relationKey3 (relation : GroupRel) : string :=
  jsStr (r_sourceAnimeId relation) +:+ "-" +:+
  jsStr (r_targetAnimeId relation) +:+ "-" +:+ r_relationType relation.

Definition scanRelation (group : list JsVal) (animeId : JsVal)
    (acc : MainAcc) (relation : GroupRel) : MainAcc :=
  let s := r_sourceAnimeId relation in
  let t := r_targetAnimeId relation in
  let ty := r_relationType relation in
  if decide (s = animeId ∨ t = animeId) then
    let otherId := if decide (s = animeId) then t else s in
    if decide (ty = "CHARACTER") then
      if decide (otherId ∈ group) then acc
      else mkMainAcc (acc_otherIds acc) (set_add otherId (acc_characterIds acc))
             (acc_adaptationIds acc) (acc_spinOffIds acc) (acc_uniqueRelations acc)
    else if decide (ty = "ADAPTATION") then
      if decide (otherId ∈ group) then acc
      else mkMainAcc (acc_otherIds acc) (acc_characterIds acc)
             (set_add otherId (acc_adaptationIds acc)) (acc_spinOffIds acc)
             (acc_uniqueRelations acc)
    else if decide (ty = "SPIN_OFF") then
      if decide (otherId ∈ group) then acc
      else mkMainAcc (acc_otherIds acc) (acc_characterIds acc)
             (acc_adaptationIds acc) (set_add otherId (acc_spinOffIds acc))
             (acc_uniqueRelations acc)
    else if decide (s ∈ group ∧ t ∈ group) then
      mkMainAcc (acc_otherIds acc) (acc_characterIds acc) (acc_adaptationIds acc)
        (acc_spinOffIds acc)
        (al_set (relationKey3 relation) relation (acc_uniqueRelations acc))
    else
      mkMainAcc (set_add otherId (acc_otherIds acc)) (acc_characterIds acc)
        (acc_adaptationIds acc) (acc_spinOffIds acc) (acc_uniqueRelations acc)
  else acc.

(** The body of [connectedGroups.forEach((group, index) => ...)]. *)
Definition mainCluster (series : SeriesGroup) (animeMap : gmap string Anime)
    (index : nat) (group : list JsVal) : MainCluster :=
  let acc :=
    foldl (λ acc animeId, foldl (scanRelation group animeId) acc (g_relations series))
      (mkMainAcc [] [] [] [] []) group in
  let seriesName := getSeriesNameFromOldestAnime group animeMap in
  let seriesId := "series_" +:+ g_seriesId series +:+ "_" +:+ pretty (S index) in
  mkMainCluster seriesId seriesName (g_seriesId series)
    (sortVals numCmp group)
    (sortVals numCmp (acc_otherIds acc))
    (sortVals numCmp (acc_characterIds acc))
    (sortVals numCmp (acc_adaptationIds acc))
    (sortVals numCmp (acc_spinOffIds acc))
    (sort_stable relCmp (acc_uniqueRelations acc).*2).

(** [results.main.flatMap((mainSeries) => mainSeries.animeIds)] *)
Definition mainAnimeIdsOf (results : SplitResults) : list JsVal :=
  res_main results ≫= m_animeIds.

(** [results[key].push(c)] *)
Definition pushSoft (key : string) (c : SoftCluster) (results : SplitResults)
    : SplitResults :=
  mkSplitResults (res_main results)
    (<[key := default [] (res_soft results !! key) ++ [c]]> (res_soft results)).

(** The body of [groups.forEach((group, index) => ...)], the same text
    in the character block of [processSeriesData] and in
    [processRelationGroups]: [None] when the group is skipped. *)
Definition softCluster (resultKey relationType suffix : string)
    (series : SeriesGroup) (animeMap : gmap string Anime)
    (mainAnimeIds : list JsVal) (index : nat) (group : list JsVal)
    : option SoftCluster :=
  let filteredGroup := filter (λ id, id ∉ mainAnimeIds) group in
  if decide (length filteredGroup < 2)%nat then None
  else
    let uniqueRelations :=
      foldl (λ u (animeId : JsVal),
               foldl (λ u relation,
                        if decide (r_relationType relation = relationType
                                   ∧ r_sourceAnimeId relation ∈ filteredGroup
                                   ∧ r_targetAnimeId relation ∈ filteredGroup)
                        then al_set (relationKey3 relation) relation u
                        else u)
                 u (g_relations series))
        [] filteredGroup in
    let seriesName := getSeriesNameFromOldestAnime filteredGroup animeMap in
    Some (mkSoftCluster
            (resultKey +:+ "_" +:+ g_seriesId series +:+ "_" +:+ pretty (S index))
            (seriesName +:+ " (" +:+ suffix +:+ ")")
            (g_seriesId series)
            (sortVals numCmp filteredGroup)
            relationType
            (sort_stable relCmp uniqueRelations.*2)).

(** [relationType.charAt(0) + relationType.slice(1).toLowerCase()] *)
Definition capitalized (s : string) : string :=
  match s with
  | EmptyString => EmptyString
  | String c rest => String c (toLowerCase rest)
  end.

Definition processRelationGroups (groups : list (list JsVal))
    (relationType : string) (series : SeriesGroup) (results : SplitResults)
    (animeMap : gmap string Anime) : SplitResults :=
  let resultKey := toLowerCase relationType in
  let results :=
    match res_soft results !! resultKey with
    | Some _ => results
    | None => mkSplitResults (res_main results) (<[resultKey := []]> (res_soft results))
    end in
  let mainAnimeIds := mainAnimeIdsOf results in
  foldl (λ results (ig : nat * list JsVal),
           match softCluster resultKey relationType (capitalized relationType)
                   series animeMap mainAnimeIds ig.1 ig.2 with
           | Some c => pushSoft resultKey c results
           | None => results
           end)
    results (imap pair groups).

Definition emptyResults : SplitResults :=
  mkSplitResults []
    (list_to_map [("character", []); ("adaptation", []); ("spinOff", []);
                  ("other", []); ("parent", [])]).

Definition processSeriesData (series : SeriesGroup)
    (animeMap : gmap string Anime) : SplitResults :=
  let rm := firstPass (g_relations series) in
  let connectedGroups := Graph.findConnectedGroups (rm_graph rm) in
  let results :=
    foldl (λ results (ig : nat * list JsVal),
             mkSplitResults
               (res_main results ++ [mainCluster series animeMap ig.1 ig.2])
               (res_soft results))
      emptyResults (imap pair connectedGroups) in
  let characterGroups := findConnectedGroupsFromRelations (rm_character rm) in
  let results :=
    foldl (λ results (ig : nat * list JsVal),
             match softCluster "character" "CHARACTER" "Character" series animeMap
                     (mainAnimeIdsOf results) ig.1 ig.2 with
             | Some c => pushSoft "character" c results
             | None => results
             end)
      results (imap pair characterGroups) in
  let results :=
    processRelationGroups (findConnectedGroupsFromRelations (rm_adaptation rm))
      "ADAPTATION" series results animeMap in
  let results :=
    processRelationGroups (findConnectedGroupsFromRelations (rm_spinOff rm))
      "SPIN_OFF" series results animeMap in
  let results :=
    processRelationGroups (findConnectedGroupsFromRelations (rm_other rm))
      "OTHER" series results animeMap in
  processRelationGroups (findConnectedGroupsFromRelations (rm_parent rm))
    "PARENT" series results animeMap.

(** The document written by [advancedSeriesSplit]. *)
Record SplitOutput : Type := mkSplitOutput {
  out_main : list MainCluster;
  out_character : list SoftCluster;
  out_adaptation : list SoftCluster;
  out_spinOff : list SoftCluster;
  out_other : list SoftCluster;
  out_parent : list SoftCluster
}.

Definition softOf (results : SplitResults) (key : string) : list SoftCluster :=
  default [] (res_soft results !! key).

Definition advancedSeriesSplit (seriesDb : list SeriesGroup)
    (animeMap : gmap string Anime) : SplitOutput :=
  foldl (λ out series,
           let results := processSeriesData series animeMap in
           mkSplitOutput
             (out_main out ++ res_main results)
             (out_character out ++ softOf results "character")
             (out_adaptation out ++ softOf results "adaptation")
             (out_spinOff out ++ softOf results "spinOff")
             (out_other out ++ softOf results "other")
             (out_parent out ++ softOf results "parent"))
    (mkSplitOutput [] [] [] [] [] []) seriesDb.

End splitter.

(** An instance of [Number] on strings for the examples: a string of
    decimal digits (also the empty one, which is 0) is its value, any
    other string is [NaN]. *)
Fixpoint digitsValue (acc : Z) (s : string) : option Z :=
  match s with
  | EmptyString => Some acc
  | String c s' =>
      let n := Z.of_N (N_of_ascii c) in
      if (48 <=? n) && (n <=? 57) then digitsValue (10 * acc + (n - 48)) s'
      else None
  end.

Definition decimalNumber (s : string) : option Z := digitsValue 0 s.

Definition noDate (s : string) : option Z := None.

(** ** The grouping stage *)

(** What the grouping stage hands to the logger. *)
Inductive LogMsg : Type :=
| LogParseError (animeId : JsVal)
| LogCircular (currentChain : list JsVal) (targetId : JsVal).

(** The callback of [anime.relations.map(...)]. *)
Definition normalizeRel (rel : RelElem) : RelElem :=
  match rel with
  | EBare v => EObj (mkRelObj JUndef JUndef (JStr (jsStr v)) (Some "UNKNOWN") None)
  | EObj o =>
      if truthy (rel_node_id o) then
        EObj (mkRelObj JUndef JUndef (JStr (jsStr (rel_node_id o)))
                (Some (strOrD (rel_relationType o) "UNKNOWN")) None)
      else if truthy (rel_id o) && negb (truthy (rel_targetAnimeId o)) then
        EObj (mkRelObj (rel_node_id o) (rel_id o) (JStr (jsStr (rel_id o)))
                (Some (strOrD (strOr (rel_relationType o) (rel_type o)) "UNKNOWN"))
                (rel_type o))
      else rel
  end.

(** A relation element read as an object: a property of a bare string or
    number is [undefined]. *)
Definition asObj (e : RelElem) : RelObj :=
  match e with
  | EObj o => o
  | EBare _ => mkRelObj JUndef JUndef JUndef None None
  end.

(** [anime.relations] as the second pass reads it; the first pass has made
    it an array. *)
Definition relationsOf (anime : Anime) : list RelObj :=
  match a_relations anime with
  | VArray l => asObj <$> l
  | _ => []
  end.

(** [relation.targetAnimeId || relation.id] *)
Definition relTarget (relation : RelObj) : JsVal :=
  jsOr (rel_targetAnimeId relation) (rel_id relation).

(** [relation.relationType || relation.type || "UNKNOWN"] *)
Definition relTypeOf (relation : RelObj) : string :=
  strOrD (strOr (rel_relationType relation) (rel_type relation)) "UNKNOWN".

Definition setRelations (anime : Anime) (v : RelValue) : Anime :=
  mkAnime (a_id anime) (a_title anime) (a_title_romaji anime) (a_start_date anime)
    v (a_seriesId anime).

Definition setSeriesId (anime : Anime) (sid : string) : Anime :=
  mkAnime (a_id anime) (a_title anime) (a_title_romaji anime) (a_start_date anime)
    (a_relations anime) (Some sid).

(** The state of [findAllRelatedIds]: the [processedIds] set, the
    [relationChains] map and the warnings logged. *)
Record Trav : Type := mkTrav {
  t_processed : list JsVal;
  t_chains : gmap JsVal (list JsVal);
  t_log : list LogMsg
}.

Record MultiEntry : Type := mkMultiEntry {
  me_animeId : JsVal;
  me_title : string;
  me_foundInSeries : list (string * string)
}.

Record OrphanEntry : Type := mkOrphanEntry {
  oe_animeId : JsVal;
  oe_title : option string;
  oe_reason : string
}.

Record EdgeCases : Type := mkEdgeCases {
  animeInMultipleSeries : list MultiEntry;
  orphanedAnime : list OrphanEntry;
  circularRelations : list (list JsVal)
}.

(** The state of the second pass of [groupAnimeIntoSeries_internal].
    [gs_seriesIdOf] holds the [seriesId] property written on the record
    objects, by their position in [animeData]: the pass never reads that
    property, and it writes no other. *)
Record GState : Type := mkGState {
  gs_series : list SeriesGroup;
  gs_processedIds : list JsVal;
  gs_seriesIds : gset string;
  gs_edgeCases : EdgeCases;
  gs_animeToSeries : gmap JsVal string;
  gs_seriesIdOf : gmap nat string;
  gs_log : list LogMsg
}.

(** What a run leaves: the two returned documents, the records of the
    caller as the run has mutated them, and the log. *)
Record GResult : Type := mkGResult {
  gr_series : list SeriesGroup;
  gr_edgeCases : EdgeCases;
  gr_animeData : list Anime;
  gr_log : list LogMsg
}.

(** *** The slug of [generateSeriesId] *)

Definition isSlugChar (c : ascii) : bool :=
  let n := N_of_ascii c in
  (((97 <=? n) && (n <=? 122)) || ((48 <=? n) && (n <=? 57)))%N.

Definition underscore : ascii := ascii_of_N 95.

(** [.replace(/[^a-z0-9]/g, "_")] *)
Fixpoint replaceNonSlug (s : string) : string :=
  match s with
  | EmptyString => EmptyString
  | String c s' => String (if isSlugChar c then c else underscore) (replaceNonSlug s')
  end.

(** [.replace(/_+/g, "_")] *)
Fixpoint collapseUnderscores (s : string) : string :=
  match s with
  | EmptyString => EmptyString
  | String c s' =>
      let r := collapseUnderscores s' in
      if decide (c = underscore) then
        match r with
        | String c' _ => if decide (c' = underscore) then r else String c r
        | EmptyString => String c r
        end
      else String c r
  end.

Fixpoint dropLastUnderscore (s : string) : string :=
  match s with
  | EmptyString => EmptyString
  | String c EmptyString => if decide (c = underscore) then EmptyString else s
  | String c s' => String c (dropLastUnderscore s')
  end.

(** [.replace(/^_|_$/g, "")] *)
Definition trimUnderscores (s : string) : string :=
  dropLastUnderscore
    match s with
    | String c s' => if decide (c = underscore) then s' else s
    | EmptyString => s
    end.

(** [.substring(0, n)] *)
Fixpoint substring0 (n : nat) (s : string) : string :=
  match n, s with
  | S n', String c s' => String c (substring0 n' s')
  | _, _ => EmptyString
  end.

Definition slugOf (title : string) : string :=
  substring0 30
    (trimUnderscores (collapseUnderscores (replaceNonSlug (toLowerCase title)))).

(** The [while (existingIds.has(seriesId))] loop. *)
Fixpoint uniqueSeriesId (fuel : nat) (slug : string) (existingIds : gset string)
    (seriesId : string) (counter : nat) : string :=
  match fuel with
  | O => seriesId
  | S fuel' =>
      if decide (seriesId ∈ existingIds) then
        uniqueSeriesId fuel' slug existingIds (slug +:+ "_" +:+ pretty counter) (S counter)
      else seriesId
  end.

(** The candidates of the [while] loop of [generateSeriesId]: the slug,
    then the slug with the counter. *)
Definition candidateId (slug : string) (j : nat) : string :=
  match j with
  | O => slug
  | S _ => slug +:+ "_" +:+ pretty j
  end.

Section grouper.
(** [JSON.parse] on the [relations] string is taken as given: [None] when
    it throws.  [env k] is what [Date.now()] and
    [Math.floor(Math.random() * 1000)] read when [k] groups have been
    created. *)
Variable JSON_parse : string → option RelValue.
Variable env : nat → Z * Z.

(** *** First pass: normalisation *)

(** The [try] block: a non-empty string is parsed. *)
Definition parseRelations (anime : Anime) : RelValue * list LogMsg :=
  match a_relations anime with
  | VString s =>
      if String.eqb s "" then (VString s, [])
      else
        match JSON_parse s with
        | Some v => (v, [])
        | None => (VArray [], [LogParseError (a_id anime)])
        end
  | v => (v, [])
  end.

(** The record after the body of the first [forEach]. *)
Definition normalizeAnime (anime : Anime) : Anime * list LogMsg :=
  let parsed := parseRelations anime in
  (setRelations anime
     match parsed.1 with
     | VArray l => VArray (normalizeRel <$> l)
     | _ => VArray []
     end,
   parsed.2).

(** The records, the [animeMap] object (a key to the position of its
    record) and the log during the first pass. *)
Record NState : Type := mkNState {
  ns_animeData : list Anime;
  ns_animeMap : gmap string nat;
  ns_log : list LogMsg
}.

Definition normalizeStep (st : NState) (ia : nat * Anime) : NState :=
  let r := normalizeAnime ia.2 in
  mkNState (<[ia.1 := r.1]> (ns_animeData st))
    (<[jsStr (a_id ia.2) := ia.1]> (ns_animeMap st))
    (ns_log st ++ r.2).

Definition normalizePass (animeData : list Anime) : NState :=
  foldl normalizeStep (mkNState animeData ∅ []) (imap pair animeData).

(** *** [findAllRelatedIds] *)

Section traversal.
Variable recs : list Anime.
Variable animeMap : gmap string nat.

(** [animeMap[id]] *)
Definition lookupAnime (animeId : JsVal) : option (nat * Anime) :=
  i ← animeMap !! jsStr animeId; anime ← recs !! i; Some (i, anime).

Definition visitRelation (recurse : JsVal → Trav → Trav) (animeId : JsVal)
    (st : Trav) (relation : RelObj) : Trav :=
  let targetId := relTarget relation in
  if truthy targetId then
    let currentChain := default [] (t_chains st !! animeId) in
    let newChain := currentChain ++ [animeId] in
    let log :=
      if decide (targetId ∈ currentChain)
      then t_log st ++ [LogCircular currentChain targetId]
      else t_log st in
    let st := mkTrav (t_processed st) (<[targetId := newChain]> (t_chains st)) log in
    if decide (targetId ∈ t_processed st) then st else recurse targetId st
  else st.

Fixpoint findAllRelatedIds (fuel : nat) (animeId : JsVal) (st : Trav) : Trav :=
  match fuel with
  | O => st
  | S fuel' =>
      if decide (animeId ∈ t_processed st) then st
      else
        let st := mkTrav (t_processed st ++ [animeId]) (t_chains st) (t_log st) in
        match lookupAnime animeId with
        | None => st
        | Some (_, anime) =>
            foldl (visitRelation (findAllRelatedIds fuel') animeId) st
              (relationsOf anime)
        end
  end.

(** Every id a traversal from [animeId] can meet: the recursion goes as
    deep as there are such ids at most. *)
Definition allTargets : list JsVal :=
  recs ≫= (λ anime, relTarget <$> relationsOf anime).

Definition traversalFuel : nat := S (S (length allTargets)).

(** [findAllRelatedIds(anime.id, animeMap, new Set(), relationChains)] *)
Definition relatedIdsOf (animeId : JsVal) : Trav :=
  findAllRelatedIds traversalFuel animeId (mkTrav [] ∅ []).

(** *** [generateSeriesId] *)

Definition generateSeriesId (animeDetails : list (nat * Anime))
    (existingIds : gset string) (k : nat) : string :=
  match head animeDetails with
  | Some (_, firstAnime) =>
      if strTruthy (a_title firstAnime) then
        let slug := slugOf (default "" (a_title firstAnime)) in
        uniqueSeriesId (S (size existingIds)) slug existingIds slug 1
      else "series_" +:+ pretty (env k).1 +:+ "_" +:+ pretty (env k).2
  | None => "series_" +:+ pretty (env k).1 +:+ "_" +:+ pretty (env k).2
  end.

(** *** Second pass *)

Definition addOrphan (anime : Anime) (reason : string) (s : GState) : GState :=
  mkGState (gs_series s) (set_add (a_id anime) (gs_processedIds s)) (gs_seriesIds s)
    (mkEdgeCases (animeInMultipleSeries (gs_edgeCases s))
       (orphanedAnime (gs_edgeCases s)
          ++ [mkOrphanEntry (a_id anime) (a_title anime) reason])
       (circularRelations (gs_edgeCases s)))
    (gs_animeToSeries s) (gs_seriesIdOf s) (gs_log s).

Definition conflictEntry (animeToSeries : gmap JsVal string) (animeId : JsVal)
    : MultiEntry :=
  let existingSeries := default "" (animeToSeries !! animeId) in
  mkMultiEntry animeId
    (strOrD (lookupAnime animeId ≫= (λ ia, a_title ia.2)) "Unknown")
    [(existingSeries, existingSeries);
     ("proposed_new_series", "Proposed New Series")].

Definition markProcessed (ids : list JsVal) (processedIds : list JsVal) : list JsVal :=
  foldl (λ p i, set_add i p) processedIds ids.

(** The inner [anime.relations.forEach] of the finalisation. *)
Definition addGroupRelation (anime : Anime) (g : SeriesGroup) (relation : RelObj)
    : SeriesGroup :=
  let targetId := relTarget relation in
  let relationType := relTypeOf relation in
  let relationKey := jsStr (a_id anime) +:+ "->" +:+ jsStr targetId in
  let keys := default [] (g_relationTypes g !! relationType) in
  mkSeriesGroup (g_seriesId g) (g_seriesName g) (g_animeIds g) (g_animeDetails g)
    (g_relations g ++ [mkGroupRel (a_id anime) targetId relationType "forward"])
    (<[relationType := if decide (relationKey ∈ keys) then keys else keys ++ [relationKey]]>
       (g_relationTypes g)).

(** The body of [animeDetails.forEach]. *)
Definition addDetail (seriesId : string)
    (acc : SeriesGroup * gmap JsVal string * gmap nat string) (ia : nat * Anime)
    : SeriesGroup * gmap JsVal string * gmap nat string :=
  let g := acc.1.1 in
  let anime := ia.2 in
  let g :=
    mkSeriesGroup (g_seriesId g) (g_seriesName g) (g_animeIds g)
      (<[jsStr (a_id anime) :=
           (a_id anime,
            strOrD (strOr (a_title_romaji anime) (a_title anime)) "Unknown Title")]>
         (g_animeDetails g))
      (g_relations g) (g_relationTypes g) in
  (foldl (addGroupRelation anime) g (relationsOf anime),
   <[a_id anime := seriesId]> acc.1.2,
   <[ia.1 := seriesId]> acc.2).

Definition finalizeGroup (relatedIds : list JsVal) (s : GState) : GState :=
  let animeDetails := omap lookupAnime relatedIds in
  let seriesId := generateSeriesId animeDetails (gs_seriesIds s) (length (gs_series s)) in
  let seriesName :=
    strOrD (head animeDetails ≫= (λ ia, a_title ia.2))
      ("Series " +:+ pretty (S (length (gs_series s)))) in
  let r :=
    foldl (addDetail seriesId)
      (mkSeriesGroup seriesId seriesName relatedIds ∅ [] ∅,
       gs_animeToSeries s, gs_seriesIdOf s)
      animeDetails in
  mkGState (gs_series s ++ [r.1.1]) (markProcessed relatedIds (gs_processedIds s))
    ({[seriesId]} ∪ gs_seriesIds s) (gs_edgeCases s) r.1.2 r.2 (gs_log s).

Definition rejectClosure (relatedIds conflictingAnime : list JsVal) (s : GState)
    : GState :=
  mkGState (gs_series s) (markProcessed relatedIds (gs_processedIds s))
    (gs_seriesIds s)
    (mkEdgeCases
       (animeInMultipleSeries (gs_edgeCases s)
          ++ (conflictEntry (gs_animeToSeries s) <$> conflictingAnime))
       (orphanedAnime (gs_edgeCases s))
       (circularRelations (gs_edgeCases s)))
    (gs_animeToSeries s) (gs_seriesIdOf s) (gs_log s).

(** The warnings of a traversal reach the log. *)
Definition appendLog (log : list LogMsg) (s : GState) : GState :=
  mkGState (gs_series s) (gs_processedIds s) (gs_seriesIds s) (gs_edgeCases s)
    (gs_animeToSeries s) (gs_seriesIdOf s) (gs_log s ++ log).

(** The body of the second [animeData.forEach]. *)
Definition groupStep (s : GState) (anime : Anime) : GState :=
  if decide (a_id anime ∈ gs_processedIds s) then s
  else if decide (relationsOf anime = []) then addOrphan anime "No relations found" s
  else
    let trav := relatedIdsOf (a_id anime) in
    let relatedIds := t_processed trav in
    let s := appendLog (t_log trav) s in
    if decide (length relatedIds = 1%nat) then
      addOrphan anime "No reciprocal relations found" s
    else
      let conflictingAnime :=
        filter (λ i, is_Some (gs_animeToSeries s !! i)) relatedIds in
      if decide (conflictingAnime = []) then finalizeGroup relatedIds s
      else rejectClosure relatedIds conflictingAnime s.

End traversal.

Definition initialState (log : list LogMsg) : GState :=
  mkGState [] [] ∅ (mkEdgeCases [] [] []) ∅ ∅ log.

Definition groupAnimeIntoSeries_internal (animeData : list Anime) : GResult :=
  let n := normalizePass animeData in
  let s :=
    foldl (groupStep (ns_animeData n) (ns_animeMap n)) (initialState (ns_log n))
      (ns_animeData n) in
  mkGResult (gs_series s) (gs_edgeCases s)
    (imap (λ i anime,
             match gs_seriesIdOf s !! i with
             | Some sid => setSeriesId anime sid
             | None => anime
             end)
       (ns_animeData n))
    (gs_log s).

End grouper.


(** ** The graph of the relations *)

Section relation_graph.
Variable recs : list Anime.
Variable animeMap : gmap string nat.

(** [edge x y]: the record found under [x] has a relation whose target is
    the truthy value [y]. *)
Definition edge (x y : JsVal) : Prop :=
  ∃ i anime relation,
    lookupAnime recs animeMap x = Some (i, anime) ∧ relation ∈ relationsOf anime ∧
    truthy (relTarget relation) = true ∧ relTarget relation = y.

(** Reachability along relations, from a record to its targets. *)
Inductive reach : JsVal → JsVal → Prop :=
| reach_refl x : reach x x
| reach_step x y z : edge x y → reach y z → reach x z.

(** Connection in the undirected graph of the relations: an edge is
    followed from either end. *)
Inductive connected : JsVal → JsVal → Prop :=
| connected_refl x : connected x x
| connected_forward x y z : edge x y → connected y z → connected x z
| connected_backward x y z : edge y x → connected y z → connected x z.

(** The number of ids of [U] a traversal has not processed yet. *)
Definition unprocessed (U : gset JsVal) (processed : list JsVal) : nat :=
  size (U ∖ list_to_set processed).

(** What a traversal adds to the processed set [p]: [r] contains [p] and
    repeats no id, and every id it adds can be reached from one of the
    ids in [from] and has all its targets in [r]. *)
Definition extends (from : JsVal → Prop) (p r : list JsVal) : Prop :=
  (∃ suffix, r = p ++ suffix) ∧
  (NoDup p → NoDup r) ∧
  (∀ x, x ∈ r → x ∉ p →
     (∃ a, from a ∧ reach a x) ∧ ∀ y, edge x y → y ∈ r).

End relation_graph.

(** ** The steps of the second pass *)

Section step_cases.
Variable env : nat → Z * Z.
Variable recs : list Anime.
Variable animeMap : gmap string nat.

(** The closure, the conflicting members and the log of the traversal
    that the step on [anime] computes. *)
Definition stepClosure (anime : Anime) : list JsVal :=
  t_processed (relatedIdsOf recs animeMap (a_id anime)).

Definition stepConflicts (s : GState) (anime : Anime) : list JsVal :=
  filter (λ i, is_Some (gs_animeToSeries s !! i)) (stepClosure anime).

Definition stepLogged (s : GState) (anime : Anime) : GState :=
  appendLog (t_log (relatedIdsOf recs animeMap (a_id anime))) s.

(** The five ways the body of the second loop can go. *)
Inductive StepCase (s : GState) (anime : Anime) : GState → Prop :=
| step_skip :
    a_id anime ∈ gs_processedIds s → StepCase s anime s
| step_no_relations :
    a_id anime ∉ gs_processedIds s → relationsOf anime = [] →
    StepCase s anime (addOrphan anime "No relations found" s)
| step_alone :
    a_id anime ∉ gs_processedIds s → relationsOf anime ≠ [] →
    length (stepClosure anime) = 1%nat →
    StepCase s anime
      (addOrphan anime "No reciprocal relations found" (stepLogged s anime))
| step_finalize :
    a_id anime ∉ gs_processedIds s → relationsOf anime ≠ [] →
    length (stepClosure anime) ≠ 1%nat →
    stepConflicts s anime = [] →
    StepCase s anime
      (finalizeGroup env recs animeMap (stepClosure anime) (stepLogged s anime))
| step_reject :
    a_id anime ∉ gs_processedIds s → relationsOf anime ≠ [] →
    length (stepClosure anime) ≠ 1%nat →
    stepConflicts s anime ≠ [] →
    StepCase s anime
      (rejectClosure recs animeMap (stepClosure anime) (stepConflicts s anime)
         (stepLogged s anime)).

(** What holds of the groups and of [animeToSeries] throughout a run:
    - a group lists the closure of the record that started it, which has
      two members or more;
    - its name is the plain title of the first member that has a record,
      or the placeholder with its position among the groups;
    - an id is assigned to a group only as the own id of the record of
      one of its members;
    - the own id of the record of every member of a group is assigned. *)
Record GroupInv (s : GState) : Prop := mkGroupInv {
  inv_members : ∀ g, g ∈ gs_series s →
    ∃ a, g_animeIds g = t_processed (relatedIdsOf recs animeMap a) ∧
         length (g_animeIds g) ≠ 1%nat;
  inv_name : ∀ k g, gs_series s !! k = Some g →
    g_seriesName g =
      strOrD (head (omap (lookupAnime recs animeMap) (g_animeIds g))
                ≫= (λ ia, a_title ia.2))
        ("Series " +:+ pretty (S k));
  inv_assigned : ∀ x sid, gs_animeToSeries s !! x = Some sid →
    ∃ g y i anime, g ∈ gs_series s ∧ g_seriesId g = sid ∧ y ∈ g_animeIds g ∧
      lookupAnime recs animeMap y = Some (i, anime) ∧ a_id anime = x;
  inv_complete : ∀ g y i anime, g ∈ gs_series s → y ∈ g_animeIds g →
    lookupAnime recs animeMap y = Some (i, anime) →
    is_Some (gs_animeToSeries s !! a_id anime)
}.

End step_cases.

(** [soft_all P main results]: the main clusters of [results] are [main],
    and [P] holds of every cluster under every other key of [results]. *)
Definition soft_all (P : SoftCluster → Prop) (main : list MainCluster)
    (results : SplitResults) : Prop :=
  res_main results = main ∧
  ∀ key cs c, res_soft results !! key = Some cs → c ∈ cs → P c.

(** ** The naming rule of the specification *)

Section naming.
Variable strToNumber : string → option Z.
Variable parseDate : string → option Z.
Variable animeMap : gmap string Anime.

(** The parsed release date of a candidate, when it has one that is a
    valid date. *)
Definition releaseDate (v : JsVal) : option Z :=
  anime ← animeMap !! jsStr v;
  if strTruthy (a_start_date anime) then a_start_date anime ≫= parseDate else None.

(** Ascending by release date when both candidates have a valid one,
    ascending by numeric id otherwise. *)
Definition resolverCmp (a b : JsVal) : option Z :=
  match releaseDate a, releaseDate b with
  | Some dateA, Some dateB => Some (dateA - dateB)
  | _, _ => numCmp strToNumber a b
  end.

(** The romanized title if present, else the plain title, else the
    placeholder. *)
Definition resolverName (v : JsVal) : string :=
  match animeMap !! jsStr v with
  | Some anime =>
      if strTruthy (a_title_romaji anime) then default "" (a_title_romaji anime)
      else if strTruthy (a_title anime) then default "" (a_title anime)
      else "Series " +:+ jsStr v
  | None => "Series " +:+ jsStr v
  end.

(** The name of the first-ordered candidate; [None] when there is no
    candidate. *)
Definition namingResolver (members : list JsVal) : option string :=
  resolverName <$> head (sortVals resolverCmp members).

End naming.

(** ** The order of a comparator *)

(** The sign of the comparison; [NaN] counts as 0. *)
Definition cmpSign {A} (cmp : A → A → option Z) (a b : A) : Z :=
  match cmp a b with
  | Some z => Z.sgn z
  | None => 0
  end.

(** The comparator [cmp] orders the elements of [l] consistently: the
    comparison of two of them changes its sign when they are swapped,
    and the relation "[cmp a b] is not positive" is transitive on them.
    This is what ECMAScript asks of a comparator to fix the result of
    [sort]. *)
Definition consistentOn {A} (cmp : A → A → option Z) (l : list A) : Prop :=
  Forall (λ a,
    Forall (λ b,
      cmpSign cmp a b = - cmpSign cmp b a
      ∧ Forall (λ c, cmp_le cmp a b = true → cmp_le cmp b c = true →
                     cmp_le cmp a c = true) l) l) l.

Global Instance consistentOn_dec {A} (cmp : A → A → option Z) (l : list A) :
  Decision (consistentOn cmp l).
Proof. unfold consistentOn. apply _. Defined.

(** [first] is a first-ordered candidate among [members]: it is not
    ordered after any member that is not [undefined], and it is
    [undefined] only when every member is. *)
Definition firstOrdered (cmp : JsVal → JsVal → option Z) (members : list JsVal)
    (first : JsVal) : Prop :=
  first ∈ members
  ∧ ∀ x, x ∈ members → x ≠ JUndef → first ≠ JUndef ∧ cmp_le cmp first x = true.

(** The categories and how the name of a cluster shows them. *)
Definition categoryLabels : list (string * string) :=
  [("CHARACTER", "Character"); ("ADAPTATION", "Adaptation");
   ("SPIN_OFF", "Spin_off"); ("OTHER", "Other"); ("PARENT", "Parent")].

(** ** The whole run *)

(** [animeMap] of the splitting stage, built from the records as the
    conversion stage wrote them. *)
Definition rawAnimeMap (animeData : list Anime) : gmap string Anime :=
  foldl (λ m anime, <[jsStr (a_id anime) := anime]> m) ∅ animeData.

(** Grouping, then splitting of the groups it wrote. *)
Definition pipeline (strToNumber parseDate : string → option Z)
    (JSON_parse : string → option RelValue) (env : nat → Z * Z)
    (animeData : list Anime) : GResult * SplitOutput :=
  let r := groupAnimeIntoSeries_internal JSON_parse env animeData in
  (r, advancedSeriesSplit strToNumber parseDate (gr_series r) (rawAnimeMap animeData)).

(** ** Statements of the specification *)

(** The closure the second pass computes for the id [a], on the records
    of [animeData] as the first pass leaves them. *)
Definition closureOf (JSON_parse : string → option RelValue)
    (animeData : list Anime) (a : JsVal) : list JsVal :=
  let n := normalizePass JSON_parse animeData in
  t_processed (relatedIdsOf (ns_animeData n) (ns_animeMap n) a).

Definition reachIn (JSON_parse : string → option RelValue)
    (animeData : list Anime) : JsVal → JsVal → Prop :=
  let n := normalizePass JSON_parse animeData in
  reach (ns_animeData n) (ns_animeMap n).

Definition connectedIn (JSON_parse : string → option RelValue)
    (animeData : list Anime) : JsVal → JsVal → Prop :=
  let n := normalizePass JSON_parse animeData in
  connected (ns_animeData n) (ns_animeMap n).

(** The edge object [{targetAnimeId, relationType}] of the
    specification. *)
Definition canonicalEdge (targetId relationType : string) : RelObj :=
  mkRelObj JUndef JUndef (JStr targetId) (Some relationType) None.

(** The first of the given tags that is present and not empty, and
    "UNKNOWN" when there is none. *)
Fixpoint tagOrUnknown (tags : list (option string)) : string :=
  match tags with
  | [] => "UNKNOWN"
  | Some t :: rest => if decide (t = "") then tagOrUnknown rest else t
  | None :: rest => tagOrUnknown rest
  end.

(** What the normalisation makes of an element of a raw relation list,
    shape by shape: a bare id; an element with a nested node that has an
    id; an element with an [id] and no [targetAnimeId], which keeps its
    other properties; any other element, which is kept as it is. *)
Inductive rewrittenAs : RelElem → RelObj → Prop :=
| rewritten_bare v :
    rewrittenAs (EBare v) (canonicalEdge (jsStr v) "UNKNOWN")
| rewritten_node o :
    truthy (rel_node_id o) = true →
    rewrittenAs (EObj o)
      (canonicalEdge (jsStr (rel_node_id o)) (tagOrUnknown [rel_relationType o]))
| rewritten_id o :
    truthy (rel_node_id o) = false →
    truthy (rel_id o) = true → truthy (rel_targetAnimeId o) = false →
    rewrittenAs (EObj o)
      (mkRelObj (rel_node_id o) (rel_id o) (JStr (jsStr (rel_id o)))
         (Some (tagOrUnknown [rel_relationType o; rel_type o])) (rel_type o))
| rewritten_kept o :
    truthy (rel_node_id o) = false →
    truthy (rel_id o) = false ∨ truthy (rel_targetAnimeId o) = true →
    rewrittenAs (EObj o) o.

(** The edge objects that stand for a raw [relations] value: a list is
    rewritten element by element, a non-empty string is parsed as JSON
    first, and a value that is missing, is no list or does not parse
    gives no edge. *)
Inductive normalizedFrom (JSON_parse : string → option RelValue)
    : RelValue → list RelObj → Prop :=
| normalized_list l edges :
    Forall2 rewrittenAs l edges → normalizedFrom JSON_parse (VArray l) edges
| normalized_json s l edges :
    s ≠ "" → JSON_parse s = Some (VArray l) → Forall2 rewrittenAs l edges →
    normalizedFrom JSON_parse (VString s) edges
| normalized_json_other s v :
    s ≠ "" → JSON_parse s = Some v → (∀ l, v ≠ VArray l) →
    normalizedFrom JSON_parse (VString s) []
| normalized_malformed s :
    s ≠ "" → JSON_parse s = None → normalizedFrom JSON_parse (VString s) []
| normalized_empty_string : normalizedFrom JSON_parse (VString "") []
| normalized_absent : normalizedFrom JSON_parse VAbsent []
| normalized_other : normalizedFrom JSON_parse VOther [].

(** What the first pass leaves of a raw record: the identifier, the
    titles and the start date as they were, and the relations as an
    array of the edge objects that stand for the raw value. *)
Definition overwritten (JSON_parse : string → option RelValue)
    (raw anime : Anime) : Prop :=
  a_id anime = a_id raw ∧ a_title anime = a_title raw
  ∧ a_title_romaji anime = a_title_romaji raw
  ∧ a_start_date anime = a_start_date raw
  ∧ ∃ edges, a_relations anime = VArray (EObj <$> edges)
             ∧ normalizedFrom JSON_parse (a_relations raw) edges.

(** [String.prototype.toUpperCase] on the ASCII letters. *)
Definition upperAscii (c : ascii) : ascii :=
  let n := N_of_ascii c in
  if ((97 <=? n) && (n <=? 122))%N then ascii_of_N (n - 32) else c.

Fixpoint toUpperCase (s : string) : string :=
  match s with
  | EmptyString => EmptyString
  | String c s' => String (upperAscii c) (toUpperCase s')
  end.

(** *** Inputs of the examples *)

Module Examples.

(** No record of the examples carries its relations as a string. *)
Definition noJson (s : string) : option RelValue := None.

Definition clockA (k : nat) : Z * Z := (1700000000000, 7).
Definition clockB (k : nat) : Z * Z := (1700000000001, 7).

Definition relTo (target : string) (relationType : string) : RelElem :=
  EObj (mkRelObj JUndef JUndef (JStr target) (Some relationType) None).

Definition record (i title : string) (rels : list RelElem) : Anime :=
  mkAnime (JStr i) (Some title) None None (VArray rels) None.

(** Record 3 points at record 1, nothing points at record 3. *)
Definition pointedAt : list Anime :=
  [record "1" "First" [relTo "2" "SEQUEL"];
   record "2" "Second" [];
   record "3" "Third" [relTo "1" "PREQUEL"]].

(** Two records that point at the id 99, which no record has. *)
Definition sharedTarget : list Anime :=
  [record "1" "Left" [relTo "99" "SEQUEL"];
   record "2" "Right" [relTo "99" "SEQUEL"]].

(** Records 1 and 2 form a group, then record 3 points at record 2. *)
Definition lateComer : list Anime :=
  [record "1" "Alpha" [relTo "2" "SEQUEL"];
   record "2" "Beta" [relTo "1" "PREQUEL"];
   record "3" "Gamma" [relTo "2" "SIDE_STORY"]].

(** Record 1 is a sequel of itself and shares a character with
    record 2. *)
Definition selfSequel : list Anime :=
  [record "1" "Solo" [relTo "1" "SEQUEL"; relTo "2" "CHARACTER"];
   record "2" "Guest" [relTo "1" "CHARACTER"]].

(** A group with a main cluster 1-2 and an OTHER cluster 4-5. *)
Definition mainAndOther : SeriesGroup :=
  mkSeriesGroup "g" "G" [JStr "1"; JStr "2"; JStr "4"; JStr "5"] ∅
    [mkGroupRel (JStr "1") (JStr "2") "SEQUEL" "forward";
     mkGroupRel (JStr "2") (JStr "4") "OTHER" "forward";
     mkGroupRel (JStr "4") (JStr "5") "OTHER" "forward"]
    ∅.

(** Record ids that are strings, relation targets that are numbers. *)
Definition relToNumber (target : Z) (relationType : string) : RelElem :=
  EObj (mkRelObj JUndef JUndef (JNum target) (Some relationType) None).

Definition numericTargets : list Anime :=
  [record "1" "One" [relToNumber 2 "SEQUEL"];
   record "2" "Two" [relToNumber 1 "PREQUEL"];
   record "4" "Four" [relToNumber 2 "SIDE_STORY"]].

(** The first record of the group has no title. *)
Definition untitled : list Anime :=
  [mkAnime (JStr "1") None None None (VArray [relTo "2" "SEQUEL"]) None;
   record "2" "Named" [relTo "1" "PREQUEL"]].

(** A cycle 1 -> 2 -> 1. *)
Definition cycle : list Anime :=
  [record "1" "Ping" [relTo "2" "SEQUEL"];
   record "2" "Pong" [relTo "1" "PREQUEL"]].

(** A lower-case category tag. *)
Definition lowerTag : RelObj :=
  mkRelObj JUndef JUndef (JStr "2") (Some "sequel") None.

(** The record with the larger id comes first and has a romanized
    title. *)
Definition laterFirst : list Anime :=
  [mkAnime (JStr "2") (Some "Second Season") (Some "Dai Ni Ki") None
     (VArray [relTo "1" "PREQUEL"]) None;
   record "1" "First Season" [relTo "2" "SEQUEL"]].

(** Records 1 and 2 form a group; records 3 and 4 both point at
    record 2. *)
Definition twoLateComers : list Anime :=
  [record "1" "Alpha" [relTo "2" "SEQUEL"];
   record "2" "Beta" [relTo "1" "PREQUEL"];
   record "3" "Gamma" [relTo "2" "SIDE_STORY"];
   record "4" "Delta" [relTo "2" "SIDE_STORY"]].

(** An element with a target and a [type], and no [relationType]. *)
Definition typeOnly : RelObj :=
  mkRelObj JUndef JUndef (JStr "2") None (Some "SEQUEL").

(** An element with a target and no tag at all. *)
Definition untagged : RelObj :=
  mkRelObj JUndef JUndef (JStr "2") None None.

(** A record with a relation of each shape, and a record whose relations
    are a string that does not parse. *)
Definition allShapes : list Anime :=
  [record "1" "Shapes"
     [EBare (JNum 7);
      EObj (mkRelObj (JNum 8) JUndef JUndef (Some "sequel") (Some "dropped"));
      EObj (mkRelObj JUndef (JNum 9) JUndef None (Some "PREQUEL"));
      EObj typeOnly];
   mkAnime (JStr "2") (Some "Broken") None None (VString "[oops") None].

End Examples.

Module VetoExample.
Import Examples.

Definition recs : list Anime := ns_animeData (normalizePass noJson lateComer).
Definition animeMap : gmap string nat := ns_animeMap (normalizePass noJson lateComer).

(** The state when records 1 and 2 have been grouped. *)
Definition grouped : GState :=
  foldl (groupStep clockA recs animeMap) (initialState []) (take 2 recs).

Definition third : Anime := record "3" "Gamma" [relTo "2" "SIDE_STORY"].

End VetoExample.

Module SplitExample.
Import Examples.

Definition main12 : MainCluster :=
  mkMainCluster "series_g_1" "Series 1" "g" [JStr "1"; JStr "2"] [JStr "4"] [] [] []
    [mkGroupRel (JStr "1") (JStr "2") "SEQUEL" "forward"].

Definition other45 : SoftCluster :=
  mkSoftCluster "other_g_1" "Series 4 (Other)" "g" [JStr "4"; JStr "5"] "OTHER"
    [mkGroupRel (JStr "4") (JStr "5") "OTHER" "forward"].

End SplitExample.

(** ** Adjacency and paths of a [Graph] *)

Module GraphRel.

(** [this.adjacencyList.get(vertex) || []] *)
Definition neighbours (g : Graph.t) (v : JsVal) : list JsVal :=
  default [] (al_lookup v g).

Definition adjacent (g : Graph.t) (v w : JsVal) : Prop := w ∈ neighbours g v.

Inductive path (g : Graph.t) : JsVal → JsVal → Prop :=
| path_refl v : path g v v
| path_step v w z : adjacent g v w → path g w z → path g v z.

(** What [addEdge] maintains: the keys of the [Map] are distinct, the
    adjacency is symmetric and every neighbour is a key. *)
Record wf (g : Graph.t) : Prop := mk_wf {
  wf_keys : NoDup g.*1;
  wf_sym : ∀ v w, adjacent g v w → adjacent g w v;
  wf_closed : ∀ v w, adjacent g v w → w ∈ g.*1
}.

(** No edge leaves [visited] except into [stack]. *)
Definition frontier (g : Graph.t) (visited stack : list JsVal) : Prop :=
  ∀ v w, v ∈ visited → adjacent g v w → w ∈ visited ∨ w ∈ stack.

(** A group of vertices is a connected component: it holds a vertex and
    exactly what that vertex reaches. *)
Definition component (g : Graph.t) (group : list JsVal) : Prop :=
  ∃ start, start ∈ group ∧ ∀ x, x ∈ group ↔ path g start x.

End GraphRel.

(** ** The links between the members of a group *)

(** The relation [r] joins [a] and [x], in either direction. *)
Definition joins (r : GroupRel) (a x : JsVal) : Prop :=
  (r_sourceAnimeId r = a ∧ r_targetAnimeId r = x) ∨
  (r_sourceAnimeId r = x ∧ r_targetAnimeId r = a).

(** The relation types that the first pass of [processSeriesData] keeps
    out of the graph. *)
Definition softTypes : list string :=
  ["CHARACTER"; "ADAPTATION"; "SPIN_OFF"; "OTHER"; "PARENT"].

(** The relation types with a branch of their own in the scan of a main
    group. *)
Definition specialTypes : list string := ["CHARACTER"; "ADAPTATION"; "SPIN_OFF"].

(** Two ids are linked when a relation of any other type joins them. *)
Definition structuralLink (relations : list GroupRel) (v w : JsVal) : Prop :=
  ∃ r, r ∈ relations ∧ ¬ (r_relationType r ∈ softTypes) ∧ joins r v w.

(** [x] is no member and a relation whose type satisfies [T] joins it to
    a member. *)
Definition outsider (relations : list GroupRel) (members : list JsVal)
    (T : string → Prop) (x : JsVal) : Prop :=
  (x ∉ members) ∧
  ∃ r a, r ∈ relations ∧ T (r_relationType r) ∧ a ∈ members ∧ joins r a x.

(** [relation.sourceAnimeId === animeId ? relation.targetAnimeId :
    relation.sourceAnimeId] *)
Definition otherIdOf (animeId : JsVal) (relation : GroupRel) : JsVal :=
  if decide (r_sourceAnimeId relation = animeId) then r_targetAnimeId relation
  else r_sourceAnimeId relation.

(** The same over the (member, relation) pairs a scan has gone
    through. *)
Definition scanned (group : list JsVal) (pairs : list (JsVal * GroupRel))
    (T : string → Prop) (x : JsVal) : Prop :=
  (x ∉ group) ∧
  ∃ a r, (a, r) ∈ pairs ∧ T (r_relationType r) ∧ joins r a x.

(** The four id sets of the scan of a main group hold the outsiders the
    scan has met. *)
Definition setsScanned (group : list JsVal) (pairs : list (JsVal * GroupRel))
    (acc : MainAcc) : Prop :=
  (∀ x, x ∈ acc_characterIds acc ↔ scanned group pairs (eq "CHARACTER") x)
  ∧ (∀ x, x ∈ acc_adaptationIds acc ↔ scanned group pairs (eq "ADAPTATION") x)
  ∧ (∀ x, x ∈ acc_spinOffIds acc ↔ scanned group pairs (eq "SPIN_OFF") x)
  ∧ (∀ x, x ∈ acc_otherIds acc
          ↔ scanned group pairs (λ ty, ¬ (ty ∈ specialTypes)) x).

(** A [uniqueRelations] map: the keys are distinct, and each relation
    sits under its own key and satisfies [Q]. *)
Definition keyedBy (Q : GroupRel → Prop) (u : list (string * GroupRel)) : Prop :=
  NoDup u.*1 ∧ ∀ k r, (k, r) ∈ u → k = relationKey3 r ∧ Q r.

(** The relations a main group keeps: both ends are members and the
    type has no branch of its own. *)
Definition internalRelation (relations : list GroupRel) (members : list JsVal)
    (r : GroupRel) : Prop :=
  r ∈ relations ∧ ¬ (r_relationType r ∈ specialTypes)
  ∧ r_sourceAnimeId r ∈ members ∧ r_targetAnimeId r ∈ members.

(** The relations a cluster of the category [ty] keeps. *)
Definition categoryRelation (relations : list GroupRel) (ty : string)
    (members : list JsVal) (r : GroupRel) : Prop :=
  r ∈ relations ∧ r_relationType r = ty
  ∧ r_sourceAnimeId r ∈ members ∧ r_targetAnimeId r ∈ members.

(** Every cluster of [results] sits under the lower-cased name of its
    own category. *)
Definition soft_keyed (results : SplitResults) : Prop :=
  ∀ key cs c, res_soft results !! key = Some cs → c ∈ cs →
    key = toLowerCase (c_seriesType c) ∧ c_seriesType c ∈ softTypes.

(** The relation types that enter the relation map of a category: the
    map of OTHER also takes the PARENT relations. *)
Definition feeds (category ty : string) : Prop :=
  ty = category ∨ (category = "OTHER" ∧ ty = "PARENT").

Definition categoryLink (relations : list GroupRel) (category : string)
    (v w : JsVal) : Prop :=
  ∃ r, r ∈ relations ∧ feeds category (r_relationType r) ∧ joins r v w.

(** The relation map that [processSeriesData] hands to
    [findConnectedGroupsFromRelations] for a category. *)
Definition categoryMap (rm : RelMaps) (category : string)
    : list (JsVal * list JsVal) :=
  if decide (category = "CHARACTER") then rm_character rm
  else if decide (category = "ADAPTATION") then rm_adaptation rm
  else if decide (category = "SPIN_OFF") then rm_spinOff rm
  else if decide (category = "OTHER") then rm_other rm
  else rm_parent rm.

(** An entry of a relation map joins its key and one of its targets. *)
Definition mapLink (relationMap : list (JsVal * list JsVal)) (v w : JsVal) : Prop :=
  ∃ e, e ∈ relationMap ∧ ((e.1 = v ∧ w ∈ e.2) ∨ (e.1 = w ∧ v ∈ e.2)).

(** Every cluster of [results] comes from a connected group of the
    relation map of its category, without the members of [main]. *)
Definition soft_from (series : SeriesGroup) (main : list MainCluster)
    (results : SplitResults) : Prop :=
  res_main results = main ∧
  ∀ key cs c, res_soft results !! key = Some cs → c ∈ cs →
    ∃ group,
      group ∈ findConnectedGroupsFromRelations
                (categoryMap (firstPass (g_relations series)) (c_seriesType c))
      ∧ c_animeIds c ≡ₚ filter (λ id, id ∉ main ≫= m_animeIds) group.

(** ** Orders behind the comparators *)

Section orders.
Variable strToNumber : string → option Z.
Variable parseDate : string → option Z.

(** Both values are numbers, in ascending order. *)
Definition numLe (a b : JsVal) : Prop :=
  match toNumber strToNumber a, toNumber strToNumber b with
  | Some x, Some y => x ≤ y
  | _, _ => False
  end.

(** Both ids have a record with a valid [start_date], in ascending
    order of these dates. *)
Definition dateLe (animeMap : gmap string Anime) (a b : JsVal) : Prop :=
  match releaseDate parseDate animeMap a, releaseDate parseDate animeMap b with
  | Some x, Some y => x ≤ y
  | _, _ => False
  end.
End orders.

(** ** The books of the grouping stage *)

(** The state that the second loop of [groupAnimeIntoSeries_internal]
    ends in. *)
Definition secondPass (JSON_parse : string → option RelValue) (env : nat → Z * Z)
    (animeData : list Anime) : GState :=
  let n := normalizePass JSON_parse animeData in
  foldl (groupStep env (ns_animeData n) (ns_animeMap n)) (initialState (ns_log n))
    (ns_animeData n).

(** The entries that the finalisation of a group writes to
    [seriesGroup.relations] for one record. *)
Definition groupRelationsOf (anime : Anime) : list GroupRel :=
  (λ relation,
     mkGroupRel (a_id anime) (relTarget relation) (relTypeOf relation) "forward")
    <$> relationsOf anime.

(** The relation key [source->target] of the index by type. *)
Definition relationKey2 (r : GroupRel) : string :=
  jsStr (r_sourceAnimeId r) +:+ "->" +:+ jsStr (r_targetAnimeId r).

(** [index] lists under each type, once each, the keys of the relations
    of that type, and has no entry for a type without relation. *)
Definition typeIndex (relations : list GroupRel)
    (index : gmap string (list string)) : Prop :=
  ∀ ty,
    NoDup (default [] (index !! ty))
    ∧ (∀ k, k ∈ default [] (index !! ty)
            ↔ ∃ r, r ∈ relations ∧ r_relationType r = ty ∧ relationKey2 r = k)
    ∧ (is_Some (index !! ty) ↔ ∃ r, r ∈ relations ∧ r_relationType r = ty).

(** The title that [animeDetails] records for a member. *)
Definition detailTitle (anime : Anime) : string :=
  strOrD (strOr (a_title_romaji anime) (a_title anime)) "Unknown Title".

(** What the finalisation writes into a group, in terms of the records
    of its members. *)
Definition groupBooks (recs : list Anime) (animeMap : gmap string nat)
    (g : SeriesGroup) : Prop :=
  let details := omap (lookupAnime recs animeMap) (g_animeIds g) in
  g_relations g = details ≫= (λ ia, groupRelationsOf ia.2)
  ∧ typeIndex (g_relations g) (g_relationTypes g)
  ∧ (∀ k v, g_animeDetails g !! k = Some v →
       ∃ ia, ia ∈ details ∧ k = jsStr (a_id ia.2)
             ∧ v = (a_id ia.2, detailTitle ia.2))
  ∧ (∀ ia, ia ∈ details → is_Some (g_animeDetails g !! jsStr (a_id ia.2))).

Section books.
Variable recs : list Anime.
Variable animeMap : gmap string nat.

(** What holds of the books of the second pass when it has gone through
    the records [animes]:
    - every group has the books of its members, lists the closure of a
      record that has relations, has its id in [seriesIds] and its
      members processed;
    - no id has two orphan entries; an orphan entry is for a record
      that was met unprocessed, with no relation or with a closure of
      its own id only;
    - a multi-membership entry names a group that lists the record
      whose id it reports;
    - a [seriesId] written on a record is the id of a group that lists a
      member with that record, and the record of every member carries
      one. *)
Record BooksInv (animes : list Anime) (s : GState) : Prop := mkBooksInv {
  books_groups : ∀ g, g ∈ gs_series s → groupBooks recs animeMap g;
  books_start : ∀ g, g ∈ gs_series s →
    ∃ anime, anime ∈ animes ∧ relationsOf anime ≠ []
      ∧ g_animeIds g = t_processed (relatedIdsOf recs animeMap (a_id anime));
  books_ids : ∀ g, g ∈ gs_series s → g_seriesId g ∈ gs_seriesIds s;
  books_members : ∀ g y, g ∈ gs_series s → y ∈ g_animeIds g →
    y ∈ gs_processedIds s;
  books_orphan_ids : NoDup (oe_animeId <$> orphanedAnime (gs_edgeCases s));
  books_orphans : ∀ o, o ∈ orphanedAnime (gs_edgeCases s) →
    oe_animeId o ∈ gs_processedIds s ∧
    ∃ anime, anime ∈ animes
      ∧ o = mkOrphanEntry (a_id anime) (a_title anime) (oe_reason o)
      ∧ ((oe_reason o = "No relations found" ∧ relationsOf anime = [])
         ∨ (oe_reason o = "No reciprocal relations found"
            ∧ relationsOf anime ≠ []
            ∧ t_processed (relatedIdsOf recs animeMap (a_id anime)) = [a_id anime]));
  books_multi : ∀ e, e ∈ animeInMultipleSeries (gs_edgeCases s) →
    ∃ g y i anime, g ∈ gs_series s
      ∧ me_foundInSeries e
        = [(g_seriesId g, g_seriesId g);
           ("proposed_new_series", "Proposed New Series")]
      ∧ y ∈ g_animeIds g ∧ lookupAnime recs animeMap y = Some (i, anime)
      ∧ a_id anime = me_animeId e;
  books_attached : ∀ i sid, gs_seriesIdOf s !! i = Some sid →
    ∃ g y anime, g ∈ gs_series s ∧ g_seriesId g = sid ∧ y ∈ g_animeIds g
      ∧ lookupAnime recs animeMap y = Some (i, anime);
  books_attached_all : ∀ g y i anime, g ∈ gs_series s → y ∈ g_animeIds g →
    lookupAnime recs animeMap y = Some (i, anime) →
    is_Some (gs_seriesIdOf s !! i)
}.
End books.

(** A warning of the traversal, as opposed to one of the first pass. *)
Definition isCircularWarning (m : LogMsg) : Prop :=
  match m with
  | LogCircular _ _ => True
  | LogParseError _ => False
  end.

(** ** The wrapper of the grouping stage *)

(** [v.toString()], which throws on [undefined]. *)
Definition toStringM (v : JsVal) : option string :=
  match v with
  | JUndef => None
  | _ => Some (jsStr v)
  end.

(** [seriesMap.set(animeId.toString(), series.seriesId)] *)
Definition seriesMapSet (seriesId : string) (m : option (gmap string string))
    (animeId : JsVal) : option (gmap string string) :=
  m ← m; k ← toStringM animeId; Some (<[k := seriesId]> m).

(** The [seriesMap] of [updateAnimeData]; [None] when the loop throws. *)
Definition seriesMapOf (series : list SeriesGroup) : option (gmap string string) :=
  foldl (λ m g, foldl (seriesMapSet (g_seriesId g)) m (g_animeIds g)) (Some ∅) series.

(** The callback of [animeData.map]: a copy of the record with the
    [seriesId] of the map when there is a non-empty one. *)
Definition updateAnime (seriesMap : gmap string string) (anime : Anime)
    : option Anime :=
  k ← toStringM (a_id anime);
  Some match seriesMap !! k with
       | Some seriesId =>
           if String.eqb seriesId "" then anime else setSeriesId anime seriesId
       | None => anime
       end.

Definition updateAnimeData (animeData : list Anime) (series : list SeriesGroup)
    : option (list Anime) :=
  seriesMap ← seriesMapOf series; mapM (updateAnime seriesMap) animeData.

(** [(a, b) => b.animeIds.length - a.animeIds.length] *)
Definition bySizeDesc (a b : SeriesGroup) : option Z :=
  Some (Z.of_nat (length (g_animeIds b)) - Z.of_nat (length (g_animeIds a))).

(** The groups that [logSeriesSummary] reports:
    [[...series].sort(...).slice(0, 5)]. *)
Definition topSeriesBySize (series : list SeriesGroup) : list SeriesGroup :=
  take 5 (sort_stable bySizeDesc series).

(** A group lists an id whose string is [k]. *)
Definition lists (k : string) (g : SeriesGroup) : Prop :=
  k ∈ jsStr <$> g_animeIds g.

(** ** The shape of a slug *)

Fixpoint stringForall (P : ascii → Prop) (s : string) : Prop :=
  match s with
  | EmptyString => True
  | String c s' => P c ∧ stringForall P s'
  end.

Definition startsWithUnderscore (s : string) : Prop :=
  match s with
  | String c _ => c = underscore
  | EmptyString => False
  end.

Fixpoint noDoubleUnderscore (s : string) : Prop :=
  match s with
  | EmptyString => True
  | String c s' => ¬ (c = underscore ∧ startsWithUnderscore s') ∧ noDoubleUnderscore s'
  end.

(** *** Further inputs of the examples *)

Module MoreExamples.
Import Examples.

(** The graph with the single edge 1 - 2. *)
Definition oneEdge : Graph.t := Graph.addEdge (JNum 1) (JNum 2) Graph.empty.

(** The run on the cycle 1 -> 2 -> 1 and its group. *)
Definition cycleRun : GResult := groupAnimeIntoSeries_internal noJson clockA cycle.

Definition cycleGroup : SeriesGroup :=
  default (mkSeriesGroup "" "" [] ∅ [] ∅) (head (gr_series cycleRun)).

(** The run in which record 3 points at the grouped record 2, and the
    first multi-membership entry it reports. *)
Definition lateRun : GResult := groupAnimeIntoSeries_internal noJson clockA lateComer.

Definition lateEntry : MultiEntry :=
  default (mkMultiEntry JUndef "" [])
    (head (animeInMultipleSeries (gr_edgeCases lateRun))).

(** Two records with a start date; the dates are read as numbers. *)
Definition dated (i title date : string) : Anime :=
  mkAnime (JStr i) (Some title) None (Some date) (VArray []) None.

Definition datedMap : gmap string Anime :=
  list_to_map [("1", dated "1" "Remake" "2001"); ("2", dated "2" "Original" "1999")].

End MoreExamples.

Module NameExample.

(** A group of the two dated records, which share a character, and the
    cluster that the splitting stage makes of it. *)
Definition crossover : SeriesGroup :=
  mkSeriesGroup "x" "X" [JStr "1"; JStr "2"] ∅
    [mkGroupRel (JStr "1") (JStr "2") "CHARACTER" "forward"] ∅.

Definition characters : SoftCluster :=
  mkSoftCluster "character_x_1" "Original (Character)" "x" [JStr "1"; JStr "2"]
    "CHARACTER" [mkGroupRel (JStr "1") (JStr "2") "CHARACTER" "forward"].

End NameExample.

(** * Properties *)

Ltac by_computation :=
  match goal with
  | |- ?P => apply (bool_decide_eq_true_1 P); vm_compute; reflexivity
  end.

Lemma sort_insert_perm {A} (cmp : A → A → option Z) x l :
  sort_insert cmp x l ≡ₚ x :: l.
Proof.
  induction l as [|y l IH]; simpl; [done|].
  destruct (cmp_le cmp x y); [done|].
  rewrite IH. apply Permutation_swap.
Qed.

Lemma sort_stable_perm {A} (cmp : A → A → option Z) l :
  sort_stable cmp l ≡ₚ l.
Proof.
  induction l as [|x l IH]; simpl; [done|].
  rewrite sort_insert_perm. by rewrite IH.
Qed.

Lemma sortVals_perm cmp l : sortVals cmp l ≡ₚ l.
Proof.
  unfold sortVals. rewrite sort_stable_perm.
  induction l as [|x l IH]; simpl; [done|].
  rewrite !filter_cons.
  destruct (decide (x = JUndef)) as [Hy|Hy].
  - rewrite decide_False by (intros Hn; by apply Hn).
    rewrite <- Permutation_middle. by rewrite IH.
  - rewrite decide_True by done. simpl. by rewrite IH.
Qed.

(** ** Properties of the splitting stage *)

Lemma foldl_invariant {A B} (P : A → Prop) (f : A → B → A) (l : list B) (a : A) :
  P a → (∀ a b, P a → P (f a b)) → P (foldl f a l).
Proof.
  intros Ha Hstep. revert a Ha.
  induction l as [|b l IH]; intros a Ha; simpl; [done|].
  apply IH. by apply Hstep.
Qed.

Module GraphFacts.
Import Graph.

Lemma push_unvisited_length visited stack neighbors :
  (length (push_unvisited visited stack neighbors)
   ≤ length stack + length neighbors)%nat.
Proof.
  unfold push_unvisited. revert stack.
  induction neighbors as [|n ns IH]; intros stack; simpl; [lia|].
  destruct (decide (n ∈ visited)).
  - specialize (IH stack). lia.
  - specialize (IH (n :: stack)). simpl in IH. lia.
Qed.

Lemma pending_mono g visited v :
  (pending g (visited ++ [v]) ≤ pending g visited)%nat.
Proof.
  induction g as [|[k ns] g IH]; simpl; [lia|].
  destruct (decide (k ∈ visited ++ [v])) as [Hin|Hin];
    destruct (decide (k ∈ visited)) as [Hin'|Hin']; try lia.
  exfalso. apply Hin. apply elem_of_app. by left.
Qed.

Lemma pending_visit g visited v ns :
  v ∉ visited → al_lookup v g = Some ns →
  (pending g (visited ++ [v]) + length ns ≤ pending g visited)%nat.
Proof.
  intros Hv. induction g as [|[k l] g IH]; simpl; [done|].
  destruct (decide (v = k)) as [->|Hne].
  - intros [= ->].
    rewrite decide_True by (apply elem_of_app; right; by apply list_elem_of_singleton).
    rewrite decide_False by done.
    pose proof (pending_mono g visited k). lia.
  - intros Hl. specialize (IH Hl).
    destruct (decide (k ∈ visited ++ [v])) as [Hin|Hin];
      destruct (decide (k ∈ visited)) as [Hin'|Hin']; try lia.
    exfalso. apply Hin. apply elem_of_app. by left.
Qed.

(** The budget of [dfs] strictly decreases with every turn of the
    loop. *)
Lemma dfs_budget_visit g v rest visited :
  v ∉ visited →
  (dfs_budget g (push_unvisited (visited ++ [v]) rest (default [] (al_lookup v g)))
     (visited ++ [v])
   < dfs_budget g (v :: rest) visited)%nat.
Proof.
  intros Hv. unfold dfs_budget. simpl.
  pose proof (push_unvisited_length (visited ++ [v]) rest
                (default [] (al_lookup v g))) as Hlen.
  destruct (al_lookup v g) as [ns|] eqn:Hl; simpl in *.
  - pose proof (pending_visit g visited v ns Hv Hl). lia.
  - pose proof (pending_mono g visited v). lia.
Qed.

Lemma dfs_loop_step fuel g v rest visited group :
  dfs_loop (S fuel) g (v :: rest) visited group =
  if decide (v ∈ visited) then dfs_loop fuel g rest visited group
  else dfs_loop fuel g
         (push_unvisited (visited ++ [v]) rest (default [] (al_lookup v g)))
         (visited ++ [v]) (group ++ [v]).
Proof. reflexivity. Qed.

(** Any fuel above the budget gives the same result: the loop of [dfs]
    ends on an empty stack, never on an exhausted fuel. *)
Lemma dfs_loop_fuel g fuel1 fuel2 stack visited group :
  (dfs_budget g stack visited < fuel1)%nat →
  (dfs_budget g stack visited < fuel2)%nat →
  dfs_loop fuel1 g stack visited group = dfs_loop fuel2 g stack visited group.
Proof.
  revert fuel2 stack visited group.
  induction fuel1 as [|fuel1 IH]; intros fuel2 stack visited group H1 H2; [lia|].
  destruct fuel2 as [|fuel2]; [lia|].
  destruct stack as [|v rest]; simpl; [done|].
  destruct (decide (v ∈ visited)) as [Hin|Hin].
  - apply IH; unfold dfs_budget in *; simpl in *; lia.
  - pose proof (dfs_budget_visit g v rest visited Hin).
    apply IH; lia.
Qed.


(** [dfs_run] satisfies the equations of the [while] loop. *)
Lemma dfs_run_nil g visited group : dfs_run g [] visited group = (visited, group).
Proof. reflexivity. Qed.

Lemma dfs_run_cons g v rest visited group :
  dfs_run g (v :: rest) visited group =
  if decide (v ∈ visited) then dfs_run g rest visited group
  else dfs_run g (push_unvisited (visited ++ [v]) rest (default [] (al_lookup v g)))
         (visited ++ [v]) (group ++ [v]).
Proof.
  unfold dfs_run. rewrite dfs_loop_step.
  destruct (decide (v ∈ visited)) as [Hin|Hin].
  - apply dfs_loop_fuel; unfold dfs_budget; simpl; lia.
  - pose proof (dfs_budget_visit g v rest visited Hin).
    apply dfs_loop_fuel; lia.
Qed.

Lemma dfs_is_dfs_run g start visited : dfs g start visited = dfs_run g [start] visited [].
Proof. reflexivity. Qed.

End GraphFacts.

Section splitter_facts.
Variable strToNumber : string → option Z.
Variable parseDate : string → option Z.

Local Abbreviation softCl := (softCluster strToNumber parseDate).
Local Abbreviation relationGroups := (processRelationGroups strToNumber parseDate).
Local Abbreviation seriesData := (processSeriesData strToNumber parseDate).
Local Abbreviation mainCl := (mainCluster strToNumber parseDate).

(** What the guard and the filter of [softCluster] give an emitted
    cluster. *)
Lemma softCluster_members resultKey relationType suffix series animeMap
    mainAnimeIds index group c :
  softCl resultKey relationType suffix series animeMap mainAnimeIds index group
    = Some c →
  (2 ≤ length (c_animeIds c))%nat ∧
  c_animeIds c ≡ₚ filter (λ id, id ∉ mainAnimeIds) group.
Proof.
  unfold softCluster.
  destruct (decide (length (filter (λ id, id ∉ mainAnimeIds) group) < 2)%nat)
    as [Hlt|Hge]; [done|].
  intros [= <-]. simpl. split.
  - rewrite sortVals_perm. lia.
  - apply sortVals_perm.
Qed.


Section soft_all_facts.
Variable animeMap : gmap string Anime.
Variable series : SeriesGroup.
Variable main : list MainCluster.
Variable P : SoftCluster → Prop.
Hypothesis softCluster_P : ∀ resultKey relationType suffix index group c,
  softCl resultKey relationType suffix series animeMap (main ≫= m_animeIds) index group
    = Some c →
  P c.

Lemma soft_all_push key c results :
  soft_all P main results → P c → soft_all P main (pushSoft key c results).
Proof.
  intros [Hmain Hsoft] Hc. split; [done|].
  intros key' cs c' Hlook Hin. simpl in Hlook.
  destruct (decide (key = key')) as [<-|Hne].
  - rewrite lookup_insert_eq in Hlook. injection Hlook as <-.
    apply elem_of_app in Hin as [Hin|Hin].
    + destruct (res_soft results !! key) as [cs0|] eqn:Hk; simpl in Hin.
      * by eapply Hsoft.
      * by apply not_elem_of_nil in Hin.
    + by apply list_elem_of_singleton in Hin as ->.
  - rewrite lookup_insert_ne in Hlook by done. by eapply Hsoft.
Qed.

Lemma soft_all_softCluster results resultKey relationType suffix index group key :
  soft_all P main results →
  soft_all P main
    match softCl resultKey relationType suffix series animeMap
            (main ≫= m_animeIds) index group with
    | Some c => pushSoft key c results
    | None => results
    end.
Proof.
  intros Hok.
  destruct (softCl _ _ _ _ _ _ _ _) as [c|] eqn:Hc; [|done].
  apply soft_all_push; [done|]. by eapply softCluster_P.
Qed.

Lemma soft_all_processRelationGroups groups relationType results :
  soft_all P main results →
  soft_all P main (relationGroups groups relationType series results animeMap).
Proof.
  intros Hok. unfold processRelationGroups.
  set (results' := match res_soft results !! toLowerCase relationType with
                   | Some _ => results
                   | None => _
                   end).
  assert (soft_all P main results') as Hok'.
  { subst results'. destruct (res_soft results !! toLowerCase relationType) eqn:Hk;
      [done|].
    destruct Hok as [Hmain Hsoft]. split; [done|].
    intros key cs c Hlook Hin. simpl in Hlook.
    destruct (decide (toLowerCase relationType = key)) as [<-|Hne].
    - rewrite lookup_insert_eq in Hlook. injection Hlook as <-.
      by apply not_elem_of_nil in Hin.
    - rewrite lookup_insert_ne in Hlook by done. by eapply Hsoft. }
  assert (mainAnimeIdsOf results' = main ≫= m_animeIds) as ->.
  { unfold mainAnimeIdsOf. by destruct Hok' as [-> _]. }
  apply foldl_invariant; [done|].
  intros r [index group] Hr. by apply soft_all_softCluster.
Qed.

End soft_all_facts.

(** The main clusters of a group are the images of its connected groups,
    and the clusters of the other keys all come from [softCluster] with
    the members of these main clusters as the ids to filter out. *)
Lemma processSeriesData_clusters series animeMap (P : SoftCluster → Prop) :
  let main := res_main (seriesData series animeMap) in
  main = (λ ig : nat * list JsVal, mainCl series animeMap ig.1 ig.2)
           <$> imap pair
                 (Graph.findConnectedGroups (rm_graph (firstPass (g_relations series)))) ∧
  ((∀ resultKey relationType suffix index group c,
      softCl resultKey relationType suffix series animeMap (main ≫= m_animeIds)
        index group = Some c → P c) →
   soft_all P main (seriesData series animeMap)).
Proof.
  unfold processSeriesData.
  set (groups := Graph.findConnectedGroups _).
  set (results1 := foldl _ emptyResults _).
  assert (res_soft results1 = res_soft emptyResults ∧
          res_main results1
            = (λ ig : nat * list JsVal, mainCl series animeMap ig.1 ig.2)
                <$> imap pair groups) as [Hsoft1 Hmain1].
  { subst results1. generalize (imap pair groups). intros l.
    assert (∀ r0,
      let r := foldl (λ results (ig : nat * list JsVal),
                 mkSplitResults
                   (res_main results ++ [mainCl series animeMap ig.1 ig.2])
                   (res_soft results)) r0 l in
      res_soft r = res_soft r0 ∧
      res_main r = res_main r0
                   ++ ((λ ig : nat * list JsVal, mainCl series animeMap ig.1 ig.2) <$> l))
      as Hgen.
    { induction l as [|x l IH]; intros r0; simpl.
      - by rewrite app_nil_r.
      - destruct (IH (mkSplitResults
                    (res_main r0 ++ [mainCl series animeMap x.1 x.2]) (res_soft r0)))
          as [H1 H2].
        simpl in *. split; [done|]. by rewrite H2, <- app_assoc. }
    destruct (Hgen emptyResults) as [H1 H2]. split; [done|].
    rewrite H2. done. }
  set (results2 := foldl _ results1 _).
  set (results3 := relationGroups _ "ADAPTATION" _ results2 _).
  set (results4 := relationGroups _ "SPIN_OFF" _ results3 _).
  set (results5 := relationGroups _ "OTHER" _ results4 _).
  set (results6 := relationGroups _ "PARENT" _ results5 _).
  assert (∀ Q, (∀ resultKey relationType suffix index group c,
                  softCl resultKey relationType suffix series animeMap
                    (res_main results1 ≫= m_animeIds) index group = Some c → Q c) →
               soft_all Q (res_main results1) results6) as Hall.
  { intros Q HQ.
    assert (soft_all Q (res_main results1) results1) as Hok1.
    { split; [done|]. intros key cs c Hlook Hin.
      rewrite Hsoft1 in Hlook. simpl in Hlook.
      assert (cs = []) as ->.
      { revert Hlook. clear.
        rewrite !lookup_insert. repeat case_decide; rewrite ?lookup_empty; congruence. }
      by apply not_elem_of_nil in Hin. }
    assert (soft_all Q (res_main results1) results2) as Hok2.
    { subst results2.
      apply (foldl_invariant (soft_all Q (res_main results1))); [done|].
      intros r [index group] Hr.
      assert (mainAnimeIdsOf r = res_main results1 ≫= m_animeIds) as ->.
      { unfold mainAnimeIdsOf. by destruct Hr as [-> _]. }
      by apply soft_all_softCluster. }
    subst results6 results5 results4 results3.
    do 4 (apply soft_all_processRelationGroups; [exact HQ|]). done. }
  assert (res_main results6 = res_main results1) as Hmain6.
  { by destruct (Hall (λ _, True)) as [-> _]. }
  simpl. rewrite Hmain6. split; [done|]. apply Hall.
Qed.

(** Every cluster under every key other than [main] has two members or
    more, none of them a member of a main cluster. *)
Lemma processSeriesData_soft_members series animeMap key clusters c :
  res_soft (seriesData series animeMap) !! key = Some clusters →
  c ∈ clusters →
  (2 ≤ length (c_animeIds c))%nat ∧
  ∀ x, x ∈ c_animeIds c → x ∉ res_main (seriesData series animeMap) ≫= m_animeIds.
Proof.
  intros Hk Hc.
  destruct (processSeriesData_clusters series animeMap
              (λ c, (2 ≤ length (c_animeIds c))%nat ∧
                    ∀ x, x ∈ c_animeIds c →
                         x ∉ res_main (seriesData series animeMap) ≫= m_animeIds))
    as [_ Hall].
  destruct Hall as [_ Hsoft]; [|by eapply Hsoft].
  intros resultKey relationType suffix index group c' Hc'.
  apply softCluster_members in Hc' as [Hlen Hperm]. split; [done|].
  intros x Hx. rewrite Hperm in Hx. by apply list_elem_of_filter in Hx as [Hx _].
Qed.

(** C5: within one origin group, no member of a MAIN cluster is a member
    of a CHARACTER, ADAPTATION, SPIN_OFF, OTHER or PARENT cluster,
    whatever key of [results] the cluster was pushed to. *)
Theorem soft_clusters_exclude_main_members series animeMap key clusters c m x :
  res_soft (seriesData series animeMap) !! key = Some clusters →
  c ∈ clusters →
  m ∈ res_main (seriesData series animeMap) →
  x ∈ m_animeIds m →
  x ∉ c_animeIds c.
Proof.
  intros Hk Hc Hm Hx Hxc.
  destruct (processSeriesData_soft_members series animeMap key clusters c Hk Hc)
    as [_ Hout].
  apply (Hout x Hxc). apply list_elem_of_bind. by exists m.
Qed.

End splitter_facts.

(** ** Properties of the grouping stage *)

Lemma size_list_to_set_le (l : list JsVal) :
  (size (list_to_set l : gset JsVal) ≤ length l)%nat.
Proof.
  induction l as [|x l IH].
  - rewrite list_to_set_nil, size_empty. done.
  - rewrite list_to_set_cons, size_union_alt, size_singleton.
    assert (size (list_to_set l ∖ {[x]} : gset JsVal) ≤ size (list_to_set l : gset JsVal))%nat.
    { apply subseteq_size. intros y Hy. apply elem_of_difference in Hy. tauto. }
    simpl. lia.
Qed.

Section traversal_facts.
Variable recs : list Anime.
Variable animeMap : gmap string nat.

Local Abbreviation lookupA := (lookupAnime recs animeMap).
Local Abbreviation findAll := (findAllRelatedIds recs animeMap).
Local Abbreviation edge := (edge recs animeMap).
Local Abbreviation reach := (reach recs animeMap).
Local Abbreviation extends := (extends recs animeMap).


Lemma reach_trans x y z : reach x y → reach y z → reach x z.
Proof. induction 1; [done|]. intros. eapply reach_step; eauto. Qed.

Lemma edge_target x y : edge x y → y ∈ allTargets recs.
Proof.
  intros (i & anime & relation & Hl & Hrel & _ & <-).
  unfold allTargets. apply list_elem_of_bind. exists anime. split.
  - by apply list_elem_of_fmap_2.
  - unfold lookupAnime in Hl.
    destruct (animeMap !! jsStr x) as [j|]; simpl in Hl; [|done].
    destruct (recs !! j) as [anime'|] eqn:Hj; simpl in Hl; [|done].
    injection Hl as <- <-. apply list_elem_of_lookup. by exists j.
Qed.


Lemma unprocessed_mono U p q :
  (∀ x, x ∈ p → x ∈ q) → (unprocessed U q ≤ unprocessed U p)%nat.
Proof.
  intros Hpq. apply subseteq_size. intros x.
  rewrite !elem_of_difference, !elem_of_list_to_set.
  intros [Hx Hq]. split; [done|]. intros Hp. by apply Hq, Hpq.
Qed.

Lemma unprocessed_add U p a :
  a ∈ U → a ∉ p → (unprocessed U (p ++ [a]) < unprocessed U p)%nat.
Proof.
  intros HU Hp. apply subset_size. split.
  - intros x. rewrite !elem_of_difference, !elem_of_list_to_set, elem_of_app.
    intros [Hx Hn]. split; [done|]. intros Hxp. apply Hn. by left.
  - intros Hsub. specialize (Hsub a).
    rewrite !elem_of_difference, !elem_of_list_to_set, elem_of_app in Hsub.
    destruct Hsub as [_ Hn]; [done|]. apply Hn. right. by apply list_elem_of_singleton.
Qed.


Lemma extends_refl from p : extends from p p.
Proof.
  split; [by exists []; rewrite app_nil_r|]. split; [done|]. intros x Hx Hn. done.
Qed.

Lemma extends_sub from p r x : extends from p r → x ∈ p → x ∈ r.
Proof. intros [[suffix ->] _] Hx. apply elem_of_app. by left. Qed.

Lemma extends_trans (from1 from2 from : JsVal → Prop) p q r :
  (∀ a, from1 a → from a) → (∀ a, from2 a → from a) →
  extends from1 p q → extends from2 q r → extends from p r.
Proof.
  intros H1 H2 Hext1 Hext2.
  pose proof (λ x, extends_sub from2 q r x Hext2) as Hqr.
  destruct Hext1 as ([s1 ->] & Hnd1 & Hq). destruct Hext2 as ([s2 ->] & Hnd2 & Hr).
  split; [by exists (s1 ++ s2); rewrite app_assoc|]. split; [by auto|].
  intros x Hx Hnp.
  destruct (decide (x ∈ p ++ s1)) as [Hxq|Hxq].
  - destruct (Hq x Hxq Hnp) as [(a & Ha & Hreach) Hsucc].
    split; [by eauto|]. intros y Hy. by auto.
  - destruct (Hr x Hx Hxq) as [(a & Ha & Hreach) Hsucc].
    split; by eauto.
Qed.

(** The traversal from [a] with enough fuel: [a] is processed, and what
    it adds is reachable from [a] and closed under the relations. *)
Lemma findAll_extends (U : gset JsVal) fuel a st :
  (∀ t, t ∈ allTargets recs → t ∈ U) →
  a ∈ U →
  (unprocessed U (t_processed st) < fuel)%nat →
  a ∈ t_processed (findAll fuel a st) ∧
  extends (λ b, b = a) (t_processed st) (t_processed (findAll fuel a st)) ∧
  (a ∉ t_processed st →
   ∃ suffix, t_processed (findAll fuel a st) = t_processed st ++ a :: suffix).
Proof.
  intros HU. revert a st.
  induction fuel as [|fuel IH]; intros a st Ha Hfuel; [lia|].
  simpl. destruct (decide (a ∈ t_processed st)) as [Hin|Hin].
  { split; [done|]. split; [apply extends_refl|done]. }
  set (st1 := mkTrav (t_processed st ++ [a]) (t_chains st) (t_log st)).
  assert (a ∈ t_processed st1) as Ha1.
  { simpl. apply elem_of_app. right. by apply list_elem_of_singleton. }
  assert (unprocessed U (t_processed st1) < fuel)%nat as Hfuel1.
  { pose proof (unprocessed_add U (t_processed st) a Ha Hin). simpl. lia. }
  (* the loop over the relations of the record *)
  assert (∀ rels st2,
    (∀ rel, rel ∈ rels → truthy (relTarget rel) = true → edge a (relTarget rel)) →
    (∀ x, x ∈ t_processed st1 → x ∈ t_processed st2) →
    let r := t_processed (foldl (visitRelation (findAll fuel) a) st2 rels) in
    (∀ rel, rel ∈ rels → truthy (relTarget rel) = true → relTarget rel ∈ r) ∧
    extends (λ b, edge a b) (t_processed st2) r) as Hloop.
  { induction rels as [|rel rels IHrels]; intros st2 Hedges Hsub; simpl.
    { split; [by intros rel Hrel; apply not_elem_of_nil in Hrel|].
      apply extends_refl. }
    set (st3 := visitRelation (findAll fuel) a st2 rel).
    assert ((truthy (relTarget rel) = true → relTarget rel ∈ t_processed st3) ∧
            extends (λ b, edge a b) (t_processed st2) (t_processed st3)) as [Htgt Hext].
    { subst st3. unfold visitRelation.
      destruct (truthy (relTarget rel)) eqn:Htruthy; [|split; [done|apply extends_refl]].
      simpl.
      destruct (decide (relTarget rel ∈ t_processed st2)) as [Hp|Hp];
        [split; [done|apply extends_refl]|].
      assert (edge a (relTarget rel)) as Hedge.
      { apply Hedges; [apply list_elem_of_here|done]. }
      match goal with |- context [findAll fuel ?t ?s] =>
        destruct (IH t s) as (Hin' & Hext' & _) end.
      - apply HU. by eapply edge_target.
      - simpl. pose proof (unprocessed_mono U _ _ Hsub). lia.
      - split; [done|]. simpl in Hext'.
        eapply (extends_trans (λ b, b = relTarget rel) (λ b, False));
          [| |exact Hext'|apply extends_refl]; [|done].
        by intros b ->. }
    destruct (IHrels st3) as [Htgts Hext2].
    { intros rel' Hrel'. apply Hedges. by apply list_elem_of_further. }
    { intros x Hx. eapply extends_sub; [exact Hext|]. by auto. }
    split.
    - intros rel' Hrel' Htruthy.
      apply elem_of_cons in Hrel' as [->|Hrel']; [|by auto].
      eapply extends_sub; [exact Hext2|]. by auto.
    - eapply extends_trans; [| |exact Hext|exact Hext2]; done. }
  destruct (lookupA a) as [[i anime]|] eqn:Hlook.
  - destruct (Hloop (relationsOf anime) st1) as [Htgts Hext]; [|done|].
    { intros rel Hrel Htruthy. exists i, anime, rel. done. }
    pose proof (λ x, extends_sub _ _ _ x Hext) as Hsub.
    destruct Hext as ([suffix Hsuffix] & Hnd & Hnew).
    split; [by auto|].
    split; [|intros _; exists suffix; rewrite Hsuffix; simpl; by rewrite <- app_assoc].
    split; [|split].
    + exists (a :: suffix). rewrite Hsuffix. simpl. by rewrite <- app_assoc.
    + intros Hp. apply Hnd. simpl. apply NoDup_app. split; [done|]. split.
      * intros x Hx Hx'. apply list_elem_of_singleton in Hx' as ->. done.
      * apply NoDup_singleton.
    + intros x Hx Hnp.
      destruct (decide (x = a)) as [->|Hne].
      * split; [exists a; split; [done|apply reach_refl]|].
        intros y (i' & anime' & rel & Hl' & Hrel & Htruthy & <-).
        rewrite Hlook in Hl'. injection Hl' as <- <-. by apply Htgts.
      * destruct (Hnew x Hx) as [(b & Hb & Hreach) Hsucc].
        { simpl. intros Hx'. apply elem_of_app in Hx' as [Hx'|Hx']; [done|].
          by apply list_elem_of_singleton in Hx'. }
        split; [|done]. exists a. split; [done|]. by eapply reach_step.
  - split; [done|]. split; [|intros _; by exists []].
    split; [|split].
    + by exists [a].
    + intros Hp. simpl. apply NoDup_app. split; [done|]. split.
      * intros x Hx Hx'. apply list_elem_of_singleton in Hx' as ->. done.
      * apply NoDup_singleton.
    + intros x Hx Hnp. simpl in Hx.
      apply elem_of_app in Hx as [Hx|Hx]; [done|].
      apply list_elem_of_singleton in Hx as ->.
      split; [exists a; split; [done|apply reach_refl]|].
      intros y (i' & anime' & rel & Hl' & _). by rewrite Hlook in Hl'.
Qed.

(** The fuel of [relatedIdsOf] exceeds the number of ids a traversal
    can process. *)
Lemma traversalFuel_enough a p :
  (unprocessed ({[a]} ∪ list_to_set (allTargets recs)) p < traversalFuel recs)%nat.
Proof.
  unfold unprocessed, traversalFuel.
  set (U := ({[a]} ∪ list_to_set (allTargets recs) : gset JsVal)).
  assert (size (U ∖ list_to_set p) ≤ size U)%nat as Hle.
  { apply subseteq_size. intros y Hy. apply elem_of_difference in Hy. tauto. }
  assert (size U ≤ S (length (allTargets recs)))%nat.
  { subst U. rewrite size_union_alt, size_singleton.
    pose proof (size_list_to_set_le (allTargets recs)).
    assert (size (list_to_set (allTargets recs) ∖ {[a]} : gset JsVal)
            ≤ size (list_to_set (allTargets recs) : gset JsVal))%nat.
    { apply subseteq_size. intros y Hy. apply elem_of_difference in Hy. tauto. }
    lia. }
  lia.
Qed.

Lemma reach_closed (r : list JsVal) a x :
  (∀ y z, y ∈ r → edge y z → z ∈ r) → a ∈ r → reach a x → x ∈ r.
Proof.
  intros Hclosed Ha Hreach. induction Hreach as [|y z w Hedge _ IH]; [done|].
  apply IH. by eapply Hclosed.
Qed.

(** The closure [findAllRelatedIds] computes from a fresh [Set]: a
    duplicate-free list of exactly the ids reachable from [a] along the
    relations, each followed from its record to its target. *)
Lemma relatedIdsOf_reach a :
  NoDup (t_processed (relatedIdsOf recs animeMap a)) ∧
  ∀ x, x ∈ t_processed (relatedIdsOf recs animeMap a) ↔ reach a x.
Proof.
  unfold relatedIdsOf.
  set (U := ({[a]} ∪ list_to_set (allTargets recs) : gset JsVal)).
  destruct (findAll_extends U (traversalFuel recs) a (mkTrav [] ∅ []))
    as (Ha & (_ & Hnd & Hnew) & _).
  - intros t Ht. apply elem_of_union. right. by apply elem_of_list_to_set.
  - apply elem_of_union. left. by apply elem_of_singleton.
  - apply traversalFuel_enough.
  - split; [apply Hnd, NoDup_nil_2|].
    intros x. split.
    + intros Hx. destruct (Hnew x Hx) as [(b & -> & Hreach) _]; [|done].
      apply not_elem_of_nil.
    + apply reach_closed; [|done].
      intros y z Hy Hedge. destruct (Hnew y Hy) as [_ Hsucc]; [apply not_elem_of_nil|].
      by apply Hsucc.
Qed.

(** The start of the traversal is the first member of its closure. *)
Lemma relatedIdsOf_head a :
  ∃ suffix, t_processed (relatedIdsOf recs animeMap a) = a :: suffix.
Proof.
  unfold relatedIdsOf.
  set (U := ({[a]} ∪ list_to_set (allTargets recs) : gset JsVal)).
  destruct (findAll_extends U (traversalFuel recs) a (mkTrav [] ∅ []))
    as (_ & _ & Hhead).
  - intros t Ht. apply elem_of_union. right. by apply elem_of_list_to_set.
  - apply elem_of_union. left. by apply elem_of_singleton.
  - apply traversalFuel_enough.
  - apply Hhead. apply not_elem_of_nil.
Qed.


End traversal_facts.

Section grouper_facts.
Variable JSON_parse : string → option RelValue.

(** *** The first pass *)

Lemma normalizeRel_obj (rel : RelElem) : ∃ o, normalizeRel rel = EObj o.
Proof.
  destruct rel as [v|o]; simpl; [by eexists|].
  destruct (truthy (rel_node_id o)); [by eexists|].
  destruct (truthy (rel_id o) && negb (truthy (rel_targetAnimeId o))); by eexists.
Qed.

Lemma normalizePass_fold (suf : list Anime) : ∀ (k : nat) (pre : list Anime) (st : NState),
  length pre = k →
  ns_animeData st = pre ++ suf →
  ns_animeData (foldl (normalizeStep JSON_parse) st (imap (λ i x, ((k + i)%nat, x)) suf))
    = pre ++ ((λ a, (normalizeAnime JSON_parse a).1) <$> suf) ∧
  (∀ key j,
     ns_animeMap (foldl (normalizeStep JSON_parse) st (imap (λ i x, ((k + i)%nat, x)) suf))
       !! key = Some j →
     ns_animeMap st !! key = Some j ∨
     ∃ a, (pre ++ suf) !! j = Some a ∧ jsStr (a_id a) = key) ∧
  (∀ key, is_Some (ns_animeMap st !! key) →
     is_Some (ns_animeMap
                (foldl (normalizeStep JSON_parse) st (imap (λ i x, ((k + i)%nat, x)) suf))
              !! key)) ∧
  (∀ a, a ∈ suf →
     is_Some (ns_animeMap
                (foldl (normalizeStep JSON_parse) st (imap (λ i x, ((k + i)%nat, x)) suf))
              !! jsStr (a_id a))).
Proof.
  induction suf as [|x suf IH]; intros k pre st Hlen Hdata.
  { simpl. rewrite app_nil_r in Hdata. rewrite app_nil_r. split; [done|]. split; [by intros; left|]. split; [done|].
    intros a Ha. by apply not_elem_of_nil in Ha. }
  rewrite imap_cons. simpl foldl.
  set (st1 := normalizeStep JSON_parse st ((k + 0)%nat, x)).
  assert (imap ((λ i x0, ((k + i)%nat, x0)) ∘ S) suf
          = imap (λ i x0, ((S k + i)%nat, x0)) suf) as Heq.
  { apply imap_ext. intros i y _. simpl. f_equal. lia. }
  rewrite Heq.
  destruct (IH (S k) (pre ++ [(normalizeAnime JSON_parse x).1]) st1)
    as (Hd & Hm & Hkeep & Hbound).
  { rewrite length_app. simpl. lia. }
  { subst st1. unfold normalizeStep. simpl. rewrite Hdata.
    replace (k + 0)%nat with (length pre + 0)%nat by lia.
    rewrite insert_app_r. simpl. by rewrite <- app_assoc. }
  assert (∀ key, ns_animeMap st1 !! key =
                 if decide (jsStr (a_id x) = key) then Some k else ns_animeMap st !! key)
    as Hst1.
  { intros key. subst st1. unfold normalizeStep. simpl.
    replace (k + 0)%nat with k by lia.
    destruct (decide (jsStr (a_id x) = key)) as [->|Hne].
    - by rewrite lookup_insert_eq.
    - by rewrite lookup_insert_ne. }
  split; [|split; [|split]].
  - rewrite Hd. rewrite <- app_assoc. done.
  - intros key j Hj. destruct (Hm key j Hj) as [Hold|(a & Ha & Hkey)].
    + rewrite Hst1 in Hold. destruct (decide (jsStr (a_id x) = key)) as [Hk|Hk].
      * injection Hold as <-. right. exists x. split; [|done].
        rewrite lookup_app_r by lia. replace (k - length pre)%nat with 0%nat by lia. done.
      * by left.
    + right. rewrite <- app_assoc in Ha. simpl in Ha.
      destruct (decide (j = k)) as [->|Hjk].
      * rewrite lookup_app_r in Ha by lia.
        replace (k - length pre)%nat with 0%nat in Ha by lia. simpl in Ha.
        injection Ha as <-. exists x. split; [|done].
        rewrite lookup_app_r by lia. replace (k - length pre)%nat with 0%nat by lia. done.
      * exists a. split; [|done].
        destruct (decide (j < k)%nat).
        -- rewrite lookup_app_l in Ha by lia. rewrite lookup_app_l by lia. done.
        -- rewrite lookup_app_r in Ha by lia. rewrite lookup_app_r by lia.
           destruct (j - length pre)%nat as [|m] eqn:Hjm; [lia|]. done.
  - intros key Hsome. apply Hkeep. rewrite Hst1. case_decide; [by eexists|done].
  - intros a Ha. apply elem_of_cons in Ha as [->|Ha]; [|by apply Hbound].
    apply Hkeep. rewrite Hst1. rewrite decide_True by done. by eexists.
Qed.

Lemma normalizePass_spec (animeData : list Anime) :
  ns_animeData (normalizePass JSON_parse animeData)
    = (λ a, (normalizeAnime JSON_parse a).1) <$> animeData ∧
  (∀ key j, ns_animeMap (normalizePass JSON_parse animeData) !! key = Some j →
     ∃ a, animeData !! j = Some a ∧ jsStr (a_id a) = key) ∧
  (∀ a, a ∈ animeData →
     is_Some (ns_animeMap (normalizePass JSON_parse animeData) !! jsStr (a_id a))).
Proof.
  unfold normalizePass.
  assert (imap pair animeData = imap (λ i x, ((0 + i)%nat, x)) animeData) as ->.
  { by apply imap_ext. }
  destruct (normalizePass_fold animeData 0 [] (mkNState animeData ∅ []))
    as (Hd & Hm & _ & Hbound); [done..|].
  split; [done|]. split; [|done].
  intros key j Hj. destruct (Hm key j Hj) as [Hold|Hnew]; [|done].
  simpl in Hold. by rewrite lookup_empty in Hold.
Qed.

(** The lookup of a record of the first pass by the id of a raw
    record. *)
Lemma lookupAnime_normalized (animeData : list Anime) (v : JsVal) i anime :
  lookupAnime (ns_animeData (normalizePass JSON_parse animeData))
    (ns_animeMap (normalizePass JSON_parse animeData)) v = Some (i, anime) →
  ∃ raw, animeData !! i = Some raw ∧ anime = (normalizeAnime JSON_parse raw).1 ∧
         jsStr (a_id raw) = jsStr v.
Proof.
  destruct (normalizePass_spec animeData) as (Hd & Hm & _).
  unfold lookupAnime. rewrite Hd.
  destruct (ns_animeMap _ !! jsStr v) as [j|] eqn:Hj; simpl; [|done].
  rewrite list_lookup_fmap.
  destruct (animeData !! j) as [raw|] eqn:Hraw; simpl; [|done].
  intros [= <- <-]. exists raw. split; [done|]. split; [done|].
  destruct (Hm _ _ Hj) as (a & Ha & Hkey). congruence.
Qed.

Lemma lookupAnime_bound (animeData : list Anime) (raw : Anime) :
  raw ∈ animeData →
  ∃ i anime,
    lookupAnime (ns_animeData (normalizePass JSON_parse animeData))
      (ns_animeMap (normalizePass JSON_parse animeData)) (a_id raw) = Some (i, anime).
Proof.
  intros Hraw.
  destruct (normalizePass_spec animeData) as (Hd & Hm & Hbound).
  destruct (Hbound raw Hraw) as [j Hj].
  destruct (Hm _ _ Hj) as (a & Ha & _).
  unfold lookupAnime. rewrite Hj, Hd. simpl. rewrite list_lookup_fmap, Ha. simpl.
  by eexists _, _.
Qed.

End grouper_facts.

Section step_facts.
Variable env : nat → Z * Z.
Variable recs : list Anime.
Variable animeMap : gmap string nat.

Local Abbreviation step := (groupStep env recs animeMap).
Local Abbreviation closure := (λ a, t_processed (relatedIdsOf recs animeMap a)).
Local Abbreviation StepCase := (StepCase env recs animeMap).
Local Abbreviation GroupInv := (GroupInv recs animeMap).

Lemma elem_of_set_add (x y : JsVal) (l : list JsVal) :
  x ∈ set_add y l ↔ x ∈ l ∨ x = y.
Proof.
  unfold set_add. destruct (decide (y ∈ l)) as [Hy|Hy].
  - split; [by left|]. intros [Hx| ->]; done.
  - rewrite elem_of_app, list_elem_of_singleton. done.
Qed.

Lemma elem_of_markProcessed (x : JsVal) (ids p : list JsVal) :
  x ∈ markProcessed ids p ↔ x ∈ p ∨ x ∈ ids.
Proof.
  unfold markProcessed. revert p.
  induction ids as [|i ids IH]; intros p; simpl.
  - rewrite elem_of_nil. tauto.
  - rewrite IH, elem_of_set_add, elem_of_cons. tauto.
Qed.

(** The group that [animeDetails.forEach] builds keeps the id, the name
    and the members it started with. *)
Lemma addGroupRelation_fold_header anime rels g :
  let g' := foldl (addGroupRelation anime) g rels in
  g_seriesId g' = g_seriesId g ∧ g_seriesName g' = g_seriesName g ∧
  g_animeIds g' = g_animeIds g.
Proof.
  revert g. induction rels as [|rel rels IH]; intros g; simpl; [done|].
  destruct (IH (addGroupRelation anime g rel)) as (H1 & H2 & H3).
  rewrite H1, H2, H3. done.
Qed.

Lemma addDetail_fold seriesId details acc :
  let r := foldl (addDetail seriesId) acc details in
  g_seriesId r.1.1 = g_seriesId acc.1.1 ∧
  g_seriesName r.1.1 = g_seriesName acc.1.1 ∧
  g_animeIds r.1.1 = g_animeIds acc.1.1 ∧
  (∀ x sid, r.1.2 !! x = Some sid →
     (sid = seriesId ∧ ∃ ia, ia ∈ details ∧ a_id ia.2 = x) ∨ acc.1.2 !! x = Some sid) ∧
  (∀ ia, ia ∈ details → r.1.2 !! a_id ia.2 = Some seriesId) ∧
  (∀ x, is_Some (acc.1.2 !! x) → is_Some (r.1.2 !! x)).
Proof.
  revert acc. induction details as [|ia details IH]; intros acc; simpl.
  { repeat split; try done.
    - intros x sid Hx. by right.
    - intros ia Hia. by apply not_elem_of_nil in Hia. }
  destruct (IH (addDetail seriesId acc ia)) as (H1 & H2 & H3 & H4 & H5 & H6).
  destruct (addGroupRelation_fold_header ia.2 (relationsOf ia.2)
              (mkSeriesGroup (g_seriesId acc.1.1) (g_seriesName acc.1.1)
                 (g_animeIds acc.1.1)
                 (<[jsStr (a_id ia.2) :=
                      (a_id ia.2,
                       strOrD (strOr (a_title_romaji ia.2) (a_title ia.2)) "Unknown Title")]>
                    (g_animeDetails acc.1.1))
                 (g_relations acc.1.1) (g_relationTypes acc.1.1)))
    as (G1 & G2 & G3).
  simpl in *. rewrite H1, H2, H3.
  split; [by rewrite G1|]. split; [by rewrite G2|]. split; [by rewrite G3|].
  split; [|split].
  - intros x sid Hx. destruct (H4 x sid Hx) as [(-> & ia' & Hia' & Hid)|Hold].
    + left. split; [done|]. exists ia'. split; [by apply list_elem_of_further|done].
    + destruct (decide (a_id ia.2 = x)) as [Heq|Hne].
      * rewrite <- Heq, lookup_insert_eq in Hold. injection Hold as <-.
        left. split; [done|]. exists ia. split; [apply list_elem_of_here|done].
      * rewrite lookup_insert_ne in Hold by done. by right.
  - intros ia' Hia'. apply elem_of_cons in Hia' as [->|Hia']; [|by apply H5].
    destruct (H6 (a_id ia.2)) as [sid Hsid]; [by rewrite lookup_insert_eq|].
    destruct (H4 _ _ Hsid) as [(Heq & _)|Hold]; [by rewrite Hsid, Heq|].
    rewrite lookup_insert_eq in Hold. by rewrite Hsid, Hold.
  - intros x Hx. apply H6. destruct (decide (a_id ia.2 = x)) as [<-|Hne].
    + by rewrite lookup_insert_eq.
    + by rewrite lookup_insert_ne.
Qed.


Lemma groupStep_case s anime : StepCase s anime (step s anime).
Proof.
  unfold groupStep.
  destruct (decide (a_id anime ∈ gs_processedIds s)); [by constructor|].
  destruct (decide (relationsOf anime = [])); [by constructor|].
  simpl.
  destruct (decide (length (closure (a_id anime)) = 1%nat)); [by constructor|].
  destruct (decide (filter _ (closure (a_id anime)) = [])); by constructor.
Qed.

(** A processed id stays processed. *)
Lemma groupStep_processed_mono s anime x :
  x ∈ gs_processedIds s → x ∈ gs_processedIds (step s anime).
Proof.
  intros Hx. destruct (groupStep_case s anime); simpl;
    rewrite ?elem_of_set_add, ?elem_of_markProcessed; auto.
Qed.

Lemma run_processed_mono (later : list Anime) s x :
  x ∈ gs_processedIds s → x ∈ gs_processedIds (foldl step s later).
Proof.
  revert s. induction later as [|anime later IH]; intros s Hx; simpl; [done|].
  apply IH. by apply groupStep_processed_mono.
Qed.

(** No step writes to [edgeCases.circularRelations]. *)
Lemma groupStep_circularRelations s anime :
  circularRelations (gs_edgeCases (step s anime)) = circularRelations (gs_edgeCases s).
Proof. by destruct (groupStep_case s anime). Qed.

(** The veto, where the conflict check finds a conflict.  When the
    closure of an unprocessed record with relations has two members or
    more and one of them, [B], has an entry [g] in [animeToSeries], the
    step creates no group.  It appends one
    multi-membership entry for each conflicting member, in the order of
    the closure and without repetition, each naming the group of the
    member and the placeholder; the entry of [B] is among them; every
    member of the closure is processed afterwards, so that whatever
    records follow, a record with the id of a member is skipped. *)
Theorem conflict_veto s anime B g :
  a_id anime ∉ gs_processedIds s →
  relationsOf anime ≠ [] →
  length (closure (a_id anime)) ≠ 1%nat →
  B ∈ closure (a_id anime) →
  gs_animeToSeries s !! B = Some g →
  let conflicting :=
    filter (λ i, is_Some (gs_animeToSeries s !! i)) (closure (a_id anime)) in
  let s' := step s anime in
  gs_series s' = gs_series s ∧
  animeInMultipleSeries (gs_edgeCases s')
    = animeInMultipleSeries (gs_edgeCases s)
      ++ (conflictEntry recs animeMap (gs_animeToSeries s) <$> conflicting) ∧
  NoDup conflicting ∧
  (∀ x sid, x ∈ closure (a_id anime) → gs_animeToSeries s !! x = Some sid →
     x ∈ conflicting ∧
     me_animeId (conflictEntry recs animeMap (gs_animeToSeries s) x) = x ∧
     me_foundInSeries (conflictEntry recs animeMap (gs_animeToSeries s) x)
       = [(sid, sid); ("proposed_new_series", "Proposed New Series")]) ∧
  conflictEntry recs animeMap (gs_animeToSeries s) B
    ∈ animeInMultipleSeries (gs_edgeCases s') ∧
  (∀ x, x ∈ closure (a_id anime) → x ∈ gs_processedIds s') ∧
  (∀ later r, a_id r ∈ closure (a_id anime) →
     step (foldl step s' later) r = foldl step s' later).
Proof.
  intros Hnew Hrels Hlen HB Hg conflicting s'.
  assert (B ∈ conflicting) as HBc.
  { apply list_elem_of_filter. split; [by eexists|done]. }
  assert (conflicting ≠ []) as Hne.
  { intros Hnil. rewrite Hnil in HBc. by apply not_elem_of_nil in HBc. }
  assert (s' = rejectClosure recs animeMap (closure (a_id anime)) conflicting
                 (appendLog (t_log (relatedIdsOf recs animeMap (a_id anime))) s)) as Hs'.
  { subst s'. destruct (groupStep_case s anime); done. }
  assert (∀ x, x ∈ closure (a_id anime) → x ∈ gs_processedIds s') as Hproc.
  { intros x Hx. rewrite Hs'. simpl. apply elem_of_markProcessed. by right. }
  split; [by rewrite Hs'|]. split; [by rewrite Hs'|].
  split; [apply NoDup_filter, relatedIdsOf_reach|].
  split; [|split; [|split; [done|]]].
  - intros x sid Hx Hsid. split; [|split; [done|]].
    + apply list_elem_of_filter. split; [by eexists|done].
    + unfold conflictEntry. simpl. by rewrite Hsid.
  - rewrite Hs'. simpl. apply elem_of_app. right. by apply list_elem_of_fmap_2.
  - intros later r Hr.
    assert (a_id r ∈ gs_processedIds (foldl step s' later)) as Hin.
    { apply run_processed_mono. by apply Hproc. }
    unfold groupStep. by rewrite decide_True.
Qed.


Lemma GroupInv_initial log : GroupInv (initialState log).
Proof.
  split; simpl.
  - intros g Hg. by apply not_elem_of_nil in Hg.
  - intros k g Hk. by rewrite lookup_nil in Hk.
  - intros x sid Hx. by rewrite lookup_empty in Hx.
  - intros g y i anime Hg. by apply not_elem_of_nil in Hg.
Qed.

Lemma GroupInv_finalize relatedIds a s :
  relatedIds = closure a → length relatedIds ≠ 1%nat →
  GroupInv s → GroupInv (finalizeGroup env recs animeMap relatedIds s).
Proof.
  intros Hclosure Hlen [Hmem Hname Hassigned Hcomplete].
  unfold finalizeGroup.
  set (animeDetails := omap (lookupAnime recs animeMap) relatedIds).
  set (seriesId := generateSeriesId env animeDetails (gs_seriesIds s) (length (gs_series s))).
  set (seriesName := strOrD _ _).
  destruct (addDetail_fold seriesId animeDetails
              (mkSeriesGroup seriesId seriesName relatedIds ∅ [] ∅,
               gs_animeToSeries s, gs_seriesIdOf s))
    as (H1 & H2 & H3 & H4 & H5 & H6).
  simpl in H1, H2, H3, H4, H5, H6.
  split; simpl.
  - intros g Hg. apply elem_of_app in Hg as [Hg|Hg]; [by apply Hmem|].
    apply list_elem_of_singleton in Hg as ->. exists a. rewrite H3. done.
  - intros k g Hk. apply lookup_app_Some in Hk as [Hk|[Hge Hk]]; [by apply Hname|].
    apply list_lookup_singleton_Some in Hk as [Hk <-].
    rewrite H2, H3. subst seriesName. do 3 f_equal. lia.
  - intros x sid Hx.
    destruct (H4 x sid Hx) as [(-> & ia & Hia & Hid)|Hold].
    + apply list_elem_of_omap in Hia as (y & Hy & Hlook).
      destruct ia as [i anime].
      eexists _, y, i, anime. split; [apply elem_of_app; right; by apply list_elem_of_singleton|].
      rewrite H1, H3. done.
    + destruct (Hassigned x sid Hold) as (g & y & i & anime & Hg & Hrest).
      exists g, y, i, anime. split; [apply elem_of_app; by left|done].
  - intros g y i anime Hg Hy Hlook.
    apply elem_of_app in Hg as [Hg|Hg].
    + apply H6. by eapply Hcomplete.
    + apply list_elem_of_singleton in Hg as ->. rewrite H3 in Hy. simpl in Hy.
      assert ((i, anime) ∈ animeDetails) as Hin
        by (apply list_elem_of_omap; by exists y).
      apply H5 in Hin. simpl in Hin. by eexists.
Qed.

Lemma GroupInv_step s anime : GroupInv s → GroupInv (step s anime).
Proof.
  intros Hinv. destruct (groupStep_case s anime) as [| | |Hnew Hrels Hlen Hconf|].
  - done.
  - by destruct Hinv.
  - by destruct Hinv.
  - eapply GroupInv_finalize; [done|done|by destruct Hinv].
  - by destruct Hinv.
Qed.

Lemma GroupInv_run (animes : list Anime) s :
  GroupInv s → GroupInv (foldl step s animes).
Proof. intros Hs. apply foldl_invariant; [done|]. intros. by apply GroupInv_step. Qed.

End step_facts.


Section naming_facts.
Variable strToNumber : string → option Z.
Variable parseDate : string → option Z.
Variable animeMap : gmap string Anime.

Lemma sort_stable_ext {A} (cmp1 cmp2 : A → A → option Z) l :
  (∀ a b, cmp1 a b = cmp2 a b) → sort_stable cmp1 l = sort_stable cmp2 l.
Proof.
  intros Hext. induction l as [|x l IH]; simpl; [done|].
  rewrite IH. generalize (sort_stable cmp2 l). intros l'.
  induction l' as [|y l' IH']; simpl; [done|].
  unfold cmp_le. rewrite Hext, IH'. done.
Qed.

Lemma oldestCmp_resolverCmp a b :
  oldestCmp strToNumber parseDate animeMap a b
  = resolverCmp strToNumber parseDate animeMap a b.
Proof.
  unfold oldestCmp, resolverCmp, releaseDate, dateCmp.
  destruct (animeMap !! jsStr a) as [animeA|]; simpl; [|done].
  destruct (animeMap !! jsStr b) as [animeB|]; simpl.
  - destruct (strTruthy (a_start_date animeA)); simpl; [|done].
    destruct (strTruthy (a_start_date animeB)); simpl.
    + destruct (a_start_date animeA ≫= parseDate); [|done].
      by destruct (a_start_date animeB ≫= parseDate).
    + by destruct (a_start_date animeA ≫= parseDate).
  - destruct (strTruthy (a_start_date animeA)); [|done].
    by destruct (a_start_date animeA ≫= parseDate).
Qed.

(** [getSeriesNameFromOldestAnime] computes the naming rule of the
    specification on every non-empty member list. *)
Lemma getSeriesName_namingResolver (animeIds : list JsVal) :
  animeIds ≠ [] →
  namingResolver strToNumber parseDate animeMap animeIds
  = Some (getSeriesNameFromOldestAnime strToNumber parseDate animeIds animeMap).
Proof.
  intros Hne. unfold getSeriesNameFromOldestAnime, namingResolver.
  destruct animeIds as [|v rest] eqn:Hids; [done|]. rewrite <- Hids.
  assert (sortVals (oldestCmp strToNumber parseDate animeMap) animeIds
          = sortVals (resolverCmp strToNumber parseDate animeMap) animeIds) as ->.
  { unfold sortVals. f_equal. apply sort_stable_ext, oldestCmp_resolverCmp. }
  destruct (sortVals _ animeIds) as [|oldestId sorted] eqn:Hsort.
  { exfalso. pose proof (sortVals_perm (resolverCmp strToNumber parseDate animeMap) animeIds)
      as Hperm.
    rewrite Hsort in Hperm. apply Permutation_nil in Hperm. congruence. }
  simpl. f_equal. unfold resolverName, strOrD, strOr.
  destruct (animeMap !! jsStr oldestId) as [anime|]; [|done].
  unfold strTruthy.
  destruct (a_title_romaji anime) as [r|], (a_title anime) as [t|]; simpl; try done.
  - destruct (String.eqb r "") eqn:Hr; simpl; [|by rewrite Hr].
    by destruct (String.eqb t "").
  - destruct (String.eqb r "") eqn:Hr; simpl; [done|by rewrite Hr].
Qed.

End naming_facts.

Module GroupsNonEmpty.
Import Graph.

Lemma dfs_loop_group_prefix fuel g stack visited group :
  ∃ suffix, (dfs_loop fuel g stack visited group).2 = group ++ suffix.
Proof.
  revert stack visited group.
  induction fuel as [|fuel IH]; intros stack visited group; simpl.
  { exists []. by rewrite app_nil_r. }
  destruct stack as [|v rest]; [exists []; by rewrite app_nil_r|].
  destruct (decide (v ∈ visited)); [apply IH|].
  destruct (IH (push_unvisited (visited ++ [v]) rest (default [] (al_lookup v g)))
              (visited ++ [v]) (group ++ [v])) as [suffix ->].
  exists (v :: suffix). by rewrite <- app_assoc.
Qed.

Lemma dfs_start g start visited :
  start ∉ visited → ∃ suffix, (dfs g start visited).2 = start :: suffix.
Proof.
  intros Hstart. unfold dfs. rewrite GraphFacts.dfs_loop_step.
  rewrite decide_False by done.
  destruct (dfs_loop_group_prefix (dfs_budget g [start] visited) g
              (push_unvisited (visited ++ [start]) [] (default [] (al_lookup start g)))
              (visited ++ [start]) ([] ++ [start])) as [suffix ->].
  by exists suffix.
Qed.

(** A connected group has its start vertex as first member. *)
Lemma findConnectedGroups_nonempty g group :
  group ∈ findConnectedGroups g → group ≠ [].
Proof.
  unfold findConnectedGroups.
  generalize (g.*1). intros keys.
  assert (∀ st : list JsVal * list (list JsVal),
            (∀ gr, gr ∈ st.2 → gr ≠ []) →
            ∀ gr, gr ∈ (foldl (λ (st : list JsVal * list (list JsVal)) vertex,
                           if decide (vertex ∈ st.1) then st
                           else (( dfs g vertex st.1).1, st.2 ++ [(dfs g vertex st.1).2]))
                          st keys).2 → gr ≠ []) as Hgen.
  { induction keys as [|k keys IH]; intros st Hst; simpl; [done|].
    apply IH. destruct (decide (k ∈ st.1)) as [Hin|Hin]; [done|].
    simpl. intros gr Hgr. apply elem_of_app in Hgr as [Hgr|Hgr]; [by apply Hst|].
    apply list_elem_of_singleton in Hgr as ->.
    destruct (dfs_start g k st.1 Hin) as [suffix ->]. done. }
  apply Hgen. simpl. intros gr Hgr. by apply not_elem_of_nil in Hgr.
Qed.

End GroupsNonEmpty.


Section env_facts.
Variable env1 env2 : nat → Z * Z.
Variable recs : list Anime.
Variable animeMap : gmap string nat.
Hypothesis titles : ∀ anime, anime ∈ recs → strTruthy (a_title anime) = true.

Lemma lookupAnime_in v i anime :
  lookupAnime recs animeMap v = Some (i, anime) → anime ∈ recs.
Proof.
  unfold lookupAnime.
  destruct (animeMap !! jsStr v) as [j|]; simpl; [|done].
  destruct (recs !! j) as [anime'|] eqn:Hj; simpl; [|done].
  intros [= <- <-]. apply list_elem_of_lookup. by exists j.
Qed.

Lemma generateSeriesId_env details existingIds k ia :
  head details = Some ia → strTruthy (a_title ia.2) = true →
  generateSeriesId env1 details existingIds k = generateSeriesId env2 details existingIds k.
Proof.
  intros Hhead Htitle. unfold generateSeriesId. rewrite Hhead.
  destruct ia as [i anime]. simpl in Htitle. by rewrite Htitle.
Qed.

(** With a title on every record, a step reads neither the clock nor the
    random numbers. *)
Lemma groupStep_env s anime :
  is_Some (lookupAnime recs animeMap (a_id anime)) →
  groupStep env1 recs animeMap s anime = groupStep env2 recs animeMap s anime.
Proof.
  intros [[i first] Hfirst]. unfold groupStep.
  destruct (decide (a_id anime ∈ gs_processedIds s)); [done|].
  destruct (decide (relationsOf anime = [])); [done|].
  simpl.
  destruct (decide (length _ = 1%nat)); [done|].
  destruct (decide (filter _ _ = [])); [|done].
  unfold finalizeGroup.
  destruct (relatedIdsOf_head recs animeMap (a_id anime)) as [suffix Hsuffix].
  rewrite Hsuffix. simpl. rewrite Hfirst. simpl.
  rewrite (generateSeriesId_env _ _ _ (i, first)); [done|done|].
  apply titles. by eapply lookupAnime_in.
Qed.

Lemma run_env (animes : list Anime) s :
  (∀ anime, anime ∈ animes → is_Some (lookupAnime recs animeMap (a_id anime))) →
  foldl (groupStep env1 recs animeMap) s animes
  = foldl (groupStep env2 recs animeMap) s animes.
Proof.
  revert s. induction animes as [|anime animes IH]; intros s Hbound; simpl; [done|].
  rewrite groupStep_env by (apply Hbound, list_elem_of_here).
  apply IH. intros a Ha. apply Hbound. by apply list_elem_of_further.
Qed.

End env_facts.


(** ** The loops end before their fuel does *)

Section traversal_fuel.
Variable recs : list Anime.
Variable animeMap : gmap string nat.

Local Abbreviation findAll := (findAllRelatedIds recs animeMap).

Lemma visit_fold_mono (recurse : JsVal → Trav → Trav) a rels st x :
  (∀ t st', x ∈ t_processed st' → x ∈ t_processed (recurse t st')) →
  x ∈ t_processed st →
  x ∈ t_processed (foldl (visitRelation recurse a) st rels).
Proof.
  intros Hrec. revert st. induction rels as [|rel rels IH]; intros st Hx; simpl; [done|].
  apply IH. unfold visitRelation.
  destruct (truthy (relTarget rel)); [|done]. simpl.
  destruct (decide (relTarget rel ∈ t_processed st)); [done|].
  by apply Hrec.
Qed.

(** A traversal only adds to the processed set. *)
Lemma findAll_mono fuel a st x :
  x ∈ t_processed st → x ∈ t_processed (findAll fuel a st).
Proof.
  revert a st. induction fuel as [|fuel IH]; intros a st Hx; simpl; [done|].
  destruct (decide (a ∈ t_processed st)); [done|].
  assert (x ∈ t_processed st ++ [a]) as Hx' by (apply elem_of_app; by left).
  destruct (lookupAnime recs animeMap a) as [[i anime]|]; [|done].
  apply visit_fold_mono; [|done]. intros t st' Hst'. by apply IH.
Qed.

(** Two fuels above the number of unprocessed ids give the same
    traversal: processed set, chains and log. *)
Lemma findAll_fuel (U : gset JsVal) fuel1 fuel2 a st :
  (∀ t, t ∈ allTargets recs → t ∈ U) →
  a ∈ U →
  (unprocessed U (t_processed st) < fuel1)%nat →
  (unprocessed U (t_processed st) < fuel2)%nat →
  findAll fuel1 a st = findAll fuel2 a st.
Proof.
  intros HU. revert fuel2 a st.
  induction fuel1 as [|fuel1 IH]; intros fuel2 a st Ha H1 H2; [lia|].
  destruct fuel2 as [|fuel2]; [lia|]. simpl.
  destruct (decide (a ∈ t_processed st)) as [Hin|Hin]; [done|].
  pose proof (unprocessed_add U (t_processed st) a Ha Hin) as Hlt.
  destruct (lookupAnime recs animeMap a) as [[i anime]|] eqn:Hlook; [|done].
  set (st1 := mkTrav (t_processed st ++ [a]) (t_chains st) (t_log st)).
  assert (∀ rels st2,
    (∀ rel, rel ∈ rels → truthy (relTarget rel) = true → relTarget rel ∈ U) →
    (∀ x, x ∈ t_processed st1 → x ∈ t_processed st2) →
    foldl (visitRelation (findAll fuel1) a) st2 rels
    = foldl (visitRelation (findAll fuel2) a) st2 rels) as Hloop.
  { induction rels as [|rel rels IHrels]; intros st2 Htargets Hsub; simpl; [done|].
    assert (visitRelation (findAll fuel1) a st2 rel
            = visitRelation (findAll fuel2) a st2 rel) as Hvisit.
    { unfold visitRelation.
      destruct (truthy (relTarget rel)) eqn:Htruthy; [|done]. simpl.
      destruct (decide (relTarget rel ∈ t_processed st2)); [done|].
      pose proof (unprocessed_mono U _ _ Hsub) as Hmono.
      apply IH; simpl in *; try lia.
      apply Htargets; [apply list_elem_of_here|done]. }
    rewrite Hvisit. apply IHrels.
    - intros rel' Hrel'. apply Htargets. by apply list_elem_of_further.
    - intros x Hx. apply visit_fold_mono with (rels := [rel]) (st := st2);
        [|by apply Hsub].
      intros t st' Hst'. by apply findAll_mono. }
  apply Hloop; [|done].
  intros rel Hrel Htruthy. apply HU. apply (edge_target recs animeMap a).
  by exists i, anime, rel.
Qed.

(** More fuel than [relatedIdsOf] takes changes nothing. *)
Lemma relatedIdsOf_fuel a fuel :
  (traversalFuel recs ≤ fuel)%nat →
  findAll fuel a (mkTrav [] ∅ []) = relatedIdsOf recs animeMap a.
Proof.
  intros Hfuel. unfold relatedIdsOf.
  apply (findAll_fuel ({[a]} ∪ list_to_set (allTargets recs))).
  - intros t Ht. apply elem_of_union. right. by apply elem_of_list_to_set.
  - apply elem_of_union. left. by apply elem_of_singleton.
  - pose proof (traversalFuel_enough recs a []). simpl. lia.
  - apply traversalFuel_enough.
Qed.

End traversal_fuel.

Lemma append_self_inv (s t : string) : s +:+ t = s → t = "".
Proof.
  induction s as [|c s IH]; [done|].
  intros Heq. apply IH.
  change (String c (s +:+ t) = String c s) in Heq. by injection Heq.
Qed.

Lemma candidateId_inj slug : Inj (=) (=) (candidateId slug).
Proof.
  intros [|i] [|j] Heq; simpl in Heq; [done| | |].
  - symmetry in Heq. by apply append_self_inv in Heq.
  - by apply append_self_inv in Heq.
  - apply (inj (String.app slug)) in Heq.
    change (String underscore (pretty (S i)) = String underscore (pretty (S j))) in Heq.
    injection Heq as Heq. by apply (inj pretty) in Heq.
Qed.

Lemma uniqueSeriesId_loop slug (existingIds : gset string) fuel j :
  (∀ i, (i < j)%nat → candidateId slug i ∈ existingIds) →
  (size existingIds < fuel + j)%nat →
  uniqueSeriesId fuel slug existingIds (candidateId slug j) (S j) ∉ existingIds.
Proof.
  revert j. induction fuel as [|fuel IH]; intros j Htried Hsize.
  - exfalso.
    assert (size (list_to_set (candidateId slug <$> seq 0 j) : gset string) = j) as Hj.
    { rewrite size_list_to_set, length_fmap, length_seq; [done|].
      apply NoDup_fmap; [apply candidateId_inj|apply NoDup_seq]. }
    assert (size (list_to_set (candidateId slug <$> seq 0 j) : gset string)
            ≤ size existingIds)%nat as Hle.
    { apply subseteq_size. intros x Hx.
      apply elem_of_list_to_set, list_elem_of_fmap in Hx as (i & -> & Hi).
      apply elem_of_seq in Hi. apply Htried. lia. }
    simpl in Hsize. lia.
  - simpl. destruct (decide (candidateId slug j ∈ existingIds)) as [Hin|Hin]; [|done].
    apply (IH (S j)).
    + intros i Hi. destruct (decide (i = j)) as [->|Hne]; [done|]. apply Htried. lia.
    + lia.
Qed.


(** ** The claims of the specification *)

(** *** Claims on the grouping stage *)


(** C1, as the code has it: the closure computed for an id is the set of
    ids reachable from it along the normalized relations of any type,
    each followed from the record that holds it to its target only; the
    closure lists every such id once. *)
Theorem closure_is_forward_reachability JSON_parse animeData a :
  NoDup (closureOf JSON_parse animeData a) ∧
  ∀ x, x ∈ closureOf JSON_parse animeData a ↔ reachIn JSON_parse animeData a x.
Proof. apply relatedIdsOf_reach. Qed.

(** C1, as stated, fails: record 3 points at record 1 and is connected to
    it in the undirected graph, but is not in the closure of record 1. *)
Lemma closure_misses_record_pointing_at_start :
  ¬ (∀ x, x ∈ closureOf Examples.noJson Examples.pointedAt (JStr "1")
          ↔ connectedIn Examples.noJson Examples.pointedAt (JStr "1") x).
Proof.
  intros Hclaim.
  assert (JStr "3" ∉ closureOf Examples.noJson Examples.pointedAt (JStr "1")) as Hout
    by by_computation.
  apply Hout, Hclaim.
  eapply connected_backward; [|apply connected_refl].
  eexists 2%nat, _, _. split; [vm_compute; reflexivity|].
  split; [vm_compute; apply list_elem_of_here|].
  split; reflexivity.
Qed.

(** Every group of a run lists such a closure. *)
Lemma groups_are_closures JSON_parse env animeData g :
  g ∈ gr_series (groupAnimeIntoSeries_internal JSON_parse env animeData) →
  ∃ a, g_animeIds g = closureOf JSON_parse animeData a ∧
       (2 ≤ length (g_animeIds g))%nat.
Proof.
  unfold groupAnimeIntoSeries_internal. simpl. intros Hg.
  set (n := normalizePass JSON_parse animeData) in *.
  destruct (GroupInv_run env (ns_animeData n) (ns_animeMap n) (ns_animeData n)
              (initialState (ns_log n)) (GroupInv_initial _ _ _)) as [Hmem _ _].
  destruct (Hmem g Hg) as (a & Ha & Hlen). exists a. split; [done|].
  destruct (relatedIdsOf_head (ns_animeData n) (ns_animeMap n) a) as [suffix Hs].
  rewrite Ha in *. rewrite Hs in *. destruct suffix; simpl in *; [done|lia].
Qed.

(** In a state of a run, a member of a group whose record has the member
    itself as its id is assigned to a group. *)
Lemma grouped_record_is_assigned JSON_parse env animeData (animes : list Anime) g B i anime :
  let n := normalizePass JSON_parse animeData in
  let s := foldl (groupStep env (ns_animeData n) (ns_animeMap n))
             (initialState (ns_log n)) animes in
  g ∈ gs_series s → B ∈ g_animeIds g →
  lookupAnime (ns_animeData n) (ns_animeMap n) B = Some (i, anime) → a_id anime = B →
  is_Some (gs_animeToSeries s !! B).
Proof.
  intros n s Hg HB Hlook <-.
  destruct (GroupInv_run env (ns_animeData n) (ns_animeMap n) animes
              (initialState (ns_log n)) (GroupInv_initial _ _ _)) as [_ _ _ Hcomplete].
  by eapply Hcomplete.
Qed.

(** C2 fails on the code: the id 99, which occurs as a relation target
    only, is a member of both groups of the run. *)
Theorem target_without_record_in_two_groups :
  g_animeIds <$> gr_series
    (groupAnimeIntoSeries_internal Examples.noJson Examples.clockA Examples.sharedTarget)
  = [[JStr "1"; JStr "99"]; [JStr "2"; JStr "99"]].
Proof. vm_compute. reflexivity. Qed.

(** The conflict check compares ids as a [Map] does.  With record ids
    that are strings and relation targets that are numbers, as in the
    CSV example of the README, the closure of record 4 holds the numbers
    2 and 1, which are not assigned, and a second group is created over
    the records of the first. *)
Lemma numeric_targets_escape_the_conflict_check :
  g_animeIds <$> gr_series
    (groupAnimeIntoSeries_internal Examples.noJson Examples.clockA Examples.numericTargets)
  = [[JStr "1"; JNum 2; JNum 1]; [JStr "4"; JNum 2; JNum 1]].
Proof. vm_compute. reflexivity. Qed.

(** C3 fails on the code, by the defect of C2.  On the two records that
    point at the id 99, the group [left] of record 1 is finalized with
    the members 1 and 99.  The closure of record 2 holds the member 99
    of that group, but 99 has no entry in [animeToSeries]: the run
    creates the group [right] over 2 and 99 and reports no
    multi-membership. *)
Theorem member_without_record_is_not_vetoed :
  let n := normalizePass Examples.noJson Examples.sharedTarget in
  let step := groupStep Examples.clockA (ns_animeData n) (ns_animeMap n) in
  let s1 := foldl step (initialState []) (take 1 (ns_animeData n)) in
  let r := groupAnimeIntoSeries_internal Examples.noJson Examples.clockA
             Examples.sharedTarget in
  (λ g, (g_seriesId g, g_animeIds g)) <$> gs_series s1
    = [("left", [JStr "1"; JStr "99"])]
  ∧ closureOf Examples.noJson Examples.sharedTarget (JStr "2") = [JStr "2"; JStr "99"]
  ∧ gs_animeToSeries s1 !! JStr "99" = None
  ∧ (λ g, (g_seriesId g, g_animeIds g)) <$> gr_series r
    = [("left", [JStr "1"; JStr "99"]); ("right", [JStr "2"; JStr "99"])]
  ∧ animeInMultipleSeries (gr_edgeCases r) = [].
Proof. split_and!; vm_compute; reflexivity. Qed.

(** Where the check finds a conflict, the members of the existing group
    are reported by every rejected closure that reaches them: the
    records 3 and 4 both point at the grouped record 2, and each of them
    reports 2 and 1. *)
Lemma grouped_members_reported_again :
  let r := groupAnimeIntoSeries_internal Examples.noJson Examples.clockA
             Examples.twoLateComers in
  g_animeIds <$> gr_series r = [[JStr "1"; JStr "2"]]
  ∧ me_animeId <$> animeInMultipleSeries (gr_edgeCases r)
    = [JStr "2"; JStr "1"; JStr "2"; JStr "1"].
Proof. split; vm_compute; reflexivity. Qed.

(** No run writes to [edgeCases.circularRelations]. *)
Lemma circularRelations_stay_empty JSON_parse env animeData :
  circularRelations
    (gr_edgeCases (groupAnimeIntoSeries_internal JSON_parse env animeData)) = [].
Proof.
  unfold groupAnimeIntoSeries_internal. simpl.
  apply (foldl_invariant (λ s, circularRelations (gs_edgeCases s) = [])); [done|].
  intros s anime Hs. by rewrite groupStep_circularRelations.
Qed.

(** C7 fails on the code: on the cycle 1 -> 2 -> 1 the traversal meets
    the target 1 on the chain [1] and logs it, and the report of the
    run has no circular-relation observation. *)
Theorem circular_relation_not_reported :
  let r := groupAnimeIntoSeries_internal Examples.noJson Examples.clockA Examples.cycle in
  gr_log r = [LogCircular [JStr "1"] (JStr "1")] ∧
  circularRelations (gr_edgeCases r) = [].
Proof. split; vm_compute; reflexivity. Qed.

Lemma tagOrUnknown_one (x : option string) :
  tagOrUnknown [x] = strOrD x "UNKNOWN".
Proof.
  unfold strOrD, strTruthy. destruct x as [t|]; simpl; [|done].
  destruct (decide (t = "")) as [->|Hne]; [done|].
  apply String.eqb_neq in Hne. by rewrite Hne.
Qed.

Lemma tagOrUnknown_two (x y : option string) :
  tagOrUnknown [x; y] = strOrD (strOr x y) "UNKNOWN".
Proof.
  unfold strOr, strOrD, strTruthy. destruct x as [t|]; simpl.
  - destruct (decide (t = "")) as [->|Hne]; simpl.
    + destruct y as [u|]; simpl; [|done].
      destruct (decide (u = "")) as [->|Hu]; [done|].
      apply String.eqb_neq in Hu. by rewrite Hu.
    + apply String.eqb_neq in Hne. rewrite Hne. simpl. by rewrite Hne.
  - destruct y as [u|]; simpl; [|done].
    destruct (decide (u = "")) as [->|Hu]; [done|].
    apply String.eqb_neq in Hu. by rewrite Hu.
Qed.

(** C8, as the code has it: the [relationType] of the edge that the
    normalisation makes of an element is the tag as it is written,
    without any change of case.  For a bare id it is "UNKNOWN"; for an
    element with a nested node that has an id it is the [relationType]
    of the element when that is a non-empty string, and "UNKNOWN"
    otherwise; for an element with an [id] and no [targetAnimeId] it is
    the [relationType], else the [type], else "UNKNOWN"; any other
    element keeps the [relationType] it has, which may be absent.  The
    relation type that the second pass reads from the edge is its
    [relationType], else its [type], else "UNKNOWN". *)
Theorem relationType_kept_as_written (rel : RelElem) :
  rel_relationType (asObj (normalizeRel rel)) =
    match rel with
    | EBare _ => Some "UNKNOWN"
    | EObj o =>
        if truthy (rel_node_id o) then Some (tagOrUnknown [rel_relationType o])
        else if truthy (rel_id o) && negb (truthy (rel_targetAnimeId o))
        then Some (tagOrUnknown [rel_relationType o; rel_type o])
        else rel_relationType o
    end
  ∧ relTypeOf (asObj (normalizeRel rel)) =
    match rel with
    | EBare _ => "UNKNOWN"
    | EObj o =>
        if truthy (rel_node_id o) then tagOrUnknown [rel_relationType o]
        else tagOrUnknown [rel_relationType o; rel_type o]
    end.
Proof.
  destruct rel as [v|o]; simpl; [done|].
  rewrite <- tagOrUnknown_one, <- !tagOrUnknown_two.
  destruct (truthy (rel_node_id o)); simpl.
  { split; [done|]. unfold relTypeOf. simpl. rewrite <- tagOrUnknown_two. simpl.
    destruct (rel_relationType o) as [t|]; simpl; [|done].
    destruct (decide (t = "")); [done|]. by rewrite decide_False. }
  destruct (truthy (rel_id o) && negb (truthy (rel_targetAnimeId o))); simpl.
  - split; [done|]. unfold relTypeOf. simpl. rewrite <- tagOrUnknown_two.
    set (u := tagOrUnknown [rel_relationType o; rel_type o]).
    assert (u ≠ "") as Hu.
    { subst u. simpl. destruct (rel_relationType o) as [t|]; simpl;
        [destruct (decide (t = "")); [|done]|];
        (destruct (rel_type o) as [t'|]; simpl; [destruct (decide (t' = "")); done|done]). }
    simpl. by rewrite decide_False.
  - split; [done|]. unfold relTypeOf. by rewrite <- tagOrUnknown_two.
Qed.

(** C8, as stated, fails: the tag "sequel" stays "sequel" in the edge,
    and an element with a target and no tag is kept without any
    [relationType]. *)
Lemma relation_tags_are_not_normalized :
  ¬ (∀ o ty, rel_relationType o = Some ty →
       rel_relationType (asObj (normalizeRel (EObj o))) = Some (toUpperCase ty))
  ∧ ¬ (∀ o, rel_relationType o = None → rel_type o = None →
         rel_relationType (asObj (normalizeRel (EObj o))) = Some "UNKNOWN").
Proof.
  split.
  - intros Hclaim. specialize (Hclaim Examples.lowerTag "sequel" eq_refl).
    vm_compute in Hclaim. discriminate.
  - intros Hclaim. specialize (Hclaim Examples.untagged eq_refl eq_refl).
    vm_compute in Hclaim. discriminate.
Qed.

(** The callback of the first pass rewrites an element as is said of its
    shape. *)
Lemma normalizeRel_rewrittenAs (rel : RelElem) :
  ∃ o, normalizeRel rel = EObj o ∧ rewrittenAs rel o.
Proof.
  destruct rel as [v|o]; simpl.
  { eexists. split; [done|]. apply rewritten_bare. }
  destruct (truthy (rel_node_id o)) eqn:Hnode.
  { eexists. split; [done|]. rewrite <- tagOrUnknown_one. by apply rewritten_node. }
  destruct (truthy (rel_id o)) eqn:Hid; simpl.
  - destruct (truthy (rel_targetAnimeId o)) eqn:Htarget; simpl.
    + exists o. split; [done|]. apply rewritten_kept; auto.
    + eexists. split; [done|]. rewrite <- tagOrUnknown_two. by apply rewritten_id.
  - exists o. split; [done|]. apply rewritten_kept; auto.
Qed.

Lemma normalizeRel_list (l : list RelElem) :
  ∃ edges, normalizeRel <$> l = EObj <$> edges ∧ Forall2 rewrittenAs l edges.
Proof.
  induction l as [|rel l (edges & Heq & Hall)].
  - exists []. split; [done|apply Forall2_nil_2].
  - destruct (normalizeRel_rewrittenAs rel) as (o & Ho & Hrel).
    exists (o :: edges). rewrite !fmap_cons, Ho, Heq. split; [done|].
    by apply Forall2_cons.
Qed.

Lemma normalizeAnime_overwritten JSON_parse (anime : Anime) :
  overwritten JSON_parse anime (normalizeAnime JSON_parse anime).1.
Proof.
  unfold overwritten, normalizeAnime, parseRelations. simpl.
  split_and!; try done.
  destruct (a_relations anime) as [|s|l|] eqn:Hraw; simpl.
  - exists []. split; [done|apply normalized_absent].
  - destruct (String.eqb s "") eqn:Hs; simpl.
    + apply String.eqb_eq in Hs as ->.
      exists []. split; [done|apply normalized_empty_string].
    + apply String.eqb_neq in Hs.
      destruct (JSON_parse s) as [v|] eqn:Hparse; simpl.
      * destruct v as [|s'|l|] eqn:Hv.
        -- exists []. split; [done|]. by eapply normalized_json_other.
        -- exists []. split; [done|]. by eapply normalized_json_other.
        -- destruct (normalizeRel_list l) as (edges & Heq & Hall).
           exists edges. rewrite Heq. split; [done|]. by eapply normalized_json.
        -- exists []. split; [done|]. by eapply normalized_json_other.
      * exists []. split; [done|]. by apply normalized_malformed.
  - destruct (normalizeRel_list l) as (edges & Heq & Hall).
    exists edges. rewrite Heq. split; [done|]. by apply normalized_list.
  - exists []. split; [done|apply normalized_other].
Qed.

(** An element is rewritten in one way only, and so is a raw value. *)
Lemma rewrittenAs_unique rel o1 o2 :
  rewrittenAs rel o1 → rewrittenAs rel o2 → o1 = o2.
Proof.
  intros H1 H2. destruct H1; inversion H2; subst; try done; try congruence.
  all: repeat match goal with H : _ ∨ _ |- _ => destruct H end; congruence.
Qed.

Lemma normalizedFrom_unique JSON_parse raw edges1 edges2 :
  normalizedFrom JSON_parse raw edges1 → normalizedFrom JSON_parse raw edges2 →
  edges1 = edges2.
Proof.
  assert (Hlist : ∀ l e1 e2, Forall2 rewrittenAs l e1 → Forall2 rewrittenAs l e2 →
                    e1 = e2).
  { intros l e1 e2 H1. revert e2.
    induction H1 as [|rel o l e1 Ho H1 IH]; intros e2 H2.
    - by apply Forall2_nil_inv_l in H2.
    - apply Forall2_cons_inv_l in H2 as (o' & e2' & Ho' & H2 & ->).
      f_equal; [by eapply rewrittenAs_unique|by apply IH]. }
  intros H1 H2. destruct H1; inversion H2; subst; try done; try congruence.
  all: try (by eapply Hlist).
  all: try (exfalso; match goal with H : ∀ l, _ ≠ VArray l |- _ => by eapply H end).
  match goal with
  | H : JSON_parse ?s = Some (VArray ?l), H' : JSON_parse ?s = Some (VArray ?l') |- _ =>
      assert (l' = l) as -> by congruence
  end.
  by eapply Hlist.
Qed.

Section first_pass_overwrites.
Variable JSON_parse : string → option RelValue.
Variable env : nat → Z * Z.

Lemma normalizePass_overwritten animeData :
  Forall2 (overwritten JSON_parse) animeData
    (ns_animeData (normalizePass JSON_parse animeData)).
Proof.
  destruct (normalizePass_spec JSON_parse animeData) as (-> & _).
  apply Forall2_fmap_r, Forall_Forall2_diag, Forall_forall.
  intros anime _. apply normalizeAnime_overwritten.
Qed.

Lemma run_overwritten animeData :
  Forall2 (overwritten JSON_parse) animeData
    (gr_animeData (groupAnimeIntoSeries_internal JSON_parse env animeData)).
Proof.
  unfold groupAnimeIntoSeries_internal. simpl.
  pose proof (normalizePass_overwritten animeData) as Hall.
  apply Forall2_same_length_lookup. split.
  - rewrite length_imap. by eapply Forall2_length.
  - intros i raw anime' Hraw Hi. rewrite list_lookup_imap in Hi.
    destruct (ns_animeData (normalizePass JSON_parse animeData) !! i)
      as [anime|] eqn:Ha; simpl in Hi; [|done].
    pose proof (Forall2_lookup_lr _ _ _ _ _ _ Hall Hraw Ha) as Hov.
    destruct (gs_seriesIdOf _ !! i); injection Hi as <-; done.
Qed.

(** C10: the first pass overwrites the [relations] of every record,
    before the second pass reads any of them, with an array of edge
    objects: the elements of a list rewritten each by its shape (a bare
    id and an element with a nested node become
    [{targetAnimeId, relationType}], an element with an [id] and no
    [targetAnimeId] gets both properties), a JSON string parsed first,
    and the empty array for a value that is missing, is no list or does
    not parse.  The records that the run leaves to the caller hold that
    array, with their id, titles and start date as they were. *)
Theorem relations_overwritten_by_normalized_edges animeData :
  Forall2 (overwritten JSON_parse) animeData
    (ns_animeData (normalizePass JSON_parse animeData))
  ∧ Forall2 (overwritten JSON_parse) animeData
      (gr_animeData (groupAnimeIntoSeries_internal JSON_parse env animeData)).
Proof. split; [apply normalizePass_overwritten|apply run_overwritten]. Qed.

End first_pass_overwrites.

(** The relations of a record with an element of each shape, and of a
    record whose relations do not parse, after a run. *)
Lemma normalization_of_each_shape :
  a_relations <$> gr_animeData
    (groupAnimeIntoSeries_internal Examples.noJson Examples.clockA Examples.allShapes)
  = [VArray [EObj (canonicalEdge "7" "UNKNOWN");
             EObj (canonicalEdge "8" "sequel");
             EObj (mkRelObj JUndef (JNum 9) (JStr "9") (Some "PREQUEL") (Some "PREQUEL"));
             EObj Examples.typeOnly];
     VArray []].
Proof. vm_compute. reflexivity. Qed.

(** C6, as the code has it: when every record has a non-empty title, a
    run reads neither the clock nor the random numbers, and grouping
    followed by splitting gives the same documents whatever these are. *)
Theorem titled_runs_are_deterministic strToNumber parseDate JSON_parse env1 env2
    (animeData : list Anime) :
  (∀ anime, anime ∈ animeData → strTruthy (a_title anime) = true) →
  pipeline strToNumber parseDate JSON_parse env1 animeData
  = pipeline strToNumber parseDate JSON_parse env2 animeData.
Proof.
  intros Htitles.
  assert (groupAnimeIntoSeries_internal JSON_parse env1 animeData
          = groupAnimeIntoSeries_internal JSON_parse env2 animeData) as Heq.
  { unfold groupAnimeIntoSeries_internal.
    set (n := normalizePass JSON_parse animeData).
    destruct (normalizePass_spec JSON_parse animeData) as (Hd & _ & _).
    assert (∀ anime, anime ∈ ns_animeData n →
              ∃ raw, raw ∈ animeData ∧ anime = (normalizeAnime JSON_parse raw).1) as Hraw.
    { intros anime Hin. subst n. rewrite Hd in Hin.
      apply list_elem_of_fmap in Hin as (raw & -> & Hraw). by exists raw. }
    rewrite (run_env env1 env2 (ns_animeData n) (ns_animeMap n)); [done| |].
    - intros anime Hin. destruct (Hraw anime Hin) as (raw & Hr & ->).
      simpl. by apply Htitles.
    - intros anime Hin. destruct (Hraw anime Hin) as (raw & Hr & ->).
      destruct (lookupAnime_bound JSON_parse animeData raw Hr) as (i & first & Hfirst).
      simpl. by eexists. }
  unfold pipeline. by rewrite Heq.
Qed.

(** C6, as stated, fails: without a title on the first member, the group
    id is made of the clock and of a random number, and two runs on the
    same records differ. *)
Lemma untitled_runs_differ :
  pipeline decimalNumber noDate Examples.noJson Examples.clockA Examples.untitled
  ≠ pipeline decimalNumber noDate Examples.noJson Examples.clockB Examples.untitled.
Proof.
  intros Heq.
  apply (f_equal (λ p : GResult * SplitOutput, g_seriesId <$> gr_series p.1)) in Heq.
  vm_compute in Heq. discriminate.
Qed.

(** The determinism of titled runs, on the cycle and two clocks. *)
Lemma titled_runs_are_deterministic_witness :
  pipeline decimalNumber noDate Examples.noJson Examples.clockA Examples.cycle
  = pipeline decimalNumber noDate Examples.noJson Examples.clockB Examples.cycle.
Proof.
  apply (titled_runs_are_deterministic decimalNumber noDate Examples.noJson
           Examples.clockA Examples.clockB Examples.cycle).
  apply Forall_forall. by_computation.
Defined.


(** The veto on record 3, which points at the grouped record 2: no new
    group, and the entries of the members 2 and 1. *)
Lemma conflict_veto_witness :
  let s' := groupStep Examples.clockA VetoExample.recs VetoExample.animeMap
              VetoExample.grouped VetoExample.third in
  gs_series s' = gs_series VetoExample.grouped ∧
  me_animeId <$> animeInMultipleSeries (gs_edgeCases s') = [JStr "2"; JStr "1"].
Proof.
  destruct (conflict_veto Examples.clockA VetoExample.recs VetoExample.animeMap
              VetoExample.grouped VetoExample.third (JStr "2") "alpha")
    as (Hseries & Hentries & _).
  - by_computation.
  - by_computation.
  - by_computation.
  - by_computation.
  - vm_compute. reflexivity.
  - split; [exact Hseries|]. rewrite Hentries. vm_compute. reflexivity.
Defined.

(** *** Claims on the splitting stage *)

(** C4 fails on the code: in the group that the grouping stage writes
    for a record 1 that is a sequel of itself and shares a character
    with record 2, the structural graph has the vertex 1 alone, and the
    MAIN cluster emitted for it has one member. *)
Theorem self_relation_gives_singleton_main_cluster :
  let r := groupAnimeIntoSeries_internal Examples.noJson Examples.clockA
             Examples.selfSequel in
  g_animeIds <$> gr_series r = [[JStr "1"; JStr "2"]] ∧
  (λ series,
     m_animeIds <$> res_main (processSeriesData decimalNumber noDate series
                                (rawAnimeMap Examples.selfSequel)))
    <$> gr_series r
  = [[[JStr "1"]]].
Proof. split; vm_compute; reflexivity. Qed.


(** The member 1 of the main cluster is not in the OTHER cluster that
    was found from the component 2-4-5. *)
Lemma soft_clusters_exclude_main_members_witness :
  JStr "1" ∉ c_animeIds SplitExample.other45.
Proof.
  apply (soft_clusters_exclude_main_members decimalNumber noDate Examples.mainAndOther ∅
           "other" [SplitExample.other45] SplitExample.other45 SplitExample.main12
           (JStr "1")).
  - vm_compute. reflexivity.
  - apply list_elem_of_here.
  - vm_compute. apply list_elem_of_here.
  - by_computation.
Defined.

Lemma imap_pair_elem {A} (l : list A) (ia : nat * A) :
  ia ∈ imap pair l → ia.2 ∈ l.
Proof.
  intros Hin. apply list_elem_of_lookup in Hin as [i Hi].
  rewrite list_lookup_imap in Hi.
  destruct (l !! i) as [x|] eqn:Hx; simpl in Hi; [|done].
  injection Hi as <-. simpl. apply list_elem_of_lookup. by exists i.
Qed.

(** * Further properties *)

(** ** Insertion-ordered maps *)

Section ordered_container_facts.
Context {K V : Type} `{EqDecision K}.
Implicit Types (l : list (K * V)) (k : K) (v : V).

Lemma al_lookup_None k l : al_lookup k l = None ↔ k ∉ l.*1.
Proof.
  induction l as [|[k' v'] l IH]; simpl.
  - split; [intros _; apply not_elem_of_nil|done].
  - destruct (decide (k = k')) as [->|Hne].
    + split; [done|]. intros Hn. exfalso. apply Hn. apply list_elem_of_here.
    + rewrite IH. rewrite not_elem_of_cons. tauto.
Qed.

Lemma al_lookup_init k k' v l :
  al_lookup k (al_init k' v l) =
  match al_lookup k l with
  | Some x => Some x
  | None => if decide (k = k') then Some v else None
  end.
Proof.
  unfold al_init. destruct (al_lookup k' l) as [x'|] eqn:Hk'.
  - destruct (al_lookup k l) as [x|] eqn:Hk; [done|].
    destruct (decide (k = k')) as [->|Hne]; [congruence|done].
  - clear Hk'. induction l as [|[k0 v0] l IH]; simpl.
    + done.
    + destruct (decide (k = k0)); [done|]. apply IH.
Qed.

Lemma al_lookup_alter (f : V → V) k k' l :
  al_lookup k (al_alter f k' l) =
  if decide (k = k') then f <$> al_lookup k l else al_lookup k l.
Proof.
  induction l as [|[k0 v0] l IH]; simpl.
  - by destruct (decide (k = k')).
  - destruct (decide (k' = k0)) as [->|Hne]; simpl.
    + destruct (decide (k = k0)) as [->|Hne']; simpl; done.
    + destruct (decide (k = k0)) as [->|Hne']; simpl.
      * destruct (decide (k0 = k')); [congruence|done].
      * apply IH.
Qed.

Lemma al_keys_init k v l : (al_init k v l).*1 = set_add k l.*1.
Proof.
  unfold al_init, set_add.
  destruct (al_lookup k l) as [x|] eqn:Hk.
  - rewrite decide_True; [done|].
    destruct (decide (k ∈ l.*1)) as [Hin|Hin]; [done|].
    apply al_lookup_None in Hin. congruence.
  - rewrite decide_False by (by apply al_lookup_None).
    by rewrite fmap_app.
Qed.

Lemma al_keys_alter (f : V → V) k l : (al_alter f k l).*1 = l.*1.
Proof.
  induction l as [|[k0 v0] l IH]; simpl; [done|].
  destruct (decide (k = k0)); simpl; [done|]. f_equal. apply IH.
Qed.

Lemma NoDup_set_add (x : K) (s : list K) : NoDup s → NoDup (set_add x s).
Proof.
  intros Hnd. unfold set_add. destruct (decide (x ∈ s)); [done|].
  apply NoDup_app. split_and!; [done| |apply NoDup_singleton].
  intros y Hy Hy'. apply list_elem_of_singleton in Hy'. by subst.
Qed.

Lemma al_keys_set k v l : (al_set k v l).*1 = set_add k l.*1.
Proof.
  unfold set_add. induction l as [|[k0 v0] l IH]; [done|].
  cbn [al_set]. destruct (decide (k = k0)) as [->|Hne]; rewrite !fmap_cons; cbn [fst].
  - rewrite decide_True; [done|]. apply list_elem_of_here.
  - rewrite IH. destruct (decide (k ∈ l.*1)) as [Hin|Hin].
    + rewrite decide_True; [done|]. by right.
    + rewrite decide_False; [done|].
      intros [?|?]%elem_of_cons; done.
Qed.

Lemma elem_of_al_set k v l k' v' :
  (k', v') ∈ al_set k v l → (k' = k ∧ v' = v) ∨ (k', v') ∈ l.
Proof.
  induction l as [|[k0 v0] l IH]; simpl.
  - intros [= -> ->]%list_elem_of_singleton. by left.
  - destruct (decide (k = k0)) as [->|Hne].
    + intros [[= -> ->]|Hin]%elem_of_cons; [by left|]. right. by right.
    + intros [Heq|Hin]%elem_of_cons.
      * right. rewrite Heq. apply list_elem_of_here.
      * destruct (IH Hin) as [?|?]; [by left|]. right. by right.
Qed.
End ordered_container_facts.

(** ** The connected components of a [Graph] *)

Module Components.
Import Graph GraphRel.

Lemma neighbours_addEdge s t g v :
  neighbours (addEdge s t g) v =
  neighbours g v ++ (if decide (v = s) then [t] else [])
                 ++ (if decide (v = t) then [s] else []).
Proof.
  unfold neighbours, addEdge, addVertex.
  rewrite !al_lookup_alter, !al_lookup_init.
  destruct (al_lookup v g) as [ns|] eqn:Hv; simpl.
  - destruct (decide (v = t)), (decide (v = s)); simpl;
      rewrite <- ?app_assoc, ?app_nil_r; done.
  - destruct (decide (v = t)), (decide (v = s)); simpl; done.
Qed.

Lemma keys_addEdge s t g : (addEdge s t g).*1 = set_add t (set_add s g.*1).
Proof.
  unfold addEdge, addVertex. by rewrite !al_keys_alter, !al_keys_init.
Qed.

Lemma adjacent_addEdge s t g v w :
  adjacent (addEdge s t g) v w ↔
  adjacent g v w ∨ (v = s ∧ w = t) ∨ (v = t ∧ w = s).
Proof.
  unfold adjacent. rewrite neighbours_addEdge, !elem_of_app.
  destruct (decide (v = s)) as [Hs|Hs], (decide (v = t)) as [Ht|Ht];
    rewrite ?list_elem_of_singleton, ?elem_of_nil; intuition congruence.
Qed.

Lemma wf_empty : wf empty.
Proof.
  split.
  - apply NoDup_nil_2.
  - intros v w Hvw. by apply elem_of_nil in Hvw.
  - intros v w Hvw. by apply elem_of_nil in Hvw.
Qed.

Lemma elem_of_keys_addEdge s t g x :
  x ∈ (addEdge s t g).*1 ↔ x ∈ g.*1 ∨ x = s ∨ x = t.
Proof.
  rewrite keys_addEdge. unfold set_add.
  destruct (decide (s ∈ g.*1)) as [Hs|Hs].
  - destruct (decide (t ∈ g.*1)) as [Ht|Ht].
    + split; [tauto|]. intros [?|[->| ->]]; done.
    + rewrite elem_of_app, list_elem_of_singleton.
      split; [tauto|]. intros [?|[->| ->]]; auto.
  - destruct (decide (t ∈ g.*1 ++ [s])) as [Ht|Ht].
    + rewrite elem_of_app, list_elem_of_singleton.
      split; [tauto|]. intros [?|[->| ->]]; auto.
      apply elem_of_app in Ht. rewrite list_elem_of_singleton in Ht. done.
    + rewrite !elem_of_app, !list_elem_of_singleton. tauto.
Qed.

Lemma wf_addEdge s t g : wf g → wf (addEdge s t g).
Proof.
  intros [Hk Hs Hc]. split.
  - rewrite keys_addEdge. by do 2 apply NoDup_set_add.
  - intros v w. rewrite !adjacent_addEdge.
    intros [H|[[-> ->]|[-> ->]]]; auto.
  - intros v w. rewrite adjacent_addEdge, elem_of_keys_addEdge.
    intros [H|[[-> ->]|[-> ->]]]; eauto.
Qed.

Lemma path_trans g u v w : path g u v → path g v w → path g u w.
Proof.
  induction 1 as [|a b c Hab Hbc IH]; [done|].
  intros Hcw. eapply path_step; [done|]. by apply IH.
Qed.

Lemma path_sym g u v : wf g → path g u v → path g v u.
Proof.
  intros Hwf. induction 1 as [|a b c Hab Hbc IH]; [apply path_refl|].
  eapply path_trans; [exact IH|].
  eapply path_step; [|apply path_refl]. by apply (wf_sym g Hwf).
Qed.

Lemma elem_of_push_unvisited visited stack ns x :
  x ∈ push_unvisited visited stack ns ↔ x ∈ stack ∨ (x ∈ ns ∧ x ∉ visited).
Proof.
  unfold push_unvisited. revert stack.
  induction ns as [|n ns IH]; intros stack; simpl.
  - rewrite elem_of_nil. tauto.
  - rewrite IH. destruct (decide (n ∈ visited)) as [Hn|Hn].
    + rewrite elem_of_cons. split; [tauto|].
      intros [?|[[->|?] ?]]; tauto.
    + rewrite !elem_of_cons. split; [|tauto].
      intros [[->|?]|[? ?]]; tauto.
Qed.

(** Induction on the turns of the loop of [dfs]. *)
Lemma dfs_run_ind g
    (P : list JsVal → list JsVal → list JsVal → list JsVal * list JsVal → Prop) :
  (∀ visited group, P [] visited group (visited, group)) →
  (∀ v rest visited group r,
     v ∈ visited → P rest visited group r → P (v :: rest) visited group r) →
  (∀ v rest visited group r,
     v ∉ visited →
     P (push_unvisited (visited ++ [v]) rest (neighbours g v))
       (visited ++ [v]) (group ++ [v]) r →
     P (v :: rest) visited group r) →
  ∀ stack visited group, P stack visited group (dfs_run g stack visited group).
Proof.
  intros Hnil Hskip Hvisit stack visited.
  remember (dfs_budget g stack visited) as b eqn:Hb.
  revert stack visited Hb.
  induction b as [b IH] using lt_wf_ind. intros stack visited Hb group.
  destruct stack as [|v rest].
  - rewrite GraphFacts.dfs_run_nil. apply Hnil.
  - rewrite GraphFacts.dfs_run_cons.
    destruct (decide (v ∈ visited)) as [Hin|Hin].
    + apply Hskip; [done|].
      eapply IH; [|reflexivity]. subst b. unfold dfs_budget. simpl. lia.
    + apply Hvisit; [done|].
      eapply IH; [|reflexivity]. subst b.
      apply (GraphFacts.dfs_budget_visit g v rest visited Hin).
Qed.

(** The loop of [dfs] appends the same vertices to [visited] and to
    [group]: every stack entry ends up visited, the new vertices are
    reached from the stack, and no edge leaves the visited set. *)
Lemma dfs_run_spec g stack visited group :
  ∃ new,
    dfs_run g stack visited group = (visited ++ new, group ++ new)
    ∧ (NoDup visited → NoDup (visited ++ new))
    ∧ (∀ s, s ∈ stack → s ∈ visited ++ new)
    ∧ (∀ R : JsVal → Prop,
         (∀ s, s ∈ stack → R s) → (∀ v w, R v → adjacent g v w → R w) →
         ∀ x, x ∈ new → R x)
    ∧ (frontier g visited stack → frontier g (visited ++ new) []).
Proof.
  apply (dfs_run_ind g (λ stack visited group r,
    ∃ new,
      r = (visited ++ new, group ++ new)
      ∧ (NoDup visited → NoDup (visited ++ new))
      ∧ (∀ s, s ∈ stack → s ∈ visited ++ new)
      ∧ (∀ R : JsVal → Prop,
           (∀ s, s ∈ stack → R s) → (∀ v w, R v → adjacent g v w → R w) →
           ∀ x, x ∈ new → R x)
      ∧ (frontier g visited stack → frontier g (visited ++ new) []))).
  - intros vis grp. exists []. rewrite !app_nil_r. split_and!; try done.
    all: try (intros s Hs; by apply elem_of_nil in Hs).
    all: try (intros R _ _ x Hx; by apply elem_of_nil in Hx).
  - intros v rest vis grp r Hv (new & -> & Hnd & Hst & Hreach & Hfr).
    exists new. split_and!; try done.
    + intros s [->|Hs]%elem_of_cons; [|by apply Hst].
      apply elem_of_app. by left.
    + intros R HR Hcl. apply Hreach; [|done].
      intros s Hs. apply HR. by right.
    + intros Hf. apply Hfr. intros a b Ha Hab.
      destruct (Hf a b Ha Hab) as [?|[->|?]%elem_of_cons]; auto.
  - intros v rest vis grp r Hv (new & -> & Hnd & Hst & Hreach & Hfr).
    exists (v :: new). rewrite <- !app_assoc in *. simpl in *.
    split_and!; try done.
    + intros Hvis. apply Hnd. apply NoDup_app. split_and!; [done| |apply NoDup_singleton].
      intros y Hy Hy'. apply list_elem_of_singleton in Hy'. by subst.
    + intros s [->|Hs]%elem_of_cons.
      * apply elem_of_app. right. apply list_elem_of_here.
      * apply Hst. apply elem_of_push_unvisited. by left.
    + intros R HR Hcl x [->|Hx]%elem_of_cons.
      * apply HR. apply list_elem_of_here.
      * apply (Hreach R); [|done|done].
        intros s [Hs|[Hs _]]%elem_of_push_unvisited.
        -- apply HR. by right.
        -- apply (Hcl v); [|done]. apply HR. apply list_elem_of_here.
    + intros Hf. apply Hfr. intros a b Ha Hab.
      apply elem_of_app in Ha. destruct Ha as [Ha|Ha].
      * destruct (Hf a b Ha Hab) as [?|[->|?]%elem_of_cons].
        -- left. apply elem_of_app. by left.
        -- left. apply elem_of_app. right. apply list_elem_of_here.
        -- right. apply elem_of_push_unvisited. by left.
      * apply list_elem_of_singleton in Ha. subst a.
        destruct (decide (b ∈ vis ++ [v])) as [Hb|Hb]; [by left|].
        right. apply elem_of_push_unvisited. by right.
Qed.

Lemma frontier_path g visited v w :
  frontier g visited [] → v ∈ visited → path g v w → w ∈ visited.
Proof.
  intros Hf Hv Hp. induction Hp as [|a b c Hab Hbc IH]; [done|].
  apply IH. destruct (Hf a b Hv Hab) as [?|Hn]; [done|].
  by apply elem_of_nil in Hn.
Qed.

(** [dfs] from a vertex outside a visited set that no edge leaves: the
    group is what the vertex reaches. *)
Lemma dfs_spec g start visited :
  wf g → NoDup visited → frontier g visited [] → start ∉ visited →
  ∃ group,
    dfs g start visited = (visited ++ group, group)
    ∧ NoDup (visited ++ group)
    ∧ frontier g (visited ++ group) []
    ∧ start ∈ group
    ∧ ∀ x, x ∈ group ↔ path g start x.
Proof.
  intros Hwf Hnd Hfr Hstart.
  destruct (dfs_run_spec g [start] visited [])
    as (new & Heq & Hnd' & Hst & Hreach & Hfr').
  exists new. rewrite GraphFacts.dfs_is_dfs_run, Heq. simpl.
  assert (Hin : start ∈ new).
  { specialize (Hst start (list_elem_of_here _ _)).
    apply elem_of_app in Hst. by destruct Hst. }
  assert (Hcl : frontier g (visited ++ new) []).
  { apply Hfr'. intros a b Ha Hab. left.
    destruct (Hfr a b Ha Hab) as [?|Hn]; [done|]. by apply elem_of_nil in Hn. }
  split_and!; auto.
  intros x. split.
  - apply (Hreach (path g start)).
    + intros s ->%list_elem_of_singleton. apply path_refl.
    + intros v w Hv Hvw. eapply path_trans; [exact Hv|].
      eapply path_step; [exact Hvw|apply path_refl].
  - intros Hp.
    assert (Hx : x ∈ visited ++ new).
    { eapply frontier_path; [exact Hcl| |exact Hp].
      apply elem_of_app. by right. }
    apply elem_of_app in Hx. destruct Hx as [Hx|Hx]; [|done].
    exfalso. apply Hstart.
    eapply frontier_path; [exact Hfr|exact Hx|]. by apply path_sym.
Qed.

Lemma foldl_invariant_prefix {A B} (P : list B → A → Prop) (f : A → B → A)
    (l : list B) (a : A) :
  P [] a → (∀ pre b a, b ∈ l → P pre a → P (pre ++ [b]) (f a b)) →
  P l (foldl f a l).
Proof.
  intros Ha Hstep.
  assert (H : ∀ suf pre a, pre ++ suf = l → P pre a → P l (foldl f a suf)).
  { induction suf as [|b suf IH]; intros pre a' Hl Hp; simpl.
    - rewrite app_nil_r in Hl. by subst.
    - apply (IH (pre ++ [b])).
      + by rewrite <- app_assoc.
      + apply Hstep; [|done]. subst l. apply elem_of_app. right.
        apply list_elem_of_here. }
  by apply (H l [] a).
Qed.

Lemma findConnectedGroups_spec g :
  wf g →
  let groups := findConnectedGroups g in
  NoDup (concat groups)
  ∧ (∀ x, x ∈ concat groups ↔ x ∈ g.*1)
  ∧ Forall (component g) groups.
Proof.
  intros Hwf groups. subst groups. unfold findConnectedGroups.
  pose (Inv := λ (pre : list JsVal) (st : list JsVal * list (list JsVal)),
    NoDup st.1 ∧ st.1 = concat st.2 ∧ frontier g st.1 []
    ∧ (∀ k, k ∈ pre → k ∈ st.1) ∧ (∀ x, x ∈ st.1 → x ∈ g.*1)
    ∧ Forall (component g) st.2).
  set (st := foldl _ _ _).
  assert (HI : Inv g.*1 st).
  { apply (foldl_invariant_prefix Inv).
    - unfold Inv. simpl. split_and!; try done.
      all: try apply NoDup_nil_2.
      all: try (intros v w Hv; by apply elem_of_nil in Hv).
      all: try (intros k Hk; by apply elem_of_nil in Hk).
    - intros pre k [vis grs] Hk (Hnd & Hcat & Hfr & Hpre & Hkeys & Hcomp).
      simpl in *. destruct (decide (k ∈ vis)) as [Hin|Hin].
      + unfold Inv. simpl. split_and!; try done.
        intros k' [?| ->%list_elem_of_singleton]%elem_of_app; auto.
      + destruct (dfs_spec g k vis Hwf Hnd Hfr Hin)
          as (new & Heq & Hnd' & Hfr' & Hstart & Hnew).
        rewrite Heq. unfold Inv. simpl. split_and!; try done.
        * rewrite concat_app. simpl. rewrite app_nil_r. by rewrite Hcat.
        * intros k' [?| ->%list_elem_of_singleton]%elem_of_app;
            apply elem_of_app; auto.
        * intros x [Hx|Hx]%elem_of_app; [by apply Hkeys|].
          apply Hnew in Hx. clear -Hx Hk Hwf.
          induction Hx as [|a b c Hab Hbc IH]; [done|].
          apply IH. by apply (wf_closed g Hwf a b).
        * apply Forall_app. split; [done|].
          apply Forall_singleton. by exists k. }
  destruct HI as (Hnd & Hcat & Hfr & Hpre & Hkeys & Hcomp).
  simpl. rewrite <- Hcat. split_and!; try done.
  intros x. split; [apply Hkeys|apply Hpre].
Qed.

End Components.

(** ** The main clusters are the components of the structural links *)

Section main_components.
Variable strToNumber : string → option Z.
Variable parseDate : string → option Z.
Import GraphRel.

Lemma structuralLink_snoc relations r v w :
  structuralLink (relations ++ [r]) v w ↔
  structuralLink relations v w ∨
  (¬ (r_relationType r ∈ softTypes) ∧ joins r v w).
Proof.
  unfold structuralLink. split.
  - intros (r' & [Hin| ->%list_elem_of_singleton]%elem_of_app & Hty & Hends).
    + left. by exists r'.
    + by right.
  - intros [(r' & Hin & Hty & Hends)|[Hty Hends]].
    + exists r'. split; [|done]. apply elem_of_app. by left.
    + exists r. split; [|done]. apply elem_of_app. right. apply list_elem_of_here.
Qed.

Lemma firstPassStep_graph rm r :
  rm_graph (firstPassStep rm r) =
  if decide (r_relationType r ∈ softTypes) then rm_graph rm
  else Graph.addEdge (r_sourceAnimeId r) (r_targetAnimeId r) (rm_graph rm).
Proof.
  unfold firstPassStep.
  destruct (decide (r_relationType r ∈ softTypes)) as [Hin|Hin].
  - repeat case_decide; try done.
    exfalso. unfold softTypes in Hin.
    rewrite !elem_of_cons, elem_of_nil in Hin. tauto.
  - assert (Hall : ∀ ty, ty ∈ softTypes → r_relationType r ≠ ty).
    { intros ty Hty Heq. apply Hin. by rewrite Heq. }
    rewrite !decide_False; [done|..].
    + intros [H|H]; revert H; apply Hall; unfold softTypes;
        rewrite !elem_of_cons; tauto.
    + apply Hall. unfold softTypes. rewrite !elem_of_cons; tauto.
    + apply Hall. unfold softTypes. rewrite !elem_of_cons; tauto.
    + apply Hall. unfold softTypes. rewrite !elem_of_cons; tauto.
Qed.

(** The graph of the first pass: an edge for every structural link. *)
Lemma firstPass_graph relations :
  let g := rm_graph (firstPass relations) in
  wf g
  ∧ (∀ v w, adjacent g v w ↔ structuralLink relations v w)
  ∧ (∀ k, k ∈ g.*1 ↔ ∃ w, structuralLink relations k w).
Proof.
  unfold firstPass.
  apply (Components.foldl_invariant_prefix (λ pre rm,
    wf (rm_graph rm)
    ∧ (∀ v w, adjacent (rm_graph rm) v w ↔ structuralLink pre v w)
    ∧ (∀ k, k ∈ (rm_graph rm).*1 ↔ ∃ w, structuralLink pre k w))).
  - simpl. split_and!.
    + apply Components.wf_empty.
    + intros v w. split.
      * intros Hvw. by apply elem_of_nil in Hvw.
      * intros (r & Hr & _). by apply elem_of_nil in Hr.
    + intros k. split.
      * intros Hk. by apply elem_of_nil in Hk.
      * intros (w & r & Hr & _). by apply elem_of_nil in Hr.
  - intros pre r rm _ (Hwf & Hadj & Hkeys).
    rewrite firstPassStep_graph.
    destruct (decide (r_relationType r ∈ softTypes)) as [Hty|Hty].
    + split_and!; [done| |].
      * intros v w. rewrite structuralLink_snoc, Hadj. tauto.
      * intros k. rewrite Hkeys. split.
        -- intros [w Hw]. exists w. apply structuralLink_snoc. by left.
        -- intros [w Hw]. exists w. apply structuralLink_snoc in Hw. tauto.
    + split_and!.
      * by apply Components.wf_addEdge.
      * intros v w. rewrite structuralLink_snoc, Components.adjacent_addEdge, Hadj.
        unfold joins. intuition.
      * intros k. rewrite Components.elem_of_keys_addEdge, Hkeys. split.
        -- intros [[w Hw]|[->| ->]].
           ++ exists w. apply structuralLink_snoc. by left.
           ++ exists (r_targetAnimeId r). apply structuralLink_snoc. right.
              unfold joins. auto.
           ++ exists (r_sourceAnimeId r). apply structuralLink_snoc. right.
              unfold joins. auto.
        -- intros [w [Hw|[_ [[<- _]|[_ <-]]]]%structuralLink_snoc]; eauto.
Qed.

Lemma path_rtc relations v w :
  path (rm_graph (firstPass relations)) v w ↔ rtc (structuralLink relations) v w.
Proof.
  destruct (firstPass_graph relations) as (_ & Hadj & _). split.
  - induction 1 as [|a b c Hab Hbc IH]; [apply rtc_refl|].
    eapply rtc_l; [|exact IH]. by apply Hadj.
  - induction 1 as [|a b c Hab Hbc IH]; [apply path_refl|].
    eapply path_step; [|exact IH]. by apply Hadj.
Qed.

Local Abbreviation seriesData := (processSeriesData strToNumber parseDate).
Local Abbreviation mainCl := (mainCluster strToNumber parseDate).

Lemma main_cluster_group series animeMap m :
  m ∈ res_main (seriesData series animeMap) →
  ∃ index group,
    group ∈ Graph.findConnectedGroups (rm_graph (firstPass (g_relations series)))
    ∧ m = mainCl series animeMap index group.
Proof.
  destruct (processSeriesData_clusters strToNumber parseDate series animeMap
              (λ _, True)) as [Hmain _].
  simpl in Hmain. rewrite Hmain.
  intros ([index group] & -> & Hin)%list_elem_of_fmap.
  exists index, group. split; [|done].
  apply list_elem_of_lookup in Hin as [i Hi].
  apply list_lookup_imap_Some in Hi as (group' & Hg & [= _ ->]).
  by eapply list_elem_of_lookup_2.
Qed.

Lemma mainAnimeIdsOf_perm series animeMap :
  mainAnimeIdsOf (seriesData series animeMap)
  ≡ₚ concat (Graph.findConnectedGroups (rm_graph (firstPass (g_relations series)))).
Proof.
  destruct (processSeriesData_clusters strToNumber parseDate series animeMap
              (λ _, True)) as [Hmain _].
  simpl in Hmain. unfold mainAnimeIdsOf. rewrite Hmain.
  generalize (Graph.findConnectedGroups (rm_graph (firstPass (g_relations series)))).
  intros groups.
  assert (H : ∀ j : nat → list JsVal → nat * list JsVal,
            (∀ i g, (j i g).2 = g) →
            ((λ ig : nat * list JsVal, mainCl series animeMap ig.1 ig.2)
               <$> imap j groups) ≫= m_animeIds ≡ₚ concat groups).
  { induction groups as [|group groups IH]; intros j Hj; [done|].
    rewrite imap_cons, fmap_cons, bind_cons. simpl.
    apply Permutation_app.
    - rewrite Hj. apply sortVals_perm.
    - apply IH. intros i g. apply Hj. }
  by apply H.
Qed.

(** X4: two ids are members of the same MAIN cluster exactly when a chain
    of structural links joins them. *)
Theorem main_clusters_are_link_components series animeMap m v w :
  m ∈ res_main (seriesData series animeMap) →
  v ∈ m_animeIds m →
  (w ∈ m_animeIds m ↔ rtc (structuralLink (g_relations series)) v w).
Proof.
  intros Hm Hv.
  destruct (main_cluster_group series animeMap m Hm) as (index & group & Hg & ->).
  simpl in *. rewrite sortVals_perm in Hv. rewrite sortVals_perm.
  destruct (firstPass_graph (g_relations series)) as (Hwf & _ & _).
  destruct (Components.findConnectedGroups_spec _ Hwf) as (_ & _ & Hcomp).
  rewrite Forall_forall in Hcomp.
  destruct (Hcomp group Hg) as (start & Hstart & Hgroup).
  rewrite <- path_rtc, Hgroup.
  apply Hgroup in Hv. split.
  - intros Hw. eapply Components.path_trans; [|exact Hw].
    by apply Components.path_sym.
  - intros Hw. eapply Components.path_trans; [exact Hv|exact Hw].
Qed.

(** X5: the MAIN clusters of a group partition the ids that occur in a
    structural relation. *)
Theorem main_clusters_partition series animeMap :
  NoDup (mainAnimeIdsOf (seriesData series animeMap))
  ∧ ∀ x, x ∈ mainAnimeIdsOf (seriesData series animeMap)
         ↔ ∃ w, structuralLink (g_relations series) x w.
Proof.
  destruct (firstPass_graph (g_relations series)) as (Hwf & _ & Hkeys).
  destruct (Components.findConnectedGroups_spec _ Hwf) as (Hnd & Hcover & _).
  split.
  - by rewrite mainAnimeIdsOf_perm.
  - intros x. by rewrite mainAnimeIdsOf_perm, Hcover, Hkeys.
Qed.

End main_components.

(** ** What [sort] gives for a consistent comparator *)

Section sort_facts.
Context {A : Type} (cmp : A → A → option Z) (R : A → A → Prop).
Hypothesis R_trans : ∀ a b c, R a b → R b c → R a c.

Lemma sort_insert_sorted x l :
  (∀ y, y ∈ l → if cmp_le cmp x y then R x y else R y x) →
  StronglySorted R l →
  StronglySorted R (sort_insert cmp x l).
Proof.
  induction l as [|y l IH]; intros Hx Hs; simpl.
  - apply SSorted_cons; [apply SSorted_nil|apply Forall_nil_2].
  - apply StronglySorted_inv in Hs as [Hs Hy].
    pose proof (Hx y (list_elem_of_here _ _)) as Hxy.
    destruct (cmp_le cmp x y).
    + apply SSorted_cons; [by apply SSorted_cons|].
      apply Forall_cons. split; [done|].
      eapply Forall_impl; [exact Hy|]. intros z Hz. by eapply R_trans.
    + apply SSorted_cons.
      * apply IH; [|done]. intros z Hz. apply Hx. by right.
      * apply Forall_forall. intros z Hz.
        rewrite sort_insert_perm in Hz.
        apply elem_of_cons in Hz as [->|Hz]; [done|].
        rewrite Forall_forall in Hy. by apply Hy.
Qed.

Lemma sort_stable_sorted l :
  (∀ x y, x ∈ l → y ∈ l → if cmp_le cmp x y then R x y else R y x) →
  StronglySorted R (sort_stable cmp l).
Proof.
  induction l as [|x l IH]; intros Hl; simpl.
  - apply SSorted_nil.
  - apply sort_insert_sorted.
    + intros y Hy. rewrite sort_stable_perm in Hy.
      apply Hl; [apply list_elem_of_here|by right].
    + apply IH. intros a b Ha Hb. apply Hl; by right.
Qed.
End sort_facts.

Lemma sortVals_sorted cmp (R : JsVal → JsVal → Prop) l :
  (∀ a b c, R a b → R b c → R a c) →
  JUndef ∉ l →
  (∀ x y, x ∈ l → y ∈ l → if cmp_le cmp x y then R x y else R y x) →
  StronglySorted R (sortVals cmp l).
Proof.
  intros Htrans Hundef Hl. unfold sortVals.
  assert (filter (λ v, v = JUndef) l = []) as ->.
  { clear Hl. induction l as [|z l IH]; [done|].
    apply not_elem_of_cons in Hundef as [Hz Hl].
    rewrite filter_cons, decide_False by done. by apply IH. }
  rewrite app_nil_r. apply sort_stable_sorted; [done|].
  intros x y [_ Hx]%list_elem_of_filter [_ Hy]%list_elem_of_filter. by apply Hl.
Qed.

Lemma StronglySorted_head {A} (R : A → A → Prop) l x y :
  StronglySorted R l → head l = Some x → y ∈ l → x = y ∨ R x y.
Proof.
  destruct l as [|z l]; [done|]. simpl. intros Hs [= ->] Hy.
  apply StronglySorted_inv in Hs as [_ Hall].
  apply elem_of_cons in Hy as [->|Hy]; [by left|].
  right. rewrite Forall_forall in Hall. by apply Hall.
Qed.

Section order_facts.
Variable strToNumber : string → option Z.
Variable parseDate : string → option Z.

Local Abbreviation numberOf := (toNumber strToNumber).
Local Abbreviation byNumber := (numCmp strToNumber).
Local Abbreviation numOrder := (numLe strToNumber).

Lemma numLe_trans a b c : numOrder a b → numOrder b c → numOrder a c.
Proof.
  unfold numLe.
  destruct (numberOf a), (numberOf b), (numberOf c); try done. lia.
Qed.

Lemma numCmp_numLe x y :
  is_Some (numberOf x) → is_Some (numberOf y) →
  if cmp_le byNumber x y then numOrder x y else numOrder y x.
Proof.
  intros [a Ha] [b Hb]. unfold cmp_le, numCmp, numLe. rewrite Ha, Hb.
  destruct (bool_decide (a - b ≤ 0)) eqn:Hd.
  - apply bool_decide_eq_true_1 in Hd. lia.
  - apply bool_decide_eq_false_1 in Hd. lia.
Qed.

Lemma sortVals_numCmp_sorted l :
  (∀ x, x ∈ l → is_Some (numberOf x)) →
  StronglySorted numOrder (sortVals byNumber l).
Proof.
  intros Hl. apply sortVals_sorted.
  - apply numLe_trans.
  - intros Hu. by destruct (Hl _ Hu).
  - intros x y Hx Hy. apply numCmp_numLe; by apply Hl.
Qed.

End order_facts.

(** ** The name of a cluster *)

Section name_facts.
Variable strToNumber : string → option Z.
Variable parseDate : string → option Z.
Variable animeMap : gmap string Anime.

Local Abbreviation dateOf := (releaseDate parseDate animeMap).
Local Abbreviation byDate := (dateLe parseDate animeMap).
Local Abbreviation oldest := (oldestCmp strToNumber parseDate animeMap).
Local Abbreviation seriesNameOf := (getSeriesNameFromOldestAnime strToNumber parseDate).

Lemma dateLe_trans a b c : byDate a b → byDate b c → byDate a c.
Proof.
  unfold dateLe. destruct (dateOf a), (dateOf b), (dateOf c); try done. lia.
Qed.

Lemma oldestCmp_dateLe x y :
  is_Some (dateOf x) → is_Some (dateOf y) →
  if cmp_le oldest x y then byDate x y else byDate y x.
Proof.
  intros [a Ha] [b Hb]. unfold cmp_le, dateLe.
  rewrite oldestCmp_resolverCmp. unfold resolverCmp. rewrite Ha, Hb.
  destruct (bool_decide (a - b ≤ 0)) eqn:Hd.
  - apply bool_decide_eq_true_1 in Hd. lia.
  - apply bool_decide_eq_false_1 in Hd. lia.
Qed.

Lemma oldestCmp_no_record x y :
  animeMap !! jsStr x = None → animeMap !! jsStr y = None →
  oldest x y = numCmp strToNumber x y.
Proof. intros Hx Hy. unfold oldestCmp. by rewrite Hx. Qed.

(** The first of the sorted ids, for a non-empty list. *)
Lemma sortVals_head cmp ids :
  ids ≠ [] → ∃ o, head (sortVals cmp ids) = Some o ∧ o ∈ ids.
Proof.
  intros Hne. pose proof (sortVals_perm cmp ids) as Hperm.
  destruct (sortVals cmp ids) as [|o rest] eqn:Hs.
  - apply Permutation_nil in Hperm. done.
  - exists o. split; [done|]. rewrite <- Hperm. apply list_elem_of_here.
Qed.

Lemma getSeriesName_head ids o :
  ids ≠ [] → head (sortVals oldest ids) = Some o →
  seriesNameOf ids animeMap =
  match animeMap !! jsStr o with
  | None => "Series " +:+ jsStr o
  | Some a => strOrD (strOr (a_title_romaji a) (a_title a)) ("Series " +:+ jsStr o)
  end.
Proof.
  intros Hne Ho. unfold getSeriesNameFromOldestAnime.
  destruct ids as [|i ids]; [done|]. by rewrite Ho.
Qed.

(** X14: when every member has a record with a valid start date, the
    cluster is named after a member of earliest start date. *)
Theorem named_after_earliest_start_date ids :
  ids ≠ [] → JUndef ∉ ids →
  (∀ x, x ∈ ids → is_Some (dateOf x)) →
  ∃ o a,
    o ∈ ids ∧ animeMap !! jsStr o = Some a
    ∧ seriesNameOf ids animeMap
      = strOrD (strOr (a_title_romaji a) (a_title a)) ("Series " +:+ jsStr o)
    ∧ ∀ y, y ∈ ids → byDate o y.
Proof.
  intros Hne Hundef Hdated.
  destruct (sortVals_head oldest ids Hne) as (o & Ho & Hin).
  assert (Hs : StronglySorted byDate (sortVals oldest ids)).
  { apply sortVals_sorted; [apply dateLe_trans|done|].
    intros x y Hx Hy. apply oldestCmp_dateLe; by apply Hdated. }
  destruct (Hdated o Hin) as [d Hd].
  assert (∃ a, animeMap !! jsStr o = Some a) as [a Ha].
  { unfold releaseDate in Hd. destruct (animeMap !! jsStr o) as [a|]; [by exists a|done]. }
  exists o, a. split_and!; [done|done| |].
  - rewrite (getSeriesName_head ids o Hne Ho). by rewrite Ha.
  - intros y Hy.
    destruct (StronglySorted_head byDate _ o y Hs Ho) as [<-|Hle];
      [by rewrite sortVals_perm| |done].
    unfold dateLe. rewrite Hd. lia.
Qed.

(** X15: when no member has a record, the cluster is named
    [Series <id>] after a member of smallest numeric id. *)
Theorem named_after_smallest_id ids :
  ids ≠ [] →
  (∀ x, x ∈ ids → animeMap !! jsStr x = None) →
  (∀ x, x ∈ ids → is_Some (toNumber strToNumber x)) →
  ∃ o, o ∈ ids
       ∧ seriesNameOf ids animeMap = "Series " +:+ jsStr o
       ∧ ∀ y, y ∈ ids → numLe strToNumber o y.
Proof.
  intros Hne Hnone Hnum.
  destruct (sortVals_head oldest ids Hne) as (o & Ho & Hin).
  assert (Hs : StronglySorted (numLe strToNumber) (sortVals oldest ids)).
  { apply sortVals_sorted; [apply numLe_trans| |].
    - intros Hu. by destruct (Hnum _ Hu).
    - intros x y Hx Hy. unfold cmp_le.
      rewrite oldestCmp_no_record by (by apply Hnone).
      apply (numCmp_numLe strToNumber x y); by apply Hnum. }
  exists o. split_and!; [done| |].
  - rewrite (getSeriesName_head ids o Hne Ho). by rewrite (Hnone o Hin).
  - intros y Hy.
    destruct (StronglySorted_head (numLe strToNumber) _ o y Hs Ho) as [<-|Hle];
      [by rewrite sortVals_perm| |done].
    destruct (Hnum o Hin) as [n Hn]. unfold numLe. rewrite Hn. lia.
Qed.

End name_facts.

(** ** The scan of a main group *)

Lemma foldl_nested {A B C} (f : B → A → C → A) (acc : A) (l : list B)
    (rs : B → list C) :
  foldl (λ acc a, foldl (f a) acc (rs a)) acc l
  = foldl (λ acc (p : B * C), f p.1 acc p.2) acc (l ≫= λ a, pair a <$> rs a).
Proof.
  revert acc. induction l as [|a l IH]; intros acc; [done|].
  rewrite bind_cons, foldl_app, foldl_fmap. simpl. apply IH.
Qed.

Lemma elem_of_pairs {B C} (l : list B) (rs : B → list C) (a : B) (r : C) :
  (a, r) ∈ l ≫= (λ a, pair a <$> rs a) ↔ a ∈ l ∧ r ∈ rs a.
Proof.
  rewrite list_elem_of_bind. split.
  - intros (b & (r' & [= -> ->] & Hr)%list_elem_of_fmap & Hb). done.
  - intros [Ha Hr]. exists a. split; [|done]. apply list_elem_of_fmap. by exists r.
Qed.

Section scan_facts.
Variable group : list JsVal.

Lemma scanned_snoc pre a r T x :
  scanned group (pre ++ [(a, r)]) T x ↔
  scanned group pre T x ∨ ((x ∉ group) ∧ T (r_relationType r) ∧ joins r a x).
Proof.
  unfold scanned. split.
  - intros (Hx & a' & r' & [Hin|Heq%list_elem_of_singleton]%elem_of_app & HT & Hj).
    + left. split; [done|]. by exists a', r'.
    + injection Heq as -> ->. by right.
  - intros [(Hx & a' & r' & Hin & HT & Hj)|(Hx & HT & Hj)].
    + split; [done|]. exists a', r'. split; [|done]. apply elem_of_app. by left.
    + split; [done|]. exists a, r. split; [|done]. apply elem_of_app. right.
      apply list_elem_of_here.
Qed.

Lemma joins_otherId a r x :
  a ∈ group → x ∉ group →
  joins r a x ↔
  (r_sourceAnimeId r = a ∨ r_targetAnimeId r = a)
  ∧ x = otherIdOf a r.
Proof.
  intros Ha Hx. unfold joins, otherIdOf.
  destruct (decide (r_sourceAnimeId r = a)) as [Hs|Hs].
  - split.
    + intros [[_ <-]|[Hsx _]]; [auto|]. exfalso. apply Hx. congruence.
    + intros [_ ->]. auto.
  - split.
    + intros [[? _]|[<- ?]]; [done|auto].
    + intros [[?|?] ->]; [done|auto].
Qed.

Lemma scanned_add (T : string → Prop) pre a r old :
  a ∈ group →
  (∀ x, x ∈ old ↔ scanned group pre T x) →
  T (r_relationType r) →
  r_sourceAnimeId r = a ∨ r_targetAnimeId r = a →
  otherIdOf a r ∉ group →
  ∀ x, x ∈ set_add (otherIdOf a r) old
       ↔ scanned group (pre ++ [(a, r)]) T x.
Proof.
  intros Ha Hold HT Hend Hout x.
  rewrite elem_of_set_add, scanned_snoc, Hold. split.
  - intros [?| ->]; [by left|]. right. split_and!; [done|done|].
    by apply joins_otherId.
  - intros [?|(Hx & _ & Hj)]; [by left|]. right.
    by apply joins_otherId in Hj as [_ ?].
Qed.

Lemma scanned_keep (T : string → Prop) pre a r (old : list JsVal) :
  a ∈ group →
  (∀ x, x ∈ old ↔ scanned group pre T x) →
  ¬ (T (r_relationType r)
     ∧ (r_sourceAnimeId r = a ∨ r_targetAnimeId r = a)
     ∧ ¬ (otherIdOf a r ∈ group)) →
  ∀ x, x ∈ old ↔ scanned group (pre ++ [(a, r)]) T x.
Proof.
  intros Ha Hold Hnot x. rewrite scanned_snoc, Hold. split; [by left|].
  intros [?|(Hx & HT & Hj)]; [done|]. exfalso. apply Hnot.
  apply joins_otherId in Hj as [Hend ->]; done.
Qed.

Lemma elem_of_specialTypes ty :
  ty ∈ specialTypes ↔ ty = "CHARACTER" ∨ ty = "ADAPTATION" ∨ ty = "SPIN_OFF".
Proof. unfold specialTypes. rewrite !elem_of_cons, elem_of_nil. tauto. Qed.

Lemma scanRelation_sets pre a r acc :
  a ∈ group → setsScanned group pre acc →
  setsScanned group (pre ++ [(a, r)]) (scanRelation group a acc r).
Proof.
  intros Ha (Hc & Had & Hsp & Hot). unfold scanRelation.
  pose proof (elem_of_specialTypes (r_relationType r)) as Hspecial.
  change (if decide (r_sourceAnimeId r = a) then r_targetAnimeId r
          else r_sourceAnimeId r) with (otherIdOf a r).
  set (otherId := otherIdOf a r).
  assert (Hboth : r_sourceAnimeId r = a ∨ r_targetAnimeId r = a →
                  r_sourceAnimeId r ∈ group → r_targetAnimeId r ∈ group →
                  otherId ∈ group).
  { intros _ Hs Ht. subst otherId. unfold otherIdOf. by destruct (decide (r_sourceAnimeId r = a)). }
  assert (Hone : r_sourceAnimeId r = a ∨ r_targetAnimeId r = a →
                 ¬ (r_sourceAnimeId r ∈ group ∧ r_targetAnimeId r ∈ group) →
                 otherId ∉ group).
  { intros Hend Hnb Hin. apply Hnb. subst otherId. unfold otherIdOf in Hin.
    destruct (decide (r_sourceAnimeId r = a)) as [Hs|Hs].
    - split; [by rewrite Hs|done].
    - destruct Hend as [?|Ht]; [done|]. split; [done|by rewrite Ht]. }
  destruct (decide (r_sourceAnimeId r = a ∨ r_targetAnimeId r = a)) as [Hend|Hend].
  2: { split_and!; apply scanned_keep; try done; tauto. }
  destruct (decide (r_relationType r = "CHARACTER")) as [Hty|Hty1].
  { destruct (decide (otherId ∈ group)) as [Hin|Hout]; simpl.
    - split_and!; apply scanned_keep; try done; tauto.
    - split_and!; [by apply scanned_add|apply scanned_keep..]; try done.
      + intros [? _]. congruence.
      + intros [? _]. congruence.
      + tauto. }
  destruct (decide (r_relationType r = "ADAPTATION")) as [Hty|Hty2].
  { destruct (decide (otherId ∈ group)) as [Hin|Hout]; simpl.
    - split_and!; apply scanned_keep; try done; tauto.
    - split_and!; [apply scanned_keep|by apply scanned_add|apply scanned_keep..];
        try done.
      + intros [? _]. congruence.
      + intros [? _]. congruence.
      + tauto. }
  destruct (decide (r_relationType r = "SPIN_OFF")) as [Hty|Hty3].
  { destruct (decide (otherId ∈ group)) as [Hin|Hout]; simpl.
    - split_and!; apply scanned_keep; try done; tauto.
    - split_and!; [apply scanned_keep..|by apply scanned_add|apply scanned_keep];
        try done.
      + intros [? _]. congruence.
      + intros [? _]. congruence.
      + tauto. }
  destruct (decide (r_sourceAnimeId r ∈ group ∧ r_targetAnimeId r ∈ group))
    as [[Hs Ht]|Hnb]; simpl.
  - split_and!; apply scanned_keep; try done.
    + intros [? _]. congruence.
    + intros [? _]. congruence.
    + intros [? _]. congruence.
    + intros (_ & _ & Hout). apply Hout. by apply Hboth.
  - split_and!; [apply scanned_keep..|apply scanned_add]; try done.
    + intros [? _]. congruence.
    + intros [? _]. congruence.
    + intros [? _]. congruence.
    + tauto.
    + by apply Hone.
Qed.

End scan_facts.

Lemma elem_of_set_add_str (x y : string) (l : list string) :
  x ∈ set_add y l ↔ x ∈ l ∨ x = y.
Proof.
  unfold set_add. destruct (decide (y ∈ l)) as [Hy|Hy].
  - split; [by left|]. intros [Hx| ->]; done.
  - rewrite elem_of_app, list_elem_of_singleton. done.
Qed.

Lemma keyedBy_nil Q : keyedBy Q [].
Proof.
  split; [apply NoDup_nil_2|]. intros k r Hin. by apply elem_of_nil in Hin.
Qed.

Lemma keyedBy_set (Q : GroupRel → Prop) u r :
  keyedBy Q u → Q r → keyedBy Q (al_set (relationKey3 r) r u).
Proof.
  intros [Hnd Hu] Hr. split.
  - rewrite al_keys_set. by apply NoDup_set_add.
  - intros k r' [[-> ->]|Hin]%elem_of_al_set; [done|]. by apply Hu.
Qed.

Lemma keyedBy_values (Q : GroupRel → Prop) u :
  keyedBy Q u →
  relationKey3 <$> u.*2 = u.*1 ∧ ∀ r, r ∈ u.*2 → Q r.
Proof.
  intros [_ Hu]. split.
  - induction u as [|[k r] u IH]; [done|].
    rewrite !fmap_cons. simpl. f_equal.
    + symmetry. apply (Hu k r). apply list_elem_of_here.
    + apply IH. intros k' r' Hin. apply Hu. by right.
  - intros r ([k r'] & -> & Hin)%list_elem_of_fmap. by apply (Hu k r').
Qed.

Section main_scan.
Variable strToNumber : string → option Z.
Variable parseDate : string → option Z.

Local Abbreviation mainCl := (mainCluster strToNumber parseDate).
Local Abbreviation seriesData := (processSeriesData strToNumber parseDate).

Lemma scanRelation_relations relations group pre a r acc :
  a ∈ group → r ∈ relations →
  keyedBy (internalRelation relations group) (acc_uniqueRelations acc)
  ∧ (∀ a' r', (a', r') ∈ pre →
       r_sourceAnimeId r' = a' ∨ r_targetAnimeId r' = a' →
       internalRelation relations group r' →
       relationKey3 r' ∈ (acc_uniqueRelations acc).*1) →
  keyedBy (internalRelation relations group)
    (acc_uniqueRelations (scanRelation group a acc r))
  ∧ (∀ a' r', (a', r') ∈ pre ++ [(a, r)] →
       r_sourceAnimeId r' = a' ∨ r_targetAnimeId r' = a' →
       internalRelation relations group r' →
       relationKey3 r' ∈ (acc_uniqueRelations (scanRelation group a acc r)).*1).
Proof.
  intros Ha Hr [Hkeyed Hall].
  assert (Hsame : acc_uniqueRelations (scanRelation group a acc r)
                  = acc_uniqueRelations acc
                  ∧ ¬ ((r_sourceAnimeId r = a ∨ r_targetAnimeId r = a)
                       ∧ internalRelation relations group r)
                  ∨ acc_uniqueRelations (scanRelation group a acc r)
                    = al_set (relationKey3 r) r (acc_uniqueRelations acc)
                    ∧ internalRelation relations group r).
  { unfold scanRelation, internalRelation.
    pose proof (elem_of_specialTypes (r_relationType r)) as Hspecial.
    repeat case_decide; simpl; tauto. }
  destruct Hsame as [[-> Hnot]|[-> Hint]].
  - split; [done|].
    intros a' r' [Hin|[= -> ->]%list_elem_of_singleton]%elem_of_app Hend Hint.
    + by apply (Hall a' r').
    + exfalso. by apply Hnot.
  - split; [by apply keyedBy_set|].
    intros a' r' Hin Hend Hint'. rewrite al_keys_set, elem_of_set_add_str.
    apply elem_of_app in Hin as [Hin|[= -> ->]%list_elem_of_singleton].
    + left. by apply (Hall a' r').
    + by right.
Qed.

(** What the scan of a main group collects. *)
Lemma mainCluster_scan series animeMap index group :
  let m := mainCl series animeMap index group in
  let relations := g_relations series in
  m_animeIds m ≡ₚ group
  ∧ (∀ x, x ∈ m_characterIds m ↔ outsider relations group (eq "CHARACTER") x)
  ∧ (∀ x, x ∈ m_adaptationIds m ↔ outsider relations group (eq "ADAPTATION") x)
  ∧ (∀ x, x ∈ m_spinOffIds m ↔ outsider relations group (eq "SPIN_OFF") x)
  ∧ (∀ x, x ∈ m_otherIds m
          ↔ outsider relations group (λ ty, ¬ (ty ∈ specialTypes)) x)
  ∧ (∀ r, r ∈ m_relations m → internalRelation relations group r)
  ∧ NoDup (relationKey3 <$> m_relations m)
  ∧ (∀ r, internalRelation relations group r →
          relationKey3 r ∈ relationKey3 <$> m_relations m).
Proof.
  intros m relations. subst m. unfold mainCluster. simpl.
  rewrite (foldl_nested _ _ _ (λ _, g_relations series)).
  set (pairs := group ≫= (λ a, pair a <$> g_relations series)).
  set (acc := foldl _ _ pairs).
  assert (HI : setsScanned group pairs acc
    ∧ keyedBy (internalRelation relations group) (acc_uniqueRelations acc)
    ∧ (∀ a' r', (a', r') ∈ pairs →
         r_sourceAnimeId r' = a' ∨ r_targetAnimeId r' = a' →
         internalRelation relations group r' →
         relationKey3 r' ∈ (acc_uniqueRelations acc).*1)).
  { subst acc.
    apply (Components.foldl_invariant_prefix (λ pre acc,
      setsScanned group pre acc
      ∧ keyedBy (internalRelation relations group) (acc_uniqueRelations acc)
      ∧ (∀ a' r', (a', r') ∈ pre →
           r_sourceAnimeId r' = a' ∨ r_targetAnimeId r' = a' →
           internalRelation relations group r' →
           relationKey3 r' ∈ (acc_uniqueRelations acc).*1))).
    - simpl. split_and!.
      + unfold setsScanned, scanned. simpl.
        split_and!; intros x; (split; [intros Hx; by apply elem_of_nil in Hx|]);
          intros (_ & a & r & Hin & _); by apply elem_of_nil in Hin.
      + apply keyedBy_nil.
      + intros a r Hin. by apply elem_of_nil in Hin.
    - intros pre [a r] acc' [Ha Hr]%elem_of_pairs (Hsets & Hrel). simpl.
      split; [by apply scanRelation_sets|].
      by apply (scanRelation_relations relations).  }
  destruct HI as ((Hc & Had & Hsp & Hot) & Hkeyed & Hall).
  assert (Hout : ∀ T x, scanned group pairs T x ↔ outsider relations group T x).
  { intros T x. unfold scanned, outsider. split.
    - intros (Hx & a & r & [Ha Hr]%elem_of_pairs & HT & Hj). split; [done|].
      by exists r, a.
    - intros (Hx & r & a & Hr & HT & Ha & Hj). split; [done|].
      exists a, r. split; [|done]. by apply elem_of_pairs. }
  destruct (keyedBy_values _ _ Hkeyed) as [Hkeys Hvals].
  split_and!.
  - apply sortVals_perm.
  - intros x. by rewrite sortVals_perm, Hc, Hout.
  - intros x. by rewrite sortVals_perm, Had, Hout.
  - intros x. by rewrite sortVals_perm, Hsp, Hout.
  - intros x. by rewrite sortVals_perm, Hot, Hout.
  - intros r. rewrite sort_stable_perm. apply Hvals.
  - rewrite sort_stable_perm, Hkeys. apply Hkeyed.
  - intros r Hint. rewrite sort_stable_perm, Hkeys.
    apply (Hall (r_sourceAnimeId r) r); [|by left|done].
    apply elem_of_pairs. split; [apply Hint|apply Hint].
Qed.

End main_scan.

(** ** The clusters of a group *)

Section cluster_facts.
Variable strToNumber : string → option Z.
Variable parseDate : string → option Z.

Local Abbreviation mainCl := (mainCluster strToNumber parseDate).
Local Abbreviation softCl := (softCluster strToNumber parseDate).
Local Abbreviation seriesData := (processSeriesData strToNumber parseDate).
Local Abbreviation relationGroups := (processRelationGroups strToNumber parseDate).
Local Abbreviation numberOf := (toNumber strToNumber).
Local Abbreviation numOrder := (numLe strToNumber).

Lemma outsider_perm relations members members' T x :
  members ≡ₚ members' →
  outsider relations members T x ↔ outsider relations members' T x.
Proof.
  intros Hp. unfold outsider. rewrite Hp.
  split; intros (Hx & r & a & Hr & HT & Ha & Hj); (split; [done|]);
    exists r, a; split_and!; try done.
  - by rewrite <- Hp.
  - by rewrite Hp.
Qed.

Lemma outsider_ext relations members (T T' : string → Prop) x :
  (∀ r a, r ∈ relations → a ∈ members → x ∉ members → joins r a x →
          T (r_relationType r) ↔ T' (r_relationType r)) →
  outsider relations members T x ↔ outsider relations members T' x.
Proof.
  intros HT. unfold outsider.
  split; intros (Hx & r & a & Hr & Hty & Ha & Hj); (split; [done|]);
    exists r, a; split_and!; try done; by apply (HT r a).
Qed.

Lemma internalRelation_perm relations members members' r :
  members ≡ₚ members' →
  internalRelation relations members r ↔ internalRelation relations members' r.
Proof. intros Hp. unfold internalRelation. by rewrite Hp. Qed.

(** X7: the character, adaptation and spin-off ids of a MAIN cluster are
    the non-members that a relation of that type joins to a member; its
    other ids are the non-members that an OTHER or PARENT relation
    joins to a member. *)
Theorem main_cluster_outside_ids series animeMap m :
  m ∈ res_main (seriesData series animeMap) →
  (∀ x, x ∈ m_characterIds m
        ↔ outsider (g_relations series) (m_animeIds m) (eq "CHARACTER") x)
  ∧ (∀ x, x ∈ m_adaptationIds m
          ↔ outsider (g_relations series) (m_animeIds m) (eq "ADAPTATION") x)
  ∧ (∀ x, x ∈ m_spinOffIds m
          ↔ outsider (g_relations series) (m_animeIds m) (eq "SPIN_OFF") x)
  ∧ (∀ x, x ∈ m_otherIds m
          ↔ outsider (g_relations series) (m_animeIds m)
              (λ ty, ty = "OTHER" ∨ ty = "PARENT") x).
Proof.
  intros Hm.
  destruct (main_cluster_group strToNumber parseDate series animeMap m Hm)
    as (index & group & Hg & ->).
  destruct (mainCluster_scan strToNumber parseDate series animeMap index group)
    as (Hperm & Hc & Had & Hsp & Hot & _).
  split_and!; intros x.
  - rewrite Hc. symmetry. by apply outsider_perm.
  - rewrite Had. symmetry. by apply outsider_perm.
  - rewrite Hsp. symmetry. by apply outsider_perm.
  - rewrite Hot, (outsider_perm _ _ _ _ _ Hperm). apply outsider_ext.
    intros r a Hr Ha Hx Hj. rewrite elem_of_specialTypes. split; [|intros [->| ->]].
    + intros Hns.
      destruct (decide (r_relationType r ∈ softTypes)) as [Hsoft|Hstruct].
      * unfold softTypes in Hsoft. rewrite !elem_of_cons, elem_of_nil in Hsoft. tauto.
      * exfalso. apply Hx.
        destruct (firstPass_graph (g_relations series)) as (Hwf & Hadj & _).
        destruct (Components.findConnectedGroups_spec _ Hwf) as (_ & _ & Hcomp).
        rewrite Forall_forall in Hcomp.
        destruct (Hcomp group Hg) as (start & Hstart & Hgroup).
        apply Hgroup. eapply Components.path_trans; [apply Hgroup; exact Ha|].
        eapply GraphRel.path_step; [|apply GraphRel.path_refl].
        apply Hadj. exists r. split_and!; done.
    + intros [?|[?|?]]; done.
    + intros [?|[?|?]]; done.
Qed.

(** X8: the relations of a MAIN cluster are relations of the group that
    join two members and have no type CHARACTER, ADAPTATION or SPIN_OFF;
    no two of them share a key, and every such relation of the group
    has its key among them. *)
Theorem main_cluster_relations series animeMap m :
  m ∈ res_main (seriesData series animeMap) →
  (∀ r, r ∈ m_relations m → internalRelation (g_relations series) (m_animeIds m) r)
  ∧ NoDup (relationKey3 <$> m_relations m)
  ∧ (∀ r, internalRelation (g_relations series) (m_animeIds m) r →
          relationKey3 r ∈ relationKey3 <$> m_relations m).
Proof.
  intros Hm.
  destruct (main_cluster_group strToNumber parseDate series animeMap m Hm)
    as (index & group & Hg & ->).
  destruct (mainCluster_scan strToNumber parseDate series animeMap index group)
    as (Hperm & _ & _ & _ & _ & Hin & Hnd & Hall).
  split_and!; [|done|].
  - intros r Hr. apply (internalRelation_perm _ _ _ _ Hperm). by apply Hin.
  - intros r Hr. apply Hall. by apply (internalRelation_perm _ _ _ _ Hperm).
Qed.

Lemma sortVals_numCmp_ascending l :
  (∀ x, x ∈ sortVals (numCmp strToNumber) l → is_Some (numberOf x)) →
  StronglySorted numOrder (sortVals (numCmp strToNumber) l).
Proof.
  intros Hl. apply sortVals_numCmp_sorted.
  intros x Hx. apply Hl. by rewrite sortVals_perm.
Qed.

(** What [softCluster] gives an emitted cluster. *)
Lemma softCluster_spec resultKey relationType suffix series animeMap
    mainAnimeIds index group c :
  softCl resultKey relationType suffix series animeMap mainAnimeIds index group
    = Some c →
  c_seriesType c = relationType
  ∧ c_originalSeriesId c = g_seriesId series
  ∧ (∃ l, c_animeIds c = sortVals (numCmp strToNumber) l)
  ∧ (∀ r, r ∈ c_relations c →
          categoryRelation (g_relations series) relationType (c_animeIds c) r)
  ∧ NoDup (relationKey3 <$> c_relations c)
  ∧ (∀ r, categoryRelation (g_relations series) relationType (c_animeIds c) r →
          relationKey3 r ∈ relationKey3 <$> c_relations c).
Proof.
  unfold softCluster.
  set (fg := filter (λ id, id ∉ mainAnimeIds) group).
  destruct (decide (length fg < 2)%nat) as [Hlt|Hge]; [done|].
  intros [= <-]. simpl.
  rewrite (foldl_nested (λ (_ : JsVal) u relation,
             if decide (r_relationType relation = relationType
                        ∧ r_sourceAnimeId relation ∈ fg
                        ∧ r_targetAnimeId relation ∈ fg)
             then al_set (relationKey3 relation) relation u else u)
            _ _ (λ _, g_relations series)).
  set (pairs := fg ≫= (λ a, pair a <$> g_relations series)).
  set (u := foldl _ _ pairs).
  assert (HI : keyedBy (categoryRelation (g_relations series) relationType fg) u
               ∧ ∀ a r, (a, r) ∈ pairs →
                   categoryRelation (g_relations series) relationType fg r →
                   relationKey3 r ∈ u.*1).
  { subst u.
    apply (Components.foldl_invariant_prefix (λ pre u,
      keyedBy (categoryRelation (g_relations series) relationType fg) u
      ∧ ∀ a r, (a, r) ∈ pre →
          categoryRelation (g_relations series) relationType fg r →
          relationKey3 r ∈ u.*1)).
    - split; [apply keyedBy_nil|]. intros a r Hin. by apply elem_of_nil in Hin.
    - intros pre [a r] u' [Ha Hr]%elem_of_pairs [Hkeyed Hall]. simpl.
      destruct (decide (r_relationType r = relationType
                        ∧ r_sourceAnimeId r ∈ fg ∧ r_targetAnimeId r ∈ fg))
        as [Hcat|Hcat].
      + split; [apply keyedBy_set; [done|by split]|].
        intros a' r' Hin Hcat'. rewrite al_keys_set, elem_of_set_add_str.
        apply elem_of_app in Hin as [Hin|[= -> ->]%list_elem_of_singleton].
        * left. by apply (Hall a' r').
        * by right.
      + split; [done|].
        intros a' r' [Hin|[= -> ->]%list_elem_of_singleton]%elem_of_app Hcat'.
        * by apply (Hall a' r').
        * exfalso. apply Hcat. apply Hcat'. }
  destruct HI as [Hkeyed Hall].
  destruct (keyedBy_values _ _ Hkeyed) as [Hkeys Hvals].
  assert (Hcat : ∀ r, categoryRelation (g_relations series) relationType fg r
                      ↔ categoryRelation (g_relations series) relationType
                          (sortVals (numCmp strToNumber) fg) r).
  { intros r. unfold categoryRelation. by rewrite sortVals_perm. }
  split_and!; try done.
  - by exists fg.
  - intros r Hr. apply Hcat. apply Hvals. by rewrite sort_stable_perm in Hr.
  - rewrite sort_stable_perm, Hkeys. apply Hkeyed.
  - intros r Hr%Hcat. rewrite sort_stable_perm, Hkeys.
    destruct fg as [|a fg'] eqn:Hfg; [simpl in Hge; lia|].
    apply (Hall a r); [|done].
    apply elem_of_pairs. split; [apply list_elem_of_here|apply Hr].
Qed.

(** X10: the relations of a cluster of a category are the relations of
    the group of that type that join two of its members, one for each
    key. *)
Theorem soft_cluster_relations series animeMap key clusters c :
  res_soft (seriesData series animeMap) !! key = Some clusters →
  c ∈ clusters →
  c_originalSeriesId c = g_seriesId series
  ∧ (∀ r, r ∈ c_relations c →
          categoryRelation (g_relations series) (c_seriesType c) (c_animeIds c) r)
  ∧ NoDup (relationKey3 <$> c_relations c)
  ∧ (∀ r, categoryRelation (g_relations series) (c_seriesType c) (c_animeIds c) r →
          relationKey3 r ∈ relationKey3 <$> c_relations c).
Proof.
  intros Hk Hc.
  destruct (processSeriesData_clusters strToNumber parseDate series animeMap
    (λ c, c_originalSeriesId c = g_seriesId series
      ∧ (∀ r, r ∈ c_relations c →
              categoryRelation (g_relations series) (c_seriesType c) (c_animeIds c) r)
      ∧ NoDup (relationKey3 <$> c_relations c)
      ∧ (∀ r, categoryRelation (g_relations series) (c_seriesType c) (c_animeIds c) r →
              relationKey3 r ∈ relationKey3 <$> c_relations c))) as [_ Hall].
  destruct Hall as [_ Hsoft]; [|by eapply Hsoft].
  intros resultKey relationType suffix index group c' Hc'.
  apply softCluster_spec in Hc' as (-> & Horig & _ & Hin & Hnd & Hcomplete).
  done.
Qed.

(** X12: an id list of a cluster whose ids are all numbers is in ascending
    numeric order. *)
Theorem cluster_id_lists_ascending series animeMap ids :
  (∃ m, m ∈ res_main (seriesData series animeMap)
        ∧ ids ∈ [m_animeIds m; m_otherIds m; m_characterIds m;
                 m_adaptationIds m; m_spinOffIds m])
  ∨ (∃ key clusters c,
       res_soft (seriesData series animeMap) !! key = Some clusters
       ∧ c ∈ clusters ∧ ids = c_animeIds c) →
  (∀ x, x ∈ ids → is_Some (numberOf x)) →
  StronglySorted numOrder ids.
Proof.
  intros [(m & Hm & Hids)|(key & clusters & c & Hk & Hc & ->)].
  - destruct (main_cluster_group strToNumber parseDate series animeMap m Hm)
      as (index & group & Hg & ->).
    unfold mainCluster in Hids. simpl in Hids.
    rewrite !elem_of_cons, elem_of_nil in Hids.
    destruct Hids as [->|[->|[->|[->|[->|[]]]]]]; apply sortVals_numCmp_ascending.
  - destruct (processSeriesData_clusters strToNumber parseDate series animeMap
      (λ c, (∀ x, x ∈ c_animeIds c → is_Some (numberOf x)) →
            StronglySorted numOrder (c_animeIds c))) as [_ Hall].
    destruct Hall as [_ Hsoft]; [|by eapply Hsoft].
    intros resultKey relationType suffix index group c' Hc'.
    apply softCluster_spec in Hc' as (_ & _ & [l ->] & _).
    apply sortVals_numCmp_ascending.
Qed.

End cluster_facts.

(** ** The keys of [results] and the output lists *)

Section key_facts.
Variable strToNumber : string → option Z.
Variable parseDate : string → option Z.

Local Abbreviation softCl := (softCluster strToNumber parseDate).
Local Abbreviation seriesData := (processSeriesData strToNumber parseDate).
Local Abbreviation relationGroups := (processRelationGroups strToNumber parseDate).
Local Abbreviation split := (advancedSeriesSplit strToNumber parseDate).

Lemma soft_keyed_push key c results :
  soft_keyed results →
  key = toLowerCase (c_seriesType c) → c_seriesType c ∈ softTypes →
  soft_keyed (pushSoft key c results).
Proof.
  intros Hres Hkey Hty key' cs c' Hlook Hin. simpl in Hlook.
  destruct (decide (key = key')) as [<-|Hne].
  - rewrite lookup_insert_eq in Hlook. injection Hlook as <-.
    apply elem_of_app in Hin as [Hin|Hin].
    + destruct (res_soft results !! key) as [cs0|] eqn:Hk; simpl in Hin.
      * by eapply Hres.
      * by apply not_elem_of_nil in Hin.
    + by apply list_elem_of_singleton in Hin as ->.
  - rewrite lookup_insert_ne in Hlook by done. by eapply Hres.
Qed.

Lemma soft_keyed_softCluster results relationType suffix series animeMap
    mainAnimeIds index group :
  soft_keyed results → relationType ∈ softTypes →
  soft_keyed
    match softCl (toLowerCase relationType) relationType suffix series animeMap
            mainAnimeIds index group with
    | Some c => pushSoft (toLowerCase relationType) c results
    | None => results
    end.
Proof.
  intros Hres Hty.
  destruct (softCl _ _ _ _ _ _ _ _) as [c|] eqn:Hc; [|done].
  apply softCluster_spec in Hc as (Htype & _).
  apply soft_keyed_push; [done|by rewrite Htype|by rewrite Htype].
Qed.

Lemma soft_keyed_processRelationGroups groups relationType series results animeMap :
  soft_keyed results → relationType ∈ softTypes →
  soft_keyed (relationGroups groups relationType series results animeMap).
Proof.
  intros Hres Hty. unfold processRelationGroups.
  set (results' := match res_soft results !! toLowerCase relationType with
                   | Some _ => results
                   | None => _
                   end).
  assert (soft_keyed results') as Hres'.
  { subst results'. destruct (res_soft results !! toLowerCase relationType) eqn:Hk;
      [done|].
    intros key cs c Hlook Hin. simpl in Hlook.
    destruct (decide (toLowerCase relationType = key)) as [<-|Hne].
    - rewrite lookup_insert_eq in Hlook. injection Hlook as <-.
      by apply not_elem_of_nil in Hin.
    - rewrite lookup_insert_ne in Hlook by done. by eapply Hres. }
  generalize (mainAnimeIdsOf results'). intros mainAnimeIds.
  apply foldl_invariant; [done|].
  intros r [index group] Hr. by apply soft_keyed_softCluster.
Qed.

Lemma soft_keyed_processSeriesData series animeMap :
  soft_keyed (seriesData series animeMap).
Proof.
  unfold processSeriesData.
  set (results1 := foldl _ emptyResults _).
  assert (soft_keyed results1) as H1.
  { subst results1. apply foldl_invariant.
    - intros key cs c Hlook Hin. simpl in Hlook.
      assert (cs = []) as ->.
      { revert Hlook. clear.
        rewrite !lookup_insert. repeat case_decide; rewrite ?lookup_empty; congruence. }
      by apply not_elem_of_nil in Hin.
    - intros r ig Hr. exact Hr. }
  set (results2 := foldl _ results1 _).
  assert (soft_keyed results2) as H2.
  { subst results2. apply foldl_invariant; [done|].
    intros r [index group] Hr.
    apply (soft_keyed_softCluster r "CHARACTER"); [done|].
    apply list_elem_of_here. }
  apply soft_keyed_processRelationGroups;
    [apply soft_keyed_processRelationGroups;
       [apply soft_keyed_processRelationGroups;
          [apply soft_keyed_processRelationGroups; [done|]|]|]|];
    unfold softTypes; rewrite !elem_of_cons; tauto.
Qed.

Lemma softTypes_key ty :
  ty ∈ softTypes →
  toLowerCase ty ≠ "spinOff"
  ∧ ∀ ty', ty' ∈ ["CHARACTER"; "ADAPTATION"; "OTHER"; "PARENT"] →
           toLowerCase ty = toLowerCase ty' → ty = ty'.
Proof.
  unfold softTypes. rewrite !elem_of_cons, elem_of_nil.
  intros [->|[->|[->|[->|[->|[]]]]]]; (split; [done|]); intros ty';
    rewrite !elem_of_cons, elem_of_nil;
    intros [->|[->|[->|[->|[]]]]]; done.
Qed.

Lemma softOf_category series animeMap key c :
  c ∈ softOf (seriesData series animeMap) key →
  key = toLowerCase (c_seriesType c) ∧ c_seriesType c ∈ softTypes.
Proof.
  unfold softOf. intros Hc.
  destruct (res_soft (seriesData series animeMap) !! key) as [cs|] eqn:Hk.
  - by eapply soft_keyed_processSeriesData.
  - by apply elem_of_nil in Hc.
Qed.

(** X11: a cluster sits under the lower-cased name of its category, which
    is one of CHARACTER, ADAPTATION, SPIN_OFF, OTHER and PARENT. *)
Theorem soft_cluster_key series animeMap key clusters c :
  res_soft (seriesData series animeMap) !! key = Some clusters →
  c ∈ clusters →
  key = toLowerCase (c_seriesType c) ∧ c_seriesType c ∈ softTypes.
Proof. apply soft_keyed_processSeriesData. Qed.

(** X13: the output lists hold clusters of their own category, and the
    spin-off list is always empty: the SPIN_OFF clusters of a group are
    stored under the key [spin_off], which the output does not read. *)
Theorem output_lists_by_category seriesDb animeMap :
  let out := split seriesDb animeMap in
  Forall (λ c, c_seriesType c = "CHARACTER") (out_character out)
  ∧ Forall (λ c, c_seriesType c = "ADAPTATION") (out_adaptation out)
  ∧ Forall (λ c, c_seriesType c = "OTHER") (out_other out)
  ∧ Forall (λ c, c_seriesType c = "PARENT") (out_parent out)
  ∧ out_spinOff out = [].
Proof.
  unfold advancedSeriesSplit. apply foldl_invariant.
  - simpl. split_and!; done.
  - intros out series (Hc & Ha & Ho & Hp & Hs). simpl.
    assert (Hcat : ∀ key ty, ty ∈ ["CHARACTER"; "ADAPTATION"; "OTHER"; "PARENT"] →
              key = toLowerCase ty →
              Forall (λ c, c_seriesType c = ty)
                (softOf (seriesData series animeMap) key)).
    { intros key ty Hty -> . apply Forall_forall. intros c Hin.
      apply softOf_category in Hin as [Hkey Hsoft].
      destruct (softTypes_key _ Hsoft) as [_ Hty']. by apply Hty'. }
    split_and!.
    + apply Forall_app. split; [done|]. apply (Hcat _ "CHARACTER"); [|done].
      rewrite !elem_of_cons; tauto.
    + apply Forall_app. split; [done|]. apply (Hcat _ "ADAPTATION"); [|done].
      rewrite !elem_of_cons; tauto.
    + apply Forall_app. split; [done|]. apply (Hcat _ "OTHER"); [|done].
      rewrite !elem_of_cons; tauto.
    + apply Forall_app. split; [done|]. apply (Hcat _ "PARENT"); [|done].
      rewrite !elem_of_cons; tauto.
    + rewrite Hs. simpl.
      destruct (softOf (seriesData series animeMap) "spinOff") as [|c cs] eqn:Hso;
        [done|].
      assert (Hin : c ∈ softOf (seriesData series animeMap) "spinOff").
      { rewrite Hso. apply list_elem_of_here. }
      apply softOf_category in Hin as [Hkey Hsoft].
      exfalso. destruct (softTypes_key _ Hsoft) as [Hne _]. by apply Hne.
Qed.

(** X6: the MAIN clusters of one group have pairwise distinct ids. *)
Theorem main_cluster_ids_distinct series animeMap :
  NoDup (m_seriesId <$> res_main (seriesData series animeMap)).
Proof.
  destruct (processSeriesData_clusters strToNumber parseDate series animeMap
              (λ _, True)) as [Hmain _].
  simpl in Hmain. rewrite Hmain.
  generalize (Graph.findConnectedGroups (rm_graph (firstPass (g_relations series)))).
  intros groups. rewrite <- list_fmap_compose.
  assert (Hinj : ∀ l : list (nat * list JsVal), NoDup l.*1 →
            NoDup ((m_seriesId ∘ (λ ig : nat * list JsVal,
                      mainCluster strToNumber parseDate series animeMap ig.1 ig.2))
                   <$> l)).
  { induction l as [|[i g] l IH]; [intros _; apply NoDup_nil_2|].
    rewrite !fmap_cons. simpl. intros [Hi Hnd]%NoDup_cons.
    apply NoDup_cons. split; [|by apply IH].
    intros ([j g'] & Heq & Hin)%list_elem_of_fmap. simpl in Heq.
    apply Hi. apply list_elem_of_fmap. exists (j, g'). split; [|done]. simpl.
    apply (inj (String.app "series_")) in Heq.
    apply (inj (String.app (g_seriesId series))) in Heq.
    apply (inj (String.app "_")) in Heq.
    apply (inj pretty) in Heq. by injection Heq. }
  apply Hinj.
  assert (H : ∀ (l : list (list JsVal)) k, (imap (λ i, pair (k + i)%nat) l).*1 = seq k (length l)).
  { induction l as [|x l IH]; intros k; [done|].
    rewrite imap_cons, fmap_cons. simpl. f_equal; [lia|].
    rewrite <- (IH (S k)). f_equal. apply imap_ext. intros i y _. simpl. f_equal. lia. }
  rewrite (imap_ext _ (λ i, pair (0 + i)%nat)) by done.
  rewrite H. apply NoDup_seq.
Qed.

End key_facts.

(** ** The clusters of a category are components of its relations *)

Module MapComponents.
Import Graph GraphRel.

Lemma edges_graph (edges : list (JsVal * JsVal)) :
  let g := foldl (λ g p, addEdge p.1 p.2 g) empty edges in
  wf g
  ∧ (∀ v w, adjacent g v w
            ↔ ∃ p, p ∈ edges ∧ ((p.1 = v ∧ p.2 = w) ∨ (p.1 = w ∧ p.2 = v)))
  ∧ (∀ k, k ∈ g.*1 ↔ ∃ w, adjacent g k w).
Proof.
  apply (Components.foldl_invariant_prefix (λ pre g,
    wf g
    ∧ (∀ v w, adjacent g v w
              ↔ ∃ p, p ∈ pre ∧ ((p.1 = v ∧ p.2 = w) ∨ (p.1 = w ∧ p.2 = v)))
    ∧ (∀ k, k ∈ g.*1 ↔ ∃ w, adjacent g k w))).
  - split_and!.
    + apply Components.wf_empty.
    + intros v w. split.
      * intros Hvw. by apply elem_of_nil in Hvw.
      * intros (p & Hp & _). by apply elem_of_nil in Hp.
    + intros k. split.
      * intros Hk. by apply elem_of_nil in Hk.
      * intros (w & Hw). by apply elem_of_nil in Hw.
  - intros pre [s t] g _ (Hwf & Hadj & Hkeys). simpl. split_and!.
    + by apply Components.wf_addEdge.
    + intros v w. rewrite Components.adjacent_addEdge, Hadj. split.
      * intros [(p & Hp & Hends)|Hnew].
        -- exists p. split; [|done]. apply elem_of_app. by left.
        -- exists (s, t). split; [|simpl; intuition congruence]. apply elem_of_app. right.
           apply list_elem_of_here.
      * intros (p & [Hp|Hp%list_elem_of_singleton]%elem_of_app & Hends).
        -- left. by exists p.
        -- subst p. simpl in Hends. intuition congruence.
    + intros k. rewrite Components.elem_of_keys_addEdge, Hkeys. split.
      * intros [[w Hw]|[->| ->]].
        -- exists w. apply Components.adjacent_addEdge. by left.
        -- exists t. apply Components.adjacent_addEdge. auto.
        -- exists s. apply Components.adjacent_addEdge. auto.
      * intros [w [Hw|[[-> _]|[-> _]]]%Components.adjacent_addEdge]; eauto.
Qed.

Lemma relation_graph (relationMap : list (JsVal * list JsVal)) :
  let g := foldl (λ g e, foldl (λ g targetId, addEdge e.1 targetId g) g e.2)
             empty relationMap in
  wf g
  ∧ (∀ v w, adjacent g v w ↔ mapLink relationMap v w)
  ∧ (∀ k, k ∈ g.*1 ↔ ∃ w, mapLink relationMap k w).
Proof.
  intros g. subst g.
  rewrite (foldl_nested (λ (e : JsVal * list JsVal) g targetId,
             addEdge e.1 targetId g) _ _ (λ e, e.2)).
  set (pairs := relationMap ≫= _).
  assert (Heq : foldl (λ g (p : (JsVal * list JsVal) * JsVal), addEdge p.1.1 p.2 g)
                  empty pairs
                = foldl (λ g p, addEdge p.1 p.2 g) empty
                    ((λ p : (JsVal * list JsVal) * JsVal, (p.1.1, p.2)) <$> pairs)).
  { by rewrite foldl_fmap. }
  rewrite Heq.
  destruct (edges_graph ((λ p : (JsVal * list JsVal) * JsVal, (p.1.1, p.2)) <$> pairs))
    as (Hwf & Hadj & Hkeys).
  assert (Hlink : ∀ v w,
    (∃ p, p ∈ (λ p : (JsVal * list JsVal) * JsVal, (p.1.1, p.2)) <$> pairs
          ∧ ((p.1 = v ∧ p.2 = w) ∨ (p.1 = w ∧ p.2 = v)))
    ↔ mapLink relationMap v w).
  { intros v w. unfold mapLink. split.
    - intros (p & ([e t] & -> & [He Ht]%elem_of_pairs)%list_elem_of_fmap & Hends).
      simpl in *. exists e. split; [done|].
      destruct Hends as [[<- <-]|[<- <-]]; auto.
    - intros (e & He & Hends).
      destruct Hends as [[<- Ht]|[<- Ht]].
      + exists (e.1, w). split; [|simpl; auto].
        apply list_elem_of_fmap. exists (e, w). split; [done|].
        by apply elem_of_pairs.
      + exists (e.1, v). split; [|simpl; auto].
        apply list_elem_of_fmap. exists (e, v). split; [done|].
        by apply elem_of_pairs. }
  split_and!; [done| |].
  - intros v w. by rewrite Hadj, Hlink.
  - intros k. rewrite Hkeys. split; intros [w Hw]; exists w.
    + by rewrite <- Hlink, <- Hadj.
    + by rewrite Hadj, Hlink.
Qed.

Lemma path_mapLink relationMap v w :
  path (foldl (λ g e, foldl (λ g targetId, addEdge e.1 targetId g) g e.2)
          empty relationMap) v w
  ↔ rtc (mapLink relationMap) v w.
Proof.
  destruct (relation_graph relationMap) as (_ & Hadj & _). split.
  - induction 1 as [|a b c Hab Hbc IH]; [apply rtc_refl|].
    eapply rtc_l; [|exact IH]. by apply Hadj.
  - induction 1 as [|a b c Hab Hbc IH]; [apply path_refl|].
    eapply path_step; [|exact IH]. by apply Hadj.
Qed.

Lemma relation_map_groups_spec relationMap :
  let groups := findConnectedGroupsFromRelations relationMap in
  NoDup (concat groups)
  ∧ (∀ x, x ∈ concat groups ↔ ∃ w, mapLink relationMap x w)
  ∧ ∀ group v w, group ∈ groups → v ∈ group →
      (w ∈ group ↔ rtc (mapLink relationMap) v w).
Proof.
  unfold findConnectedGroupsFromRelations.
  destruct (relation_graph relationMap) as (Hwf & _ & Hkeys).
  destruct (Components.findConnectedGroups_spec _ Hwf) as (Hnd & Hcover & Hcomp).
  split_and!; [done| |].
  - intros x. by rewrite Hcover, Hkeys.
  - intros group v w Hg Hv. rewrite Forall_forall in Hcomp.
    destruct (Hcomp group Hg) as (start & Hstart & Hgroup).
    rewrite <- path_mapLink, Hgroup. apply Hgroup in Hv. split.
    + intros Hw. eapply Components.path_trans; [|exact Hw].
      by apply Components.path_sym.
    + intros Hw. eapply Components.path_trans; [exact Hv|exact Hw].
Qed.

End MapComponents.

(** X3: [findConnectedGroupsFromRelations] returns the components of
    the relation map: each id of the map is in exactly one group, and two
    ids share a group exactly when a chain of entries joins them. *)
Theorem relation_map_groups_are_components relationMap :
  let groups := findConnectedGroupsFromRelations relationMap in
  NoDup (concat groups)
  ∧ (∀ x, x ∈ concat groups ↔ ∃ w, mapLink relationMap x w)
  ∧ ∀ group v w, group ∈ groups → v ∈ group →
      (w ∈ group ↔ rtc (mapLink relationMap) v w).
Proof. apply MapComponents.relation_map_groups_spec. Qed.

Section category_facts.
Variable strToNumber : string → option Z.
Variable parseDate : string → option Z.
Import GraphRel.

Local Abbreviation softCl := (softCluster strToNumber parseDate).
Local Abbreviation seriesData := (processSeriesData strToNumber parseDate).
Local Abbreviation relationGroups := (processRelationGroups strToNumber parseDate).

Lemma neighbours_addPair s t m v x :
  x ∈ neighbours (addPair s t m) v
  ↔ x ∈ neighbours m v ∨ (v = s ∧ x = t) ∨ (v = t ∧ x = s).
Proof.
  unfold neighbours, addPair. rewrite !al_lookup_alter, !al_lookup_init.
  destruct (al_lookup v m) as [ns|] eqn:Hv;
    destruct (decide (v = s)) as [Hs|Hs]; destruct (decide (v = t)) as [Ht|Ht];
    simpl; rewrite ?elem_of_set_add, ?elem_of_nil; intuition congruence.
Qed.

Lemma keys_addPair s t m : (addPair s t m).*1 = set_add t (set_add s m.*1).
Proof. unfold addPair. by rewrite !al_keys_alter, !al_keys_init. Qed.

Lemma categoryMap_step rm r category :
  category ∈ softTypes →
  categoryMap (firstPassStep rm r) category =
  categoryMap rm category
  ∧ ¬ feeds category (r_relationType r)
  ∨ categoryMap (firstPassStep rm r) category =
    addPair (r_sourceAnimeId r) (r_targetAnimeId r) (categoryMap rm category)
    ∧ feeds category (r_relationType r).
Proof.
  unfold softTypes. rewrite !elem_of_cons, elem_of_nil.
  unfold categoryMap, firstPassStep, feeds.
  intros [->|[->|[->|[->|[->|[]]]]]]; simpl;
    repeat case_decide; simpl; intuition congruence.
Qed.

Lemma categoryLink_snoc relations r category v w :
  categoryLink (relations ++ [r]) category v w ↔
  categoryLink relations category v w
  ∨ (feeds category (r_relationType r) ∧ joins r v w).
Proof.
  unfold categoryLink. split.
  - intros (r' & [Hin| ->%list_elem_of_singleton]%elem_of_app & Hty & Hends).
    + left. by exists r'.
    + by right.
  - intros [(r' & Hin & Hty & Hends)|[Hty Hends]].
    + exists r'. split; [|done]. apply elem_of_app. by left.
    + exists r. split; [|done]. apply elem_of_app. right. apply list_elem_of_here.
Qed.

(** The relation map of a category after the first pass. *)
Lemma categoryMap_links relations category :
  category ∈ softTypes →
  let m := categoryMap (firstPass relations) category in
  NoDup m.*1 ∧ ∀ v x, x ∈ neighbours m v ↔ categoryLink relations category v x.
Proof.
  intros Hcat. unfold firstPass.
  apply (Components.foldl_invariant_prefix (λ pre rm,
    NoDup (categoryMap rm category).*1
    ∧ ∀ v x, x ∈ neighbours (categoryMap rm category) v
             ↔ categoryLink pre category v x)).
  - assert (categoryMap (mkRelMaps Graph.empty [] [] [] [] []) category = []) as ->.
    { unfold categoryMap. by repeat case_decide. }
    split; [apply NoDup_nil_2|]. intros v x. split.
    + intros Hx. by apply elem_of_nil in Hx.
    + intros (r & Hr & _). by apply elem_of_nil in Hr.
  - intros pre r rm _ [Hnd Hlinks].
    destruct (categoryMap_step rm r category Hcat) as [[-> Hno]|[-> Hyes]].
    + split; [done|]. intros v x. rewrite categoryLink_snoc, Hlinks. tauto.
    + split.
      * rewrite keys_addPair. by do 2 apply NoDup_set_add.
      * intros v x. rewrite categoryLink_snoc, neighbours_addPair, Hlinks.
        unfold joins. intuition congruence.
Qed.

Lemma al_lookup_elem {K V} `{EqDecision K} (l : list (K * V)) k v :
  NoDup l.*1 → (k, v) ∈ l ↔ al_lookup k l = Some v.
Proof.
  induction l as [|[k0 v0] l IH].
  - intros _. split; [intros Hin; by apply elem_of_nil in Hin|done].
  - rewrite fmap_cons. cbn [al_lookup fst]. intros [Hk Hnd]%NoDup_cons.
    destruct (decide (k = k0)) as [->|Hne].
    + split.
      * intros [[= ->]|Hin]%elem_of_cons; [done|].
        exfalso. apply Hk. apply list_elem_of_fmap. by exists (k0, v).
      * intros [= ->]. apply list_elem_of_here.
    + rewrite <- (IH Hnd). split.
      * intros [[= -> ->]|Hin]%elem_of_cons; done.
      * intros Hin. by right.
Qed.

Lemma mapLink_neighbours (m : list (JsVal * list JsVal)) v w :
  NoDup m.*1 →
  mapLink m v w ↔ w ∈ neighbours m v ∨ v ∈ neighbours m w.
Proof.
  intros Hnd. unfold mapLink, neighbours. split.
  - intros ([k ts] & He & [[<- Hw]|[<- Hv]]); simpl in *;
      apply (al_lookup_elem m k ts Hnd) in He; rewrite He; auto.
  - intros [Hw|Hv].
    + destruct (al_lookup v m) as [ts|] eqn:Hl; [|by apply elem_of_nil in Hw].
      exists (v, ts). split; [by apply al_lookup_elem|]. simpl. auto.
    + destruct (al_lookup w m) as [ts|] eqn:Hl; [|by apply elem_of_nil in Hv].
      exists (w, ts). split; [by apply al_lookup_elem|]. simpl. auto.
Qed.

Lemma categoryLink_sym relations category v w :
  categoryLink relations category v w → categoryLink relations category w v.
Proof.
  intros (r & Hr & Hty & Hj). exists r. split_and!; [done|done|].
  unfold joins in *. tauto.
Qed.

Lemma mapLink_categoryLink relations category v w :
  category ∈ softTypes →
  mapLink (categoryMap (firstPass relations) category) v w
  ↔ categoryLink relations category v w.
Proof.
  intros Hcat. destruct (categoryMap_links relations category Hcat) as [Hnd Hlinks].
  rewrite (mapLink_neighbours _ _ _ Hnd), !Hlinks. split; [|by left].
  intros [?|?%categoryLink_sym]; done.
Qed.

Lemma rtc_iff {A} (R R' : A → A → Prop) x y :
  (∀ a b, R a b ↔ R' a b) → rtc R x y ↔ rtc R' x y.
Proof.
  intros HR. split; induction 1 as [|a b c Hab Hbc IH];
    try apply rtc_refl; (eapply rtc_l; [by apply HR|done]).
Qed.

Section from_groups.
Variable series : SeriesGroup.
Variable animeMap : gmap string Anime.
Variable main : list MainCluster.

Lemma soft_from_push key c results group :
  soft_from series main results →
  group ∈ findConnectedGroupsFromRelations
            (categoryMap (firstPass (g_relations series)) (c_seriesType c)) →
  c_animeIds c ≡ₚ filter (λ id, id ∉ main ≫= m_animeIds) group →
  soft_from series main (pushSoft key c results).
Proof.
  intros [Hmain Hres] Hg Hids. split; [done|].
  intros key' cs c' Hlook Hin. simpl in Hlook.
  destruct (decide (key = key')) as [<-|Hne].
  - rewrite lookup_insert_eq in Hlook. injection Hlook as <-.
    apply elem_of_app in Hin as [Hin|Hin].
    + destruct (res_soft results !! key) as [cs0|] eqn:Hk; simpl in Hin.
      * by eapply Hres.
      * by apply not_elem_of_nil in Hin.
    + apply list_elem_of_singleton in Hin as ->. by exists group.
  - rewrite lookup_insert_ne in Hlook by done. by eapply Hres.
Qed.

Lemma soft_from_step key relationType suffix index group results :
  soft_from series main results →
  group ∈ findConnectedGroupsFromRelations
            (categoryMap (firstPass (g_relations series)) relationType) →
  soft_from series main
    match softCl key relationType suffix series animeMap (main ≫= m_animeIds)
            index group with
    | Some c => pushSoft key c results
    | None => results
    end.
Proof.
  intros Hr Hg.
  destruct (softCl _ _ _ _ _ _ _ _) as [c|] eqn:Hc; [|done].
  pose proof (softCluster_spec strToNumber parseDate _ _ _ _ _ _ _ _ _ Hc)
    as (Hty & _).
  apply softCluster_members in Hc as [_ Hperm].
  apply (soft_from_push _ _ _ group); [done| |done].
  by rewrite Hty.
Qed.

Lemma soft_from_fold key relationType suffix groups results :
  soft_from series main results →
  (∀ group, group ∈ groups →
     group ∈ findConnectedGroupsFromRelations
               (categoryMap (firstPass (g_relations series)) relationType)) →
  soft_from series main
    (foldl (λ results (ig : nat * list JsVal),
              match softCl key relationType suffix series animeMap
                      (mainAnimeIdsOf results) ig.1 ig.2 with
              | Some c => pushSoft key c results
              | None => results
              end)
       results (imap pair groups)).
Proof.
  intros Hres Hgroups.
  apply (Components.foldl_invariant_prefix (λ _ r, soft_from series main r));
    [done|].
  intros _ [index group] r Hin Hr. simpl.
  apply imap_pair_elem in Hin. simpl in Hin.
  assert (mainAnimeIdsOf r = main ≫= m_animeIds) as ->.
  { unfold mainAnimeIdsOf. by destruct Hr as [-> _]. }
  apply soft_from_step; [done|]. by apply Hgroups.
Qed.

Lemma soft_from_processRelationGroups relationType results :
  soft_from series main results →
  let groups := findConnectedGroupsFromRelations
                  (categoryMap (firstPass (g_relations series)) relationType) in
  soft_from series main (relationGroups groups relationType series results animeMap).
Proof.
  intros Hres groups. unfold processRelationGroups.
  set (results' := match res_soft results !! toLowerCase relationType with
                   | Some _ => results
                   | None => _
                   end).
  assert (soft_from series main results') as Hres'.
  { subst results'. destruct (res_soft results !! toLowerCase relationType) eqn:Hk;
      [done|].
    destruct Hres as [Hmain Hsoft]. split; [done|].
    intros key cs c Hlook Hin. simpl in Hlook.
    destruct (decide (toLowerCase relationType = key)) as [<-|Hne].
    - rewrite lookup_insert_eq in Hlook. injection Hlook as <-.
      by apply not_elem_of_nil in Hin.
    - rewrite lookup_insert_ne in Hlook by done. by eapply Hsoft. }
  assert (mainAnimeIdsOf results' = main ≫= m_animeIds) as ->.
  { unfold mainAnimeIdsOf. by destruct Hres' as [-> _]. }
  apply (Components.foldl_invariant_prefix (λ _ r, soft_from series main r));
    [done|].
  intros _ [index group] r Hin Hr. simpl.
  apply imap_pair_elem in Hin. simpl in Hin.
  by apply soft_from_step.
Qed.

End from_groups.

Lemma soft_from_processSeriesData series animeMap :
  soft_from series (res_main (seriesData series animeMap)) (seriesData series animeMap).
Proof.
  destruct (processSeriesData_clusters strToNumber parseDate series animeMap
              (λ _, True)) as [Hmain _].
  simpl in Hmain. rewrite Hmain at 1. clear Hmain.
  unfold processSeriesData.
  set (rm := firstPass (g_relations series)).
  set (results1 := foldl _ emptyResults _).
  assert (res_soft results1 = res_soft emptyResults ∧
          res_main results1
            = (λ ig : nat * list JsVal,
                 mainCluster strToNumber parseDate series animeMap ig.1 ig.2)
                <$> imap pair (Graph.findConnectedGroups (rm_graph rm)))
    as [Hsoft1 Hmain1].
  { subst results1. generalize (imap pair (Graph.findConnectedGroups (rm_graph rm))).
    intros l.
    assert (∀ r0,
      let r := foldl (λ results (ig : nat * list JsVal),
                 mkSplitResults
                   (res_main results
                      ++ [mainCluster strToNumber parseDate series animeMap ig.1 ig.2])
                   (res_soft results)) r0 l in
      res_soft r = res_soft r0 ∧
      res_main r = res_main r0
                   ++ ((λ ig : nat * list JsVal,
                          mainCluster strToNumber parseDate series animeMap ig.1 ig.2)
                         <$> l))
      as Hgen.
    { induction l as [|x l IH]; intros r0; simpl.
      - by rewrite app_nil_r.
      - destruct (IH (mkSplitResults
                    (res_main r0
                       ++ [mainCluster strToNumber parseDate series animeMap x.1 x.2])
                    (res_soft r0)))
          as [H1 H2].
        simpl in *. split; [done|]. by rewrite H2, <- app_assoc. }
    destruct (Hgen emptyResults) as [H1 H2]. split; [done|].
    rewrite H2. done. }
  rewrite <- Hmain1.
  assert (soft_from series (res_main results1) results1) as H1.
  { split; [done|]. intros key cs c Hlook Hin.
    rewrite Hsoft1 in Hlook. simpl in Hlook.
    assert (cs = []) as ->.
    { revert Hlook. clear.
      rewrite !lookup_insert. repeat case_decide; rewrite ?lookup_empty; congruence. }
    by apply not_elem_of_nil in Hin. }
  pose proof (soft_from_fold series animeMap (res_main results1) "character"
                "CHARACTER" "Character"
                (findConnectedGroupsFromRelations (rm_character rm)) results1 H1
                (λ _ H, H)) as H2.
  pose proof (soft_from_processRelationGroups series animeMap _ "ADAPTATION" _ H2) as H3.
  pose proof (soft_from_processRelationGroups series animeMap _ "SPIN_OFF" _ H3) as H4.
  pose proof (soft_from_processRelationGroups series animeMap _ "OTHER" _ H4) as H5.
  pose proof (soft_from_processRelationGroups series animeMap _ "PARENT" _ H5) as H6.
  exact H6.
Qed.

(** A cluster of a category holds, with a member, exactly the ids
    outside the MAIN clusters that a chain of relations of the category
    joins to it. *)
Lemma soft_cluster_component series animeMap key clusters c v w :
  res_soft (seriesData series animeMap) !! key = Some clusters →
  c ∈ clusters →
  v ∈ c_animeIds c →
  (w ∈ c_animeIds c
   ↔ (w ∉ mainAnimeIdsOf (seriesData series animeMap))
     ∧ rtc (categoryLink (g_relations series) (c_seriesType c)) v w).
Proof.
  intros Hk Hc Hv.
  destruct (soft_from_processSeriesData series animeMap) as [_ Hfrom].
  destruct (Hfrom key clusters c Hk Hc) as (group & Hg & Hperm).
  destruct (soft_keyed_processSeriesData strToNumber parseDate series animeMap
              key clusters c Hk Hc) as [_ Hty].
  destruct (MapComponents.relation_map_groups_spec
              (categoryMap (firstPass (g_relations series)) (c_seriesType c)))
    as (_ & _ & Hcomp).
  rewrite Hperm in Hv. apply list_elem_of_filter in Hv as [_ Hv].
  rewrite Hperm, list_elem_of_filter. unfold mainAnimeIdsOf.
  rewrite (Hcomp group v w Hg Hv).
  rewrite (rtc_iff _ (categoryLink (g_relations series) (c_seriesType c)));
    [done|].
  intros a b. by apply mapLink_categoryLink.
Qed.

End category_facts.

(** ** The first of a list that a comparator orders consistently *)

Lemma cmpSign_total {A} (cmp : A → A → option Z) (a b : A) :
  cmpSign cmp a b = - cmpSign cmp b a →
  cmp_le cmp a b = true ∨ cmp_le cmp b a = true.
Proof.
  unfold cmpSign, cmp_le.
  destruct (cmp a b) as [x|]; [|by left]. destruct (cmp b a) as [y|]; [|by right].
  intros Hsign. destruct (decide (x ≤ 0)) as [Hx|Hx].
  - left. by apply bool_decide_eq_true_2.
  - right. apply bool_decide_eq_true_2. lia.
Qed.

Lemma consistentOn_spec {A} (cmp : A → A → option Z) (l : list A) :
  consistentOn cmp l →
  ∀ a b, a ∈ l → b ∈ l →
    (cmp_le cmp a b = true ∨ cmp_le cmp b a = true)
    ∧ ∀ c, c ∈ l → cmp_le cmp a b = true → cmp_le cmp b c = true →
           cmp_le cmp a c = true.
Proof.
  unfold consistentOn. rewrite Forall_forall.
  intros H a b Ha Hb. specialize (H a Ha). rewrite Forall_forall in H.
  destruct (H b Hb) as [Hsign Htrans]. split; [by apply cmpSign_total|].
  intros c Hc. rewrite Forall_forall in Htrans. by apply Htrans.
Qed.

Lemma consistentOn_subseteq {A} (cmp : A → A → option Z) (l l' : list A) :
  (∀ x, x ∈ l' → x ∈ l) → consistentOn cmp l → consistentOn cmp l'.
Proof.
  unfold consistentOn. rewrite !Forall_forall. intros Hsub H a Ha.
  specialize (H a (Hsub _ Ha)). rewrite Forall_forall in H.
  apply Forall_forall. intros b Hb.
  destruct (H b (Hsub _ Hb)) as [Hsign Htrans]. split; [done|].
  rewrite Forall_forall in Htrans. apply Forall_forall.
  intros c Hc. apply Htrans. by apply Hsub.
Qed.

Lemma firstOrdered_ext cmp (l l' : list JsVal) first :
  (∀ x, x ∈ l ↔ x ∈ l') → firstOrdered cmp l first → firstOrdered cmp l' first.
Proof.
  intros Hext [Hin Hfirst]. split; [by apply Hext|].
  intros x Hx. apply Hfirst. by apply Hext.
Qed.

(** On a list that the comparator orders consistently, the first
    element after [sort] is a first-ordered one. *)
Lemma sortVals_firstOrdered cmp (l : list JsVal) :
  l ≠ [] → consistentOn cmp l →
  ∃ first, head (sortVals cmp l) = Some first ∧ firstOrdered cmp l first.
Proof.
  intros Hne Hcons. unfold sortVals.
  set (d := filter (λ v, v ≠ JUndef) l).
  assert (Hd : ∀ x, x ∈ d ↔ x ∈ l ∧ x ≠ JUndef).
  { intros x. subst d. rewrite list_elem_of_filter. tauto. }
  pose proof (consistentOn_spec cmp l Hcons) as Hspec.
  set (R := λ a b : JsVal, a ∈ d ∧ b ∈ d ∧ cmp_le cmp a b = true).
  assert (Hs : StronglySorted R (sort_stable cmp d)).
  { apply sort_stable_sorted.
    - intros a b c (Ha & Hb & Hab) (_ & Hc & Hbc). split_and!; [done|done|].
      apply Hd in Ha as [Ha _]. apply Hd in Hb as [Hb _]. apply Hd in Hc as [Hc _].
      destruct (Hspec a b Ha Hb) as [_ Htrans]. by apply (Htrans c).
    - intros x y Hx Hy. pose proof Hx as [Hxl _]%Hd. pose proof Hy as [Hyl _]%Hd.
      destruct (Hspec x y Hxl Hyl) as [Htot _].
      destruct (cmp_le cmp x y) eqn:Hxy; [done|].
      destruct Htot as [?|Hyx]; [done|]. done. }
  destruct (sort_stable cmp d) as [|first rest] eqn:Hsorted.
  - assert (d = []) as Hnil.
    { apply Permutation_nil. by rewrite <- (sort_stable_perm cmp d), Hsorted. }
    simpl. destruct l as [|x l']; [done|].
    assert (x = JUndef) as ->.
    { destruct (decide (x = JUndef)) as [|Hx]; [done|].
      assert (x ∈ d) as Hin by (apply Hd; split; [apply list_elem_of_here|done]).
      rewrite Hnil in Hin. by apply elem_of_nil in Hin. }
    exists JUndef. split.
    + by rewrite filter_cons, decide_True.
    + split; [apply list_elem_of_here|].
      intros y Hy Hundef. exfalso.
      assert (y ∈ d) as Hin by (by apply Hd).
      rewrite Hnil in Hin. by apply elem_of_nil in Hin.
  - exists first. split; [done|].
    assert (first ∈ d) as Hfirst.
    { rewrite <- (sort_stable_perm cmp d), Hsorted. apply list_elem_of_here. }
    pose proof Hfirst as [Hfl Hfu]%Hd. split; [done|].
    intros x Hx Hxu. split; [done|].
    assert (x ∈ first :: rest) as Hin.
    { rewrite <- Hsorted, sort_stable_perm. by apply Hd. }
    apply StronglySorted_inv in Hs as [_ Hall].
    apply elem_of_cons in Hin as [->|Hin].
    + destruct (Hspec first first Hfl Hfl) as [[?|?] _]; done.
    + rewrite Forall_forall in Hall. by destruct (Hall x Hin) as (_ & _ & ?).
Qed.

Section first_names.
Variable strToNumber : string → option Z.
Variable parseDate : string → option Z.
Variable animeMap : gmap string Anime.

Local Abbreviation resolver := (resolverCmp strToNumber parseDate animeMap).

(** [getSeriesNameFromOldestAnime] names a list after a first-ordered
    candidate. *)
Lemma getSeriesName_firstOrdered (ids members : list JsVal) :
  ids ≠ [] → ids ≡ₚ members → consistentOn resolver members →
  ∃ first, firstOrdered resolver members first
    ∧ getSeriesNameFromOldestAnime strToNumber parseDate ids animeMap
      = resolverName animeMap first.
Proof.
  intros Hne Hperm Hcons.
  assert (consistentOn resolver ids) as Hids.
  { eapply consistentOn_subseteq; [|exact Hcons]. intros x Hx. by rewrite <- Hperm. }
  destruct (sortVals_firstOrdered resolver ids Hne Hids) as (first & Hhead & Hfirst).
  exists first. split.
  - eapply firstOrdered_ext; [|exact Hfirst]. intros x. by rewrite Hperm.
  - pose proof (getSeriesName_namingResolver strToNumber parseDate animeMap ids Hne)
      as Hname.
    unfold namingResolver in Hname. rewrite Hhead in Hname. simpl in Hname.
    by injection Hname as <-.
Qed.

End first_names.

(** ** Where the clusters of the categories come from *)

Section soft_calls.
Variable strToNumber : string → option Z.
Variable parseDate : string → option Z.
Variable series : SeriesGroup.
Variable animeMap : gmap string Anime.
Variable main : list MainCluster.

Local Abbreviation softCl := (softCluster strToNumber parseDate).
Local Abbreviation seriesData := (processSeriesData strToNumber parseDate).
Local Abbreviation relationGroups := (processRelationGroups strToNumber parseDate).
Local Abbreviation groupsOf :=
  (λ ty, findConnectedGroupsFromRelations
           (categoryMap (firstPass (g_relations series)) ty)).
Local Abbreviation call :=
  (λ ty (ig : nat * list JsVal),
     softCl (toLowerCase ty) ty (capitalized ty) series animeMap
       (main ≫= m_animeIds) ig.1 ig.2).

Lemma softOf_pushSoft key c results key' :
  softOf (pushSoft key c results) key'
  = if decide (key = key') then softOf results key ++ [c] else softOf results key'.
Proof.
  unfold softOf, pushSoft. simpl. destruct (decide (key = key')) as [<-|Hne].
  - by rewrite lookup_insert_eq.
  - by rewrite lookup_insert_ne.
Qed.

Lemma softOf_elem results key c :
  c ∈ softOf results key ↔ ∃ cs, res_soft results !! key = Some cs ∧ c ∈ cs.
Proof.
  unfold softOf. destruct (res_soft results !! key) as [cs|]; simpl.
  - split; [intros Hc; by exists cs|]. by intros (cs' & [= <-] & Hc).
  - split; [intros Hc; by apply elem_of_nil in Hc|]. by intros (cs' & [=] & _).
Qed.

(** The clusters in [results] are those of the calls for the types in
    [types] and for the pairs in [pre] of the type [ty]. *)
Local Abbreviation tracked :=
  (λ (types : list string) (ty : string) (pre : list (nat * list JsVal))
     (results : SplitResults),
     res_main results = main
     ∧ ∀ key c, c ∈ softOf results key ↔
         (∃ ty' ig, ty' ∈ types ∧ key = toLowerCase ty'
                    ∧ ig ∈ imap pair (groupsOf ty') ∧ call ty' ig = Some c)
         ∨ (key = toLowerCase ty ∧ ∃ ig, ig ∈ pre ∧ call ty ig = Some c)).

Lemma tracked_step types ty pre ig results :
  tracked types ty pre results →
  tracked types ty (pre ++ [ig])
    match call ty ig with
    | Some c => pushSoft (toLowerCase ty) c results
    | None => results
    end.
Proof.
  intros [Hmain Hsoft]. cbv beta in *.
  destruct (softCl _ _ _ _ _ _ _ _) as [c|] eqn:Hc.
  - split; [exact Hmain|]. intros key c'. rewrite softOf_pushSoft.
    destruct (decide (toLowerCase ty = key)) as [<-|Hne].
    + rewrite elem_of_app, list_elem_of_singleton, Hsoft. split.
      * intros [[Hold|[_ (ig' & Hin & Hcall)]]| ->].
        -- by left.
        -- right. split; [done|]. exists ig'. split; [|done].
           apply elem_of_app. by left.
        -- right. split; [done|]. exists ig. split; [|done].
           apply elem_of_app. right. apply list_elem_of_here.
      * intros [Hold|[_ (ig' & Hin & Hcall)]]; [left; by left|].
        apply elem_of_app in Hin as [Hin|Hin%list_elem_of_singleton].
        -- left. right. split; [done|]. by exists ig'.
        -- right. subst ig'. congruence.
    + rewrite Hsoft. split.
      * intros [Hold|[Hkey _]]; [by left|congruence].
      * intros [Hold|[Hkey _]]; [by left|congruence].
  - split; [done|]. intros key c'. rewrite Hsoft. split.
    + intros [Hold|[Hkey (ig' & Hin & Hcall)]]; [by left|].
      right. split; [done|]. exists ig'. split; [|done]. apply elem_of_app. by left.
    + intros [Hold|[Hkey (ig' & Hin & Hcall)]]; [by left|].
      apply elem_of_app in Hin as [Hin|Hin%list_elem_of_singleton].
      * right. split; [done|]. by exists ig'.
      * subst ig'. congruence.
Qed.

Lemma tracked_next types ty results :
  tracked types ty (imap pair (groupsOf ty)) results →
  ∀ ty', tracked (types ++ [ty]) ty' [] results.
Proof.
  intros [Hmain Hsoft] ty'. split; [done|]. intros key c. rewrite Hsoft. split.
  - intros [(ty0 & ig & Hty & Hkey & Hin & Hcall)|[Hkey (ig & Hin & Hcall)]]; left.
    + exists ty0, ig. split_and!; try done. apply elem_of_app. by left.
    + exists ty, ig. split_and!; try done. apply elem_of_app. right.
      apply list_elem_of_here.
  - intros [(ty0 & ig & Hty & Hkey & Hin & Hcall)|[_ (ig & Hin & _)]];
      [|by apply elem_of_nil in Hin].
    apply elem_of_app in Hty as [Hty|Hty%list_elem_of_singleton].
    + left. by exists ty0, ig.
    + subst ty0. right. split; [done|]. by exists ig.
Qed.

Lemma tracked_processRelationGroups types ty results :
  tracked types ty [] results →
  tracked types ty (imap pair (groupsOf ty))
    (relationGroups (groupsOf ty) ty series results animeMap).
Proof.
  intros Hres. unfold processRelationGroups.
  set (results' := match res_soft results !! toLowerCase ty with
                   | Some _ => results
                   | None => _
                   end).
  assert (tracked types ty [] results') as Hres'.
  { subst results'. destruct (res_soft results !! toLowerCase ty) eqn:Hk; [done|].
    destruct Hres as [Hmain Hsoft]. split; [done|].
    intros key c. rewrite <- Hsoft. unfold softOf. simpl.
    destruct (decide (toLowerCase ty = key)) as [<-|Hne].
    - by rewrite lookup_insert_eq, Hk.
    - by rewrite lookup_insert_ne. }
  assert (mainAnimeIdsOf results' = main ≫= m_animeIds) as ->.
  { unfold mainAnimeIdsOf. by destruct Hres' as [-> _]. }
  apply (Components.foldl_invariant_prefix (λ pre r, tracked types ty pre r));
    [done|].
  intros pre ig r _ Hr. by apply tracked_step.
Qed.

Lemma tracked_initial ty results :
  res_main results = main → res_soft results = res_soft emptyResults →
  tracked ([] : list string) ty [] results.
Proof.
  intros Hmain Hsoft. split; [done|]. intros key c. split.
  - intros Hc. exfalso. apply softOf_elem in Hc as (cs & Hlook & Hc).
    rewrite Hsoft in Hlook. simpl in Hlook.
    assert (cs = []) as ->.
    { revert Hlook. clear.
      rewrite !lookup_insert. repeat case_decide; rewrite ?lookup_empty; congruence. }
    by apply elem_of_nil in Hc.
  - intros [(ty' & ig & Hty & _)|[_ (ig & Hin & _)]].
    + by apply elem_of_nil in Hty.
    + by apply elem_of_nil in Hin.
Qed.

Lemma tracked_character types results :
  tracked types "CHARACTER" [] results →
  tracked types "CHARACTER" (imap pair (groupsOf "CHARACTER"))
    (foldl (λ results (ig : nat * list JsVal),
              match softCl "character" "CHARACTER" "Character" series animeMap
                      (mainAnimeIdsOf results) ig.1 ig.2 with
              | Some c => pushSoft "character" c results
              | None => results
              end)
       results (imap pair (groupsOf "CHARACTER"))).
Proof.
  intros Hres.
  apply (Components.foldl_invariant_prefix
           (λ pre r, tracked types "CHARACTER" pre r)); [done|].
  intros pre ig r _ Hr.
  assert (mainAnimeIdsOf r = main ≫= m_animeIds) as ->.
  { unfold mainAnimeIdsOf. by destruct Hr as [-> _]. }
  by apply (tracked_step types "CHARACTER" pre ig r).
Qed.

(** The part of [processSeriesData] that follows the loop over the main
    groups. *)
Lemma tracked_categories results :
  res_main results = main → res_soft results = res_soft emptyResults →
  let rm := firstPass (g_relations series) in
  let results :=
    foldl (λ results (ig : nat * list JsVal),
             match softCl "character" "CHARACTER" "Character" series animeMap
                     (mainAnimeIdsOf results) ig.1 ig.2 with
             | Some c => pushSoft "character" c results
             | None => results
             end)
      results (imap pair (findConnectedGroupsFromRelations (rm_character rm))) in
  let results :=
    relationGroups (findConnectedGroupsFromRelations (rm_adaptation rm))
      "ADAPTATION" series results animeMap in
  let results :=
    relationGroups (findConnectedGroupsFromRelations (rm_spinOff rm))
      "SPIN_OFF" series results animeMap in
  let results :=
    relationGroups (findConnectedGroupsFromRelations (rm_other rm))
      "OTHER" series results animeMap in
  let results :=
    relationGroups (findConnectedGroupsFromRelations (rm_parent rm))
      "PARENT" series results animeMap in
  tracked softTypes "" [] results.
Proof.
  intros Hmain Hsoft. cbv zeta.
  pose proof (tracked_initial "CHARACTER" results Hmain Hsoft) as T.
  apply tracked_character in T. apply tracked_next with (ty' := "ADAPTATION") in T.
  apply tracked_processRelationGroups in T.
  apply tracked_next with (ty' := "SPIN_OFF") in T.
  apply tracked_processRelationGroups in T.
  apply tracked_next with (ty' := "OTHER") in T.
  apply tracked_processRelationGroups in T.
  apply tracked_next with (ty' := "PARENT") in T.
  apply tracked_processRelationGroups in T.
  apply tracked_next with (ty' := "") in T.
  exact T.
Qed.

End soft_calls.

Section soft_origin.
Variable strToNumber : string → option Z.
Variable parseDate : string → option Z.

Local Abbreviation softCl := (softCluster strToNumber parseDate).
Local Abbreviation seriesData := (processSeriesData strToNumber parseDate).

(** The clusters that [processSeriesData] stores under the keys of the
    categories are exactly the clusters that [softCluster] gives for the
    connected groups of the relation maps of the five categories, each
    under the lower-cased name of its category. *)
Lemma processSeriesData_soft series animeMap key c :
  c ∈ softOf (seriesData series animeMap) key ↔
  ∃ ty index group,
    ty ∈ softTypes ∧ key = toLowerCase ty
    ∧ findConnectedGroupsFromRelations
        (categoryMap (firstPass (g_relations series)) ty) !! index = Some group
    ∧ softCl (toLowerCase ty) ty (capitalized ty) series animeMap
        (mainAnimeIdsOf (seriesData series animeMap)) index group = Some c.
Proof.
  unfold processSeriesData. cbv zeta.
  set (results1 := foldl _ emptyResults _).
  assert (res_soft results1 = res_soft emptyResults) as Hsoft1.
  { subst results1.
    by apply (foldl_invariant (λ r, res_soft r = res_soft emptyResults)). }
  pose proof (tracked_categories strToNumber parseDate series animeMap
                (res_main results1) results1 eq_refl Hsoft1) as [Hmain Hsoft].
  cbv zeta in Hmain, Hsoft.
  rewrite Hsoft. unfold mainAnimeIdsOf at 1. rewrite Hmain. split.
  - intros [(ty & [index group] & Hty & Hkey & Hin & Hcall)|[_ (ig & Hin & _)]];
      [|by apply elem_of_nil in Hin].
    exists ty, index, group. split_and!; [done|done| |done].
    apply list_elem_of_lookup in Hin as [i Hi]. rewrite list_lookup_imap in Hi.
    destruct (_ !! i) as [g|] eqn:Hg; simpl in Hi; [|done].
    by injection Hi as <- <-.
  - intros (ty & index & group & Hty & Hkey & Hgroup & Hcall). left.
    exists ty, (index, group). split_and!; [done|done| |done].
    apply list_elem_of_lookup. exists index. by rewrite list_lookup_imap, Hgroup.
Qed.

End soft_origin.

(** ** The names of the clusters *)

Section names.
Variable strToNumber : string → option Z.
Variable parseDate : string → option Z.

Local Abbreviation seriesData := (processSeriesData strToNumber parseDate).
Local Abbreviation resolver := (resolverCmp strToNumber parseDate).

Lemma main_cluster_name series animeMap m :
  m ∈ res_main (seriesData series animeMap) →
  consistentOn (resolver animeMap) (m_animeIds m) →
  ∃ first, firstOrdered (resolver animeMap) (m_animeIds m) first
    ∧ m_seriesName m = resolverName animeMap first.
Proof.
  intros Hm Hcons.
  destruct (main_cluster_group strToNumber parseDate series animeMap m Hm)
    as (index & group & Hg & ->).
  apply GroupsNonEmpty.findConnectedGroups_nonempty in Hg.
  simpl in *. apply getSeriesName_firstOrdered; [done| |done].
  symmetry. apply sortVals_perm.
Qed.

Lemma capitalized_label ty :
  ty ∈ softTypes → (ty, capitalized ty) ∈ categoryLabels.
Proof.
  unfold softTypes. rewrite !elem_of_cons, elem_of_nil.
  intros [->|[->|[->|[->|[->|[]]]]]]; by_computation.
Qed.

Lemma soft_cluster_name series animeMap key clusters c :
  res_soft (seriesData series animeMap) !! key = Some clusters →
  c ∈ clusters →
  consistentOn (resolver animeMap) (c_animeIds c) →
  ∃ first label,
    (c_seriesType c, label) ∈ categoryLabels
    ∧ firstOrdered (resolver animeMap) (c_animeIds c) first
    ∧ c_seriesName c = resolverName animeMap first +:+ " (" +:+ label +:+ ")".
Proof.
  intros Hk Hc.
  assert (c ∈ softOf (seriesData series animeMap) key) as Hin.
  { apply softOf_elem. by exists clusters. }
  apply processSeriesData_soft in Hin
    as (ty & index & group & Hty & Hkey & Hgroup & Hcall).
  unfold softCluster in Hcall.
  set (fg := filter _ group) in Hcall.
  destruct (decide (length fg < 2)%nat) as [Hlt|Hge]; [done|].
  injection Hcall as <-. simpl. intros Hcons.
  destruct (getSeriesName_firstOrdered strToNumber parseDate animeMap fg
              (sortVals (numCmp strToNumber) fg)) as (first & Hfirst & Hname).
  - intros Hnil. rewrite Hnil in Hge. simpl in Hge. lia.
  - symmetry. apply sortVals_perm.
  - done.
  - exists first, (capitalized ty). split_and!; [by apply capitalized_label|done|].
    by rewrite Hname.
Qed.

End names.

(** C9, as the code has it.  When the rule of the naming (ascending by
    release date when both candidates have a valid one, ascending by
    numeric id otherwise) orders the members of a cluster of the
    splitting stage consistently, the cluster is named after a
    first-ordered member: its romanized title, else its plain title,
    else "Series" with its id; for a cluster that is not a MAIN cluster
    the label of the category follows in parentheses.  The name of a
    group of the grouping stage is the plain title of the first member
    of its closure that has a record, when that title is not empty, and
    else the placeholder "Series" with the position of the group among
    the groups of the run. *)
Theorem cluster_names strToNumber parseDate :
  (∀ series animeMap m,
     m ∈ res_main (processSeriesData strToNumber parseDate series animeMap) →
     consistentOn (resolverCmp strToNumber parseDate animeMap) (m_animeIds m) →
     ∃ first,
       firstOrdered (resolverCmp strToNumber parseDate animeMap) (m_animeIds m) first
       ∧ m_seriesName m = resolverName animeMap first) ∧
  (∀ series animeMap key clusters c,
     res_soft (processSeriesData strToNumber parseDate series animeMap) !! key
       = Some clusters →
     c ∈ clusters →
     consistentOn (resolverCmp strToNumber parseDate animeMap) (c_animeIds c) →
     ∃ first label,
       (c_seriesType c, label) ∈ categoryLabels
       ∧ firstOrdered (resolverCmp strToNumber parseDate animeMap) (c_animeIds c) first
       ∧ c_seriesName c = resolverName animeMap first +:+ " (" +:+ label +:+ ")") ∧
  (∀ JSON_parse env animeData k g,
     gr_series (groupAnimeIntoSeries_internal JSON_parse env animeData) !! k = Some g →
     let n := normalizePass JSON_parse animeData in
     g_seriesName g =
       strOrD (head (omap (lookupAnime (ns_animeData n) (ns_animeMap n)) (g_animeIds g))
                 ≫= (λ ia, a_title ia.2))
         ("Series " +:+ pretty (S k))).
Proof.
  split; [|split].
  - apply main_cluster_name.
  - apply soft_cluster_name.
  - intros JSON_parse env animeData k g Hg n.
    unfold groupAnimeIntoSeries_internal in Hg. simpl in Hg.
    destruct (GroupInv_run env (ns_animeData n) (ns_animeMap n) (ns_animeData n)
                (initialState (ns_log n)) (GroupInv_initial _ _ _)) as [_ Hname _].
    by apply Hname.
Qed.

(** C9, as stated, fails on the groups of the grouping stage: the group
    of the records 2 and 1, met in this order, has the plain title of
    record 2, and the first-ordered member is record 1. *)
Lemma group_name_differs_from_naming_rule :
  ¬ (∀ g, g ∈ gr_series (groupAnimeIntoSeries_internal Examples.noJson Examples.clockA
                            Examples.laterFirst) →
       ∃ first,
         firstOrdered (resolverCmp decimalNumber noDate (rawAnimeMap Examples.laterFirst))
           (g_animeIds g) first
         ∧ g_seriesName g = resolverName (rawAnimeMap Examples.laterFirst) first).
Proof.
  intros Hclaim.
  destruct (gr_series (groupAnimeIntoSeries_internal Examples.noJson Examples.clockA
                         Examples.laterFirst)) as [|g rest] eqn:Hrun;
    [vm_compute in Hrun; discriminate|].
  destruct (Hclaim g (list_elem_of_here _ _)) as (first & [Hin Hfirst] & Hname).
  vm_compute in Hrun. injection Hrun as <- _. simpl in Hin, Hfirst, Hname.
  rewrite !elem_of_cons, elem_of_nil in Hin. destruct Hin as [->|[->|[]]].
  - destruct (Hfirst (JStr "1")) as [_ Hle]; [by_computation|done|].
    vm_compute in Hle. discriminate.
  - vm_compute in Hname. discriminate.
Qed.

(** The character cluster of the two dated records is named after
    record 2, which has the earlier date; the group of the records 2
    and 1 has the plain title of record 2. *)
Lemma cluster_names_witness :
  (∃ first label,
     (c_seriesType NameExample.characters, label) ∈ categoryLabels
     ∧ firstOrdered (resolverCmp decimalNumber decimalNumber MoreExamples.datedMap)
         (c_animeIds NameExample.characters) first
     ∧ c_seriesName NameExample.characters
       = resolverName MoreExamples.datedMap first +:+ " (" +:+ label +:+ ")")
  ∧ g_seriesName <$> head (gr_series (groupAnimeIntoSeries_internal Examples.noJson
                                        Examples.clockA Examples.laterFirst))
    = Some "Second Season".
Proof.
  destruct (cluster_names decimalNumber decimalNumber) as (_ & Hsoft & Hgroup).
  split.
  - apply (Hsoft NameExample.crossover MoreExamples.datedMap "character"
             [NameExample.characters] NameExample.characters).
    + vm_compute. reflexivity.
    + apply list_elem_of_here.
    + by_computation.
  - destruct (head _) as [g|] eqn:Hg; [|vm_compute in Hg; discriminate].
    simpl. f_equal.
    rewrite (Hgroup Examples.noJson Examples.clockA Examples.laterFirst 0%nat g)
      by (rewrite <- head_lookup; exact Hg).
    vm_compute in Hg. injection Hg as <-. vm_compute. reflexivity.
Defined.

(** ** Every component of a category gives a cluster *)

Lemma elem_of_concat {A} (x : A) (ls : list (list A)) :
  x ∈ concat ls ↔ ∃ l, l ∈ ls ∧ x ∈ l.
Proof.
  induction ls as [|l0 ls IH]; simpl.
  - split; [intros Hx; by apply elem_of_nil in Hx|].
    intros (l & Hl & _). by apply elem_of_nil in Hl.
  - rewrite elem_of_app, IH. split.
    + intros [Hx|(l & Hl & Hx)].
      * exists l0. split; [apply list_elem_of_here|done].
      * exists l. split; [by right|done].
    + intros (l & [->|Hl]%elem_of_cons & Hx); [by left|].
      right. by exists l.
Qed.

Section category_components.
Variable strToNumber : string → option Z.
Variable parseDate : string → option Z.

Local Abbreviation seriesData := (processSeriesData strToNumber parseDate).

Lemma soft_cluster_emitted series animeMap category v w :
  category ∈ softTypes → v ≠ w →
  v ∉ mainAnimeIdsOf (seriesData series animeMap) →
  w ∉ mainAnimeIdsOf (seriesData series animeMap) →
  rtc (categoryLink (g_relations series) category) v w →
  ∃ c, c ∈ softOf (seriesData series animeMap) (toLowerCase category)
       ∧ c_seriesType c = category ∧ v ∈ c_animeIds c ∧ w ∈ c_animeIds c.
Proof.
  intros Hcat Hne Hv Hw Hchain.
  set (m := categoryMap (firstPass (g_relations series)) category).
  destruct (MapComponents.relation_map_groups_spec m) as (_ & Hcover & Hcomp).
  assert (Hlinks : rtc (mapLink m) v w).
  { eapply rtc_iff; [|exact Hchain]. intros a b. by apply mapLink_categoryLink. }
  assert (Hvin : v ∈ concat (findConnectedGroupsFromRelations m)).
  { apply Hcover. inversion Hlinks as [|? y ? Hstep _]; [done|]. by exists y. }
  apply elem_of_concat in Hvin as (group & Hg & Hvg).
  assert (w ∈ group) as Hwg by (by apply (Hcomp group v w Hg Hvg)).
  apply list_elem_of_lookup in Hg as [index Hindex].
  set (fg := filter (λ id, id ∉ mainAnimeIdsOf (seriesData series animeMap)) group).
  assert (v ∈ fg ∧ w ∈ fg) as [Hvf Hwf].
  { subst fg. by rewrite !list_elem_of_filter. }
  assert (¬ (length fg < 2)%nat) as Hlen.
  { destruct fg as [|a [|b fg']]; simpl; [by apply elem_of_nil in Hvf| |lia].
    apply list_elem_of_singleton in Hvf, Hwf. congruence. }
  destruct (softCluster strToNumber parseDate (toLowerCase category) category
              (capitalized category) series animeMap
              (mainAnimeIdsOf (seriesData series animeMap)) index group)
    as [c|] eqn:Hc.
  - exists c. split.
    + apply processSeriesData_soft. by exists category, index, group.
    + pose proof (softCluster_spec strToNumber parseDate _ _ _ _ _ _ _ _ _ Hc)
        as (Hty & _).
      apply softCluster_members in Hc as [_ Hperm]. fold fg in Hperm.
      by rewrite !Hperm.
  - exfalso. unfold softCluster in Hc. fold fg in Hc.
    by rewrite decide_False in Hc.
Qed.

End category_components.

(** X9: the clusters of a category are the components of its relations
    without the members of the MAIN clusters.  A cluster holds, with a
    member, exactly the ids outside the MAIN clusters that a chain of
    relations of the category joins to it; and any two different ids
    outside the MAIN clusters that such a chain joins are together in a
    cluster of the category, stored under its lower-cased name.  For
    OTHER the chain may also go through PARENT relations. *)
Theorem soft_clusters_are_category_components strToNumber parseDate series animeMap :
  let results := processSeriesData strToNumber parseDate series animeMap in
  (∀ key clusters c v w,
     res_soft results !! key = Some clusters → c ∈ clusters → v ∈ c_animeIds c →
     (w ∈ c_animeIds c
      ↔ (w ∉ mainAnimeIdsOf results)
        ∧ rtc (categoryLink (g_relations series) (c_seriesType c)) v w))
  ∧ (∀ category v w,
       category ∈ softTypes → v ≠ w →
       v ∉ mainAnimeIdsOf results → w ∉ mainAnimeIdsOf results →
       rtc (categoryLink (g_relations series) category) v w →
       ∃ c, c ∈ softOf results (toLowerCase category)
            ∧ c_seriesType c = category ∧ v ∈ c_animeIds c ∧ w ∈ c_animeIds c).
Proof.
  intros results. split.
  - intros key clusters c v w. apply soft_cluster_component.
  - intros category v w. apply soft_cluster_emitted.
Qed.

(** ** The books of a group *)

Section books_facts.
Variable env : nat → Z * Z.
Variable recs : list Anime.
Variable animeMap : gmap string nat.

Local Abbreviation step := (groupStep env recs animeMap).
Local Abbreviation closure := (λ a, t_processed (relatedIdsOf recs animeMap a)).
Local Abbreviation books := (groupBooks recs animeMap).

Lemma typeIndex_empty : typeIndex [] ∅.
Proof.
  intros ty. rewrite lookup_empty. simpl. split_and!.
  - apply NoDup_nil_2.
  - intros k. split.
    + intros Hk. by apply elem_of_nil in Hk.
    + intros (r & Hr & _). by apply elem_of_nil in Hr.
  - split.
    + intros [x Hx]. done.
    + intros (r & Hr & _). by apply elem_of_nil in Hr.
Qed.

Lemma typeIndex_add relations index r :
  typeIndex relations index →
  let keys := default [] (index !! r_relationType r) in
  typeIndex (relations ++ [r])
    (<[r_relationType r :=
         if decide (relationKey2 r ∈ keys) then keys else keys ++ [relationKey2 r]]>
       index).
Proof.
  intros Hindex keys ty.
  assert (Hsnoc : ∀ P : GroupRel → Prop,
            (∃ r', r' ∈ relations ++ [r] ∧ P r')
            ↔ (∃ r', r' ∈ relations ∧ P r') ∨ P r).
  { intros P. split.
    - intros (r' & [Hin| ->%list_elem_of_singleton]%elem_of_app & HP); eauto.
    - intros [(r' & Hin & HP)|HP].
      + exists r'. split; [|done]. apply elem_of_app. by left.
      + exists r. split; [|done]. apply elem_of_app. right. apply list_elem_of_here. }
  destruct (Hindex ty) as (Hnd & Hkeys & Hsome).
  destruct (decide (r_relationType r = ty)) as [Hty|Hty].
  - subst ty. rewrite lookup_insert_eq. simpl.
    change (if decide (relationKey2 r ∈ keys) then keys else keys ++ [relationKey2 r])
      with (set_add (relationKey2 r) keys).
    split_and!.
    + by apply NoDup_set_add.
    + intros k. rewrite elem_of_set_add_str.
      rewrite (Hsnoc (λ r', r_relationType r' = r_relationType r ∧ relationKey2 r' = k)).
      subst keys. rewrite Hkeys. intuition congruence.
    + split; [|by eexists]. intros _. exists r. split; [|done].
      apply elem_of_app. right. apply list_elem_of_here.
  - rewrite lookup_insert_ne by done. split_and!; [done| |].
    + intros k.
      rewrite (Hsnoc (λ r', r_relationType r' = ty ∧ relationKey2 r' = k)), Hkeys.
      intuition congruence.
    + rewrite (Hsnoc (λ r', r_relationType r' = ty)), Hsome. intuition congruence.
Qed.

Lemma addGroupRelation_fold anime rels g :
  let g' := foldl (addGroupRelation anime) g rels in
  g_relations g' =
    g_relations g
    ++ ((λ relation, mkGroupRel (a_id anime) (relTarget relation)
                       (relTypeOf relation) "forward") <$> rels)
  ∧ g_animeDetails g' = g_animeDetails g
  ∧ (typeIndex (g_relations g) (g_relationTypes g) →
     typeIndex (g_relations g') (g_relationTypes g')).
Proof.
  revert g. induction rels as [|rel rels IH]; intros g; simpl.
  - by rewrite app_nil_r.
  - destruct (IH (addGroupRelation anime g rel)) as (H1 & H2 & H3).
    split_and!.
    { rewrite H1. simpl. by rewrite <- app_assoc. }
    { by rewrite H2. }
    intros Hindex. apply H3. simpl.
    apply (typeIndex_add (g_relations g) (g_relationTypes g)
             (mkGroupRel (a_id anime) (relTarget rel) (relTypeOf rel) "forward")).
    done.
Qed.

(** What [animeDetails.forEach] writes into the group and onto the
    records. *)
Lemma addDetail_books seriesId details acc :
  let r := foldl (addDetail seriesId) acc details in
  g_relations r.1.1
    = g_relations acc.1.1 ++ (details ≫= (λ ia, groupRelationsOf ia.2))
  ∧ (typeIndex (g_relations acc.1.1) (g_relationTypes acc.1.1) →
     typeIndex (g_relations r.1.1) (g_relationTypes r.1.1))
  ∧ (∀ k v, g_animeDetails r.1.1 !! k = Some v →
       g_animeDetails acc.1.1 !! k = Some v
       ∨ ∃ ia, ia ∈ details ∧ k = jsStr (a_id ia.2)
               ∧ v = (a_id ia.2, detailTitle ia.2))
  ∧ (∀ k, is_Some (g_animeDetails acc.1.1 !! k) →
          is_Some (g_animeDetails r.1.1 !! k))
  ∧ (∀ ia, ia ∈ details → is_Some (g_animeDetails r.1.1 !! jsStr (a_id ia.2)))
  ∧ (∀ i sid, r.2 !! i = Some sid →
       acc.2 !! i = Some sid ∨ (sid = seriesId ∧ ∃ ia, ia ∈ details ∧ ia.1 = i))
  ∧ (∀ i, is_Some (acc.2 !! i) → is_Some (r.2 !! i))
  ∧ (∀ ia, ia ∈ details → is_Some (r.2 !! ia.1)).
Proof.
  revert acc. induction details as [|ia details IH]; intros acc.
  { simpl. rewrite app_nil_r. split_and!; try done.
    - intros k v Hk. by left.
    - intros ia Hia. by apply elem_of_nil in Hia.
    - intros i sid Hi. by left.
    - intros ia Hia. by apply elem_of_nil in Hia. }
  cbn [foldl].
  destruct (IH (addDetail seriesId acc ia))
    as (H1 & H2 & H3 & H4 & H5 & H6 & H7 & H8).
  set (g0 := mkSeriesGroup (g_seriesId acc.1.1) (g_seriesName acc.1.1)
               (g_animeIds acc.1.1)
               (<[jsStr (a_id ia.2) := (a_id ia.2, detailTitle ia.2)]>
                  (g_animeDetails acc.1.1))
               (g_relations acc.1.1) (g_relationTypes acc.1.1)).
  assert (E1 : (addDetail seriesId acc ia).1.1
               = foldl (addGroupRelation ia.2) g0 (relationsOf ia.2))
    by reflexivity.
  assert (E2 : (addDetail seriesId acc ia).2 = <[ia.1 := seriesId]> acc.2)
    by reflexivity.
  rewrite E1 in H1, H2, H3, H4. rewrite E2 in H6, H7. clear E1 E2.
  destruct (addGroupRelation_fold ia.2 (relationsOf ia.2) g0) as (G1 & G2 & G3).
  change (g_relations g0) with (g_relations acc.1.1) in G1, G3.
  change (g_relationTypes g0) with (g_relationTypes acc.1.1) in G3.
  change (g_animeDetails g0)
    with (<[jsStr (a_id ia.2) := (a_id ia.2, detailTitle ia.2)]>
            (g_animeDetails acc.1.1)) in G2.
  split_and!.
  - rewrite H1, G1, bind_cons, <- app_assoc. done.
  - intros Hindex. apply H2, G3, Hindex.
  - intros k v Hk. destruct (H3 k v Hk) as [Hold|(ia' & Hia' & Hrest)].
    + rewrite G2 in Hold.
      destruct (decide (jsStr (a_id ia.2) = k)) as [<-|Hne].
      * rewrite lookup_insert_eq in Hold. injection Hold as <-.
        right. exists ia. split; [apply list_elem_of_here|done].
      * rewrite lookup_insert_ne in Hold by done. by left.
    + right. exists ia'. split; [by right|done].
  - intros k Hk. apply H4. rewrite G2.
    destruct (decide (jsStr (a_id ia.2) = k)) as [<-|Hne].
    + by rewrite lookup_insert_eq.
    + by rewrite lookup_insert_ne.
  - intros ia' [->|Hia']%elem_of_cons; [|by apply H5].
    apply H4. rewrite G2. by rewrite lookup_insert_eq.
  - intros i sid Hi. destruct (H6 i sid Hi) as [Hold|(-> & ia' & Hia' & Hi')].
    + destruct (decide (ia.1 = i)) as [<-|Hne].
      * rewrite lookup_insert_eq in Hold. injection Hold as <-.
        right. split; [done|]. exists ia. split; [apply list_elem_of_here|done].
      * rewrite lookup_insert_ne in Hold by done. by left.
    + right. split; [done|]. exists ia'. split; [by right|done].
  - intros i Hi. apply H7.
    destruct (decide (ia.1 = i)) as [<-|Hne].
    + by rewrite lookup_insert_eq.
    + by rewrite lookup_insert_ne.
  - intros ia' [->|Hia']%elem_of_cons; [|by apply H8].
    apply H7. by rewrite lookup_insert_eq.
Qed.

Local Abbreviation GroupInv := (GroupInv recs animeMap).
Local Abbreviation BooksInv := (BooksInv recs animeMap).

Lemma BooksInv_initial log : BooksInv [] (initialState log).
Proof.
  split; simpl.
  - intros g Hg. by apply elem_of_nil in Hg.
  - intros g Hg. by apply elem_of_nil in Hg.
  - intros g Hg. by apply elem_of_nil in Hg.
  - intros g y Hg. by apply elem_of_nil in Hg.
  - apply NoDup_nil_2.
  - intros o Ho. by apply elem_of_nil in Ho.
  - intros e He. by apply elem_of_nil in He.
  - intros i sid Hi. by rewrite lookup_empty in Hi.
  - intros g y i anime Hg. by apply elem_of_nil in Hg.
Qed.

Lemma BooksInv_weaken pre anime s : BooksInv pre s → BooksInv (pre ++ [anime]) s.
Proof.
  intros [H1 H0 H2 H3 H4 H5 H6 H7 H8]. split; try done.
  - intros g Hg. destruct (H0 g Hg) as (a & Ha & Hrest).
    exists a. split; [|done]. apply elem_of_app. by left.
  - intros o Ho. destruct (H5 o Ho) as [Hp (a & Ha & Hrest)]. split; [done|].
    exists a. split; [|done]. apply elem_of_app. by left.
Qed.

Lemma BooksInv_log pre log s : BooksInv pre s → BooksInv pre (appendLog log s).
Proof. intros [H1 H0 H2 H3 H4 H5 H6 H7 H8]. by split. Qed.

Lemma BooksInv_orphan pre anime reason s :
  BooksInv pre s →
  a_id anime ∉ gs_processedIds s →
  (reason = "No relations found" ∧ relationsOf anime = [])
  ∨ (reason = "No reciprocal relations found"
     ∧ relationsOf anime ≠ [] ∧ closure (a_id anime) = [a_id anime]) →
  BooksInv (pre ++ [anime]) (addOrphan anime reason s).
Proof.
  intros [H1 H0 H2 H3 H4 H5 H6 H7 H8] Hnew Hreason. split; simpl; try done.
  - intros g Hg. destruct (H0 g Hg) as (a & Ha & Hrest).
    exists a. split; [|done]. apply elem_of_app. by left.
  - intros g y Hg Hy. apply elem_of_set_add. left. by eapply H3.
  - rewrite fmap_app. apply NoDup_app. split_and!; [done| |apply NoDup_singleton].
    intros x Hx Hx'%list_elem_of_singleton. simpl in Hx'. subst x. apply Hnew.
    apply list_elem_of_fmap in Hx as (o & Heq & Ho). rewrite Heq. by apply H5.
  - intros o [Ho| ->%list_elem_of_singleton]%elem_of_app.
    + destruct (H5 o Ho) as [Hp (a & Ha & Hrest)]. split.
      * apply elem_of_set_add. by left.
      * exists a. split; [|done]. apply elem_of_app. by left.
    + simpl. split; [apply elem_of_set_add; by right|].
      exists anime. split; [|done]. apply elem_of_app. right. apply list_elem_of_here.
Qed.

Lemma BooksInv_reject pre anime relatedIds s :
  GroupInv s → BooksInv pre s →
  BooksInv (pre ++ [anime])
    (rejectClosure recs animeMap relatedIds
       (filter (λ i, is_Some (gs_animeToSeries s !! i)) relatedIds) s).
Proof.
  intros [_ _ Hassigned _] [H1 H0 H2 H3 H4 H5 H6 H7 H8]. split; simpl; try done.
  - intros g Hg. destruct (H0 g Hg) as (a & Ha & Hrest).
    exists a. split; [|done]. apply elem_of_app. by left.
  - intros g y Hg Hy. apply elem_of_markProcessed. left. by eapply H3.
  - intros o Ho. destruct (H5 o Ho) as [Hp (a & Ha & Hrest)]. split.
    + apply elem_of_markProcessed. by left.
    + exists a. split; [|done]. apply elem_of_app. by left.
  - intros e [He|He]%elem_of_app; [by apply H6|].
    apply list_elem_of_fmap in He as (x & -> & [[sid Hsid] Hx]%list_elem_of_filter).
    destruct (Hassigned x sid Hsid) as (g & y & i & a & Hg & Hid & Hy & Hlook & Hx').
    exists g, y, i, a. unfold conflictEntry. simpl. rewrite Hsid, Hid. done.
Qed.

Lemma BooksInv_finalize pre anime relatedIds s :
  relatedIds = closure (a_id anime) → relationsOf anime ≠ [] →
  BooksInv pre s →
  BooksInv (pre ++ [anime]) (finalizeGroup env recs animeMap relatedIds s).
Proof.
  intros Hclosure Hrels [H1 H0 H2 H3 H4 H5 H6 H7 H8]. unfold finalizeGroup.
  set (animeDetails := omap (lookupAnime recs animeMap) relatedIds).
  set (seriesId := generateSeriesId env animeDetails (gs_seriesIds s) (length (gs_series s))).
  set (seriesName := strOrD _ _).
  set (acc := (mkSeriesGroup seriesId seriesName relatedIds ∅ [] ∅,
               gs_animeToSeries s, gs_seriesIdOf s)).
  destruct (addDetail_fold seriesId animeDetails acc)
    as (F1 & _ & F3 & _).
  destruct (addDetail_books seriesId animeDetails acc)
    as (B1 & B2 & B3 & _ & B5 & B6 & B7 & B8).
  simpl in F1, F3, B1, B2, B3, B5, B6, B7, B8.
  set (r := foldl (addDetail seriesId) acc animeDetails) in *.
  assert (Hnew : groupBooks recs animeMap r.1.1).
  { unfold groupBooks. rewrite F3. fold animeDetails. split_and!.
    - exact B1.
    - apply B2. apply typeIndex_empty.
    - intros k v Hk. destruct (B3 k v Hk) as [Hold|?]; [|done].
      by rewrite lookup_empty in Hold.
    - exact B5. }
  split; simpl.
  - intros g [Hg| ->%list_elem_of_singleton]%elem_of_app; [by apply H1|done].
  - intros g [Hg| ->%list_elem_of_singleton]%elem_of_app.
    + destruct (H0 g Hg) as (a & Ha & Hrest).
      exists a. split; [|done]. apply elem_of_app. by left.
    + exists anime. split_and!; [|done|by rewrite F3].
      apply elem_of_app. right. apply list_elem_of_here.
  - intros g [Hg| ->%list_elem_of_singleton]%elem_of_app.
    + apply elem_of_union. right. by apply H2.
    + apply elem_of_union. left. rewrite F1. by apply elem_of_singleton.
  - intros g y [Hg| ->%list_elem_of_singleton]%elem_of_app Hy.
    + apply elem_of_markProcessed. left. by eapply H3.
    + apply elem_of_markProcessed. right. by rewrite F3 in Hy.
  - done.
  - intros o Ho. destruct (H5 o Ho) as [Hp (a & Ha & Hrest)]. split.
    + apply elem_of_markProcessed. by left.
    + exists a. split; [|done]. apply elem_of_app. by left.
  - intros e He. destruct (H6 e He) as (g & y & i & a & Hg & Hrest).
    exists g, y, i, a. split; [|done]. apply elem_of_app. by left.
  - intros i sid Hi. destruct (B6 i sid Hi) as [Hold|(-> & [i' a] & Hia & <-)].
    + destruct (H7 i sid Hold) as (g & y & a & Hg & Hrest).
      exists g, y, a. split; [|done]. apply elem_of_app. by left.
    + apply list_elem_of_omap in Hia as (y & Hy & Hlook).
      exists r.1.1, y, a. split_and!; [|done|by rewrite F3|done].
      apply elem_of_app. right. apply list_elem_of_here.
  - intros g y i a [Hg| ->%list_elem_of_singleton]%elem_of_app Hy Hlook.
    + apply B7. by eapply H8.
    + rewrite F3 in Hy. simpl in Hy.
      apply (B8 (i, a)). apply list_elem_of_omap. by exists y.
Qed.

Lemma BooksInv_step pre s anime :
  GroupInv s → BooksInv pre s → BooksInv (pre ++ [anime]) (step s anime).
Proof.
  intros Hinv Hbooks.
  destruct (groupStep_case env recs animeMap s anime)
    as [|Hnew Hnone|Hnew Hrels Hlen|Hnew Hrels Hlen Hconf|Hnew Hrels Hlen Hconf].
  - by apply BooksInv_weaken.
  - apply BooksInv_orphan; [done|done|]. by left.
  - apply BooksInv_orphan; [by apply BooksInv_log|done|]. right.
    split_and!; [done|done|].
    unfold stepClosure in Hlen.
    destruct (relatedIdsOf_head recs animeMap (a_id anime)) as [suffix Hsuffix].
    rewrite Hsuffix in Hlen |- *. destruct suffix; [done|simpl in Hlen; lia].
  - apply BooksInv_finalize; [done|done|]. by apply BooksInv_log.
  - apply (BooksInv_reject pre anime (stepClosure recs animeMap anime)
             (stepLogged recs animeMap s anime)).
    + destruct Hinv. by split.
    + by apply BooksInv_log.
Qed.

Lemma BooksInv_run (animes : list Anime) log :
  let s := foldl step (initialState log) animes in
  GroupInv s ∧ BooksInv animes s ∧ ∀ anime, anime ∈ animes → a_id anime ∈ gs_processedIds s.
Proof.
  apply (Components.foldl_invariant_prefix (λ pre s,
    GroupInv s ∧ BooksInv pre s ∧ ∀ anime, anime ∈ pre → a_id anime ∈ gs_processedIds s)).
  - split_and!.
    + apply GroupInv_initial.
    + apply BooksInv_initial.
    + intros anime Ha. by apply elem_of_nil in Ha.
  - intros pre anime s _ (Hinv & Hbooks & Hproc). split_and!.
    + by apply GroupInv_step.
    + by apply BooksInv_step.
    + intros a [Ha| ->%list_elem_of_singleton]%elem_of_app.
      * apply groupStep_processed_mono. by apply Hproc.
      * destruct (groupStep_case env recs animeMap s anime)
          as [|Hnew Hnone|Hnew Hrels Hlen|Hnew Hrels Hlen Hconf|Hnew Hrels Hlen Hconf];
          simpl; rewrite ?elem_of_set_add, ?elem_of_markProcessed; auto.
        -- right. unfold stepClosure.
           destruct (relatedIdsOf_head recs animeMap (a_id anime)) as [suffix ->].
           apply list_elem_of_here.
        -- right. unfold stepClosure.
           destruct (relatedIdsOf_head recs animeMap (a_id anime)) as [suffix ->].
           apply list_elem_of_here.
Qed.

End books_facts.

(** ** The ids of the groups *)

Lemma uniqueSeriesId_first slug (existingIds : gset string) fuel j :
  (∀ i, (i < j)%nat → candidateId slug i ∈ existingIds) →
  (size existingIds < fuel + j)%nat →
  ∃ j', uniqueSeriesId fuel slug existingIds (candidateId slug j) (S j)
        = candidateId slug j'
        ∧ (candidateId slug j' ∉ existingIds)
        ∧ ∀ i, (i < j')%nat → candidateId slug i ∈ existingIds.
Proof.
  revert j. induction fuel as [|fuel IH]; intros j Htried Hsize.
  - exists j. split_and!; [done| |done].
    apply (uniqueSeriesId_loop slug existingIds 0 j Htried Hsize).
  - simpl. destruct (decide (candidateId slug j ∈ existingIds)) as [Hin|Hin].
    + apply (IH (S j)).
      * intros i Hi. destruct (decide (i = j)) as [->|Hne]; [done|]. apply Htried. lia.
      * lia.
    + by exists j.
Qed.

Section id_facts.
Variable env : nat → Z * Z.
Variable recs : list Anime.
Variable animeMap : gmap string nat.

Local Abbreviation step := (groupStep env recs animeMap).
Local Abbreviation BooksInv := (BooksInv recs animeMap).

(** X19: when the first member has a title, the id of a group is the
    first of the candidates [slug], [slug_1], [slug_2], ... that is not
    in use. *)
Theorem generateSeriesId_first_free details (existingIds : gset string) k i first :
  head details = Some (i, first) →
  strTruthy (a_title first) = true →
  let slug := slugOf (default "" (a_title first)) in
  ∃ j, generateSeriesId env details existingIds k = candidateId slug j
       ∧ (candidateId slug j ∉ existingIds)
       ∧ ∀ j', (j' < j)%nat → candidateId slug j' ∈ existingIds.
Proof.
  intros Hhead Htitle slug. unfold generateSeriesId. rewrite Hhead, Htitle.
  apply (uniqueSeriesId_first slug existingIds (S (size existingIds)) 0).
  - intros j Hj. lia.
  - lia.
Qed.

Hypothesis titles : ∀ anime, anime ∈ recs → strTruthy (a_title anime) = true.



End id_facts.

(** ** The results of a run *)

Section run_facts.
Variable JSON_parse : string → option RelValue.
Variable env : nat → Z * Z.

Local Abbreviation run := (groupAnimeIntoSeries_internal JSON_parse env).
Local Abbreviation normalized := (normalizePass JSON_parse).
Local Abbreviation recordOf :=
  (λ animeData, lookupAnime (ns_animeData (normalized animeData))
                  (ns_animeMap (normalized animeData))).

Lemma run_books animeData :
  let n := normalized animeData in
  let s := secondPass JSON_parse env animeData in
  GroupInv (ns_animeData n) (ns_animeMap n) s
  ∧ BooksInv (ns_animeData n) (ns_animeMap n) (ns_animeData n) s
  ∧ ∀ anime, anime ∈ ns_animeData n → a_id anime ∈ gs_processedIds s.
Proof. apply BooksInv_run. Qed.

Lemma normalized_records animeData anime :
  anime ∈ ns_animeData (normalized animeData) ↔
  ∃ raw, raw ∈ animeData ∧ anime = (normalizeAnime JSON_parse raw).1.
Proof.
  destruct (normalizePass_spec JSON_parse animeData) as (Hd & _ & _).
  rewrite Hd, list_elem_of_fmap. split; intros (raw & H1 & H2); by exists raw.
Qed.

(** X22: the relation list of a group is, member after member in the
    order of the group, the relations of the record of each member,
    each with the own id of the record as its source, the target and
    the type that the second pass reads, and the direction [forward]. *)
Theorem group_relations_follow_member_records animeData g :
  g ∈ gr_series (run animeData) →
  g_relations g
  = omap (recordOf animeData) (g_animeIds g) ≫= (λ ia, groupRelationsOf ia.2).
Proof.
  intros Hg. destruct (run_books animeData) as (_ & Hbooks & _).
  by destruct (books_groups _ _ _ _ Hbooks g Hg) as (H1 & _).
Qed.

(** X23: the index by relation type of a group lists under each type,
    once each, the keys [source->target] of the relations of that type,
    and has no entry for any other type. *)
Theorem relation_type_index_lists_keys_once animeData g :
  g ∈ gr_series (run animeData) →
  typeIndex (g_relations g) (g_relationTypes g).
Proof.
  intros Hg. destruct (run_books animeData) as (_ & Hbooks & _).
  by destruct (books_groups _ _ _ _ Hbooks g Hg) as (_ & H2 & _).
Qed.

(** X24: the details of a group hold an entry for every member that has
    a record, under the own id of the record, with the id and the
    romanized title, else the plain title, else [Unknown Title]; and
    they hold nothing else. *)
Theorem anime_details_of_member_records animeData g :
  g ∈ gr_series (run animeData) →
  (∀ k v, g_animeDetails g !! k = Some v →
     ∃ y i anime, y ∈ g_animeIds g ∧ recordOf animeData y = Some (i, anime)
       ∧ k = jsStr (a_id anime) ∧ v = (a_id anime, detailTitle anime))
  ∧ (∀ y i anime, y ∈ g_animeIds g → recordOf animeData y = Some (i, anime) →
       is_Some (g_animeDetails g !! jsStr (a_id anime))).
Proof.
  intros Hg. destruct (run_books animeData) as (_ & Hbooks & _).
  destruct (books_groups _ _ _ _ Hbooks g Hg) as (_ & _ & H3 & H4). split.
  - intros k v Hk. destruct (H3 k v Hk) as ([i anime] & Hia & -> & ->).
    apply list_elem_of_omap in Hia as (y & Hy & Hlook). by exists y, i, anime.
  - intros y i anime Hy Hlook. apply (H4 (i, anime)).
    apply list_elem_of_omap. by exists y.
Qed.

(** X21: every group lists the closure of a record that has relations,
    starting with the id of that record; it has two members or more and
    no member twice. *)
Theorem groups_start_at_records animeData g :
  let n := normalized animeData in
  g ∈ gr_series (run animeData) →
  ∃ anime rest,
    anime ∈ ns_animeData n ∧ relationsOf anime ≠ []
    ∧ g_animeIds g
      = t_processed (relatedIdsOf (ns_animeData n) (ns_animeMap n) (a_id anime))
    ∧ g_animeIds g = a_id anime :: rest ∧ rest ≠ []
    ∧ NoDup (g_animeIds g).
Proof.
  intros n Hg. destruct (run_books animeData) as (Hinv & Hbooks & _).
  destruct (books_start _ _ _ _ Hbooks g Hg) as (anime & Ha & Hrels & Hids).
  destruct (inv_members _ _ _ Hinv g Hg) as (a' & _ & Hlen).
  destruct (relatedIdsOf_head (ns_animeData n) (ns_animeMap n) (a_id anime))
    as [rest Hrest].
  exists anime, rest. split_and!; try done.
  - by rewrite Hids.
  - intros ->. rewrite Hids in Hlen. fold n in Hlen. by rewrite Hrest in Hlen.
  - rewrite Hids. apply relatedIdsOf_reach.
Qed.

(** X26: no id has two orphan entries, and an orphan entry carries the id
    and the title of a record that has no relation, or that has
    relations and a closure of its own id alone. *)
Theorem orphan_entries animeData :
  let n := normalized animeData in
  let orphans := orphanedAnime (gr_edgeCases (run animeData)) in
  NoDup (oe_animeId <$> orphans)
  ∧ ∀ o, o ∈ orphans →
      ∃ anime, anime ∈ ns_animeData n
        ∧ o = mkOrphanEntry (a_id anime) (a_title anime) (oe_reason o)
        ∧ ((oe_reason o = "No relations found" ∧ relationsOf anime = [])
           ∨ (oe_reason o = "No reciprocal relations found"
              ∧ relationsOf anime ≠ []
              ∧ t_processed (relatedIdsOf (ns_animeData n) (ns_animeMap n)
                               (a_id anime)) = [a_id anime])).
Proof.
  intros n orphans. destruct (run_books animeData) as (_ & Hbooks & _). split.
  - apply (books_orphan_ids _ _ _ _ Hbooks).
  - intros o Ho. by destruct (books_orphans _ _ _ _ Hbooks o Ho) as [_ ?].
Qed.

(** X27: a multi-membership entry names an emitted group that lists the
    record whose id it reports, followed by the placeholder of the
    rejected group. *)
Theorem multi_membership_entries_name_a_group animeData e :
  let r := groupAnimeIntoSeries_internal JSON_parse env animeData in
  let n := normalizePass JSON_parse animeData in
  e ∈ animeInMultipleSeries (gr_edgeCases r) →
  ∃ g y i anime,
    g ∈ gr_series r
    ∧ me_foundInSeries e
      = [(g_seriesId g, g_seriesId g); ("proposed_new_series", "Proposed New Series")]
    ∧ y ∈ g_animeIds g
    ∧ lookupAnime (ns_animeData n) (ns_animeMap n) y = Some (i, anime)
    ∧ a_id anime = me_animeId e.
Proof.
  intros r n He. destruct (run_books animeData) as (_ & Hbooks & _).
  apply (books_multi _ _ _ _ Hbooks e He).
Qed.

Lemma recordOf_position animeData y i anime :
  recordOf animeData y = Some (i, anime) →
  ns_animeData (normalized animeData) !! i = Some anime.
Proof.
  unfold lookupAnime. intros Hlook.
  destruct (ns_animeMap (normalized animeData) !! jsStr y) as [j|]; simpl in Hlook;
    [|done].
  destruct (ns_animeData (normalized animeData) !! j) as [a'|] eqn:Hj;
    simpl in Hlook; [|done].
  by injection Hlook as -> ->.
Qed.

(** X25: of a record of the caller, a run changes the relations, which
    the first pass overwrites with the edge objects that stand for the
    raw value, and the [seriesId]; the id, the titles and the start date
    stay.  The [seriesId] stays as it was or becomes the id of an
    emitted group that lists a member with that record, and the record
    of every member of every group gets the id of a group. *)
Theorem series_ids_written_on_records animeData :
  let r := run animeData in
  Forall2 (overwritten JSON_parse) animeData (gr_animeData r)
  ∧ (∀ i raw anime', animeData !! i = Some raw → gr_animeData r !! i = Some anime' →
       a_seriesId anime' = a_seriesId raw
       ∨ ∃ g y anime, g ∈ gr_series r ∧ y ∈ g_animeIds g
           ∧ recordOf animeData y = Some (i, anime)
           ∧ a_seriesId anime' = Some (g_seriesId g))
  ∧ (∀ g y i anime, g ∈ gr_series r → y ∈ g_animeIds g →
       recordOf animeData y = Some (i, anime) →
       ∃ g', g' ∈ gr_series r
         ∧ gr_animeData r !! i = Some (setSeriesId anime (g_seriesId g'))).
Proof.
  intros r. split; [apply run_overwritten|].
  destruct (run_books animeData) as (_ & Hbooks & _).
  subst r. unfold groupAnimeIntoSeries_internal.
  fold (secondPass JSON_parse env animeData). simpl. split.
  - intros i raw anime' Hraw Hi. rewrite list_lookup_imap in Hi.
    destruct (normalizePass_spec JSON_parse animeData) as (Hd & _).
    assert (ns_animeData (normalized animeData) !! i
            = Some (normalizeAnime JSON_parse raw).1) as Ha.
    { by rewrite Hd, list_lookup_fmap, Hraw. }
    rewrite Ha in Hi. simpl in Hi.
    destruct (gs_seriesIdOf (secondPass JSON_parse env animeData) !! i)
      as [sid|] eqn:Hsid; [|left; by injection Hi as <-].
    right. injection Hi as <-.
    destruct (books_attached _ _ _ _ Hbooks i sid Hsid)
      as (g & y & a & Hg & Hid & Hy & Hlook).
    exists g, y, a. split_and!; [done|done|done|]. simpl. by rewrite Hid.
  - intros g y i anime Hg Hy Hlook.
    destruct (books_attached_all _ _ _ _ Hbooks g y i anime Hg Hy Hlook) as [sid Hsid].
    destruct (books_attached _ _ _ _ Hbooks i sid Hsid)
      as (g' & y' & a' & Hg' & Hid & _).
    exists g'. split; [done|]. rewrite list_lookup_imap.
    rewrite (recordOf_position _ _ _ _ Hlook). simpl. by rewrite Hsid, Hid.
Qed.

(** X28: when the second pass ends, the id of every record is
    processed. *)
Theorem every_record_is_processed animeData anime :
  anime ∈ animeData →
  a_id anime ∈ gs_processedIds (secondPass JSON_parse env animeData).
Proof.
  intros Hin. destruct (run_books animeData) as (_ & _ & Hproc).
  apply (Hproc (normalizeAnime JSON_parse anime).1).
  apply normalized_records. by exists anime.
Qed.


End run_facts.

(** ** The first pass and the log *)

Lemma pretty_N_go_ne_empty x s : s ≠ "" → pretty_N_go x s ≠ "".
Proof.
  revert s. induction (N.lt_wf_0 x) as [x _ IH]; intros s Hs.
  assert (x = 0 ∨ 0 < x)%N as [->|?] by lia.
  - by rewrite pretty_N_go_0.
  - rewrite pretty_N_go_step by done. apply IH; [|done].
    by apply N.div_lt.
Qed.

Lemma pretty_N_ne_empty (x : N) : pretty x ≠ "".
Proof.
  unfold pretty, pretty_N. destruct (decide (x = 0)%N) as [|Hx]; [done|].
  assert (0 < x)%N by lia.
  rewrite pretty_N_go_step by done. by apply pretty_N_go_ne_empty.
Qed.

Lemma pretty_Z_ne_empty (x : Z) : pretty x ≠ "".
Proof.
  destruct x as [|p|p]; [done| |done].
  apply (pretty_N_ne_empty (Npos p)).
Qed.

Lemma truthy_jsStr v : truthy v = true → truthy (JStr (jsStr v)) = true.
Proof.
  destruct v as [|s|n]; simpl; [done|done|]. intros _.
  apply negb_true_iff. apply String.eqb_neq. apply pretty_Z_ne_empty.
Qed.

Lemma normalizeRel_idempotent rel : normalizeRel (normalizeRel rel) = normalizeRel rel.
Proof.
  destruct rel as [v|o]; [done|]. cbn [normalizeRel].
  destruct (truthy (rel_node_id o)) eqn:Hnode; [done|].
  destruct (truthy (rel_id o) && negb (truthy (rel_targetAnimeId o))) eqn:Hid.
  - cbn [normalizeRel rel_node_id rel_id rel_targetAnimeId].
    rewrite Hnode. apply andb_true_iff in Hid as [Hid _].
    rewrite Hid, (truthy_jsStr _ Hid). done.
  - cbn [normalizeRel]. by rewrite Hnode, Hid.
Qed.

Section first_pass_facts.
Variable JSON_parse : string → option RelValue.
Variable env : nat → Z * Z.

Local Abbreviation normalize := (normalizeAnime JSON_parse).
Local Abbreviation run := (groupAnimeIntoSeries_internal JSON_parse env).

(** X16: the normalisation of the first pass is idempotent: a normalized
    record is left as it is, without a warning. *)
Theorem normalization_is_idempotent anime :
  normalizeAnime JSON_parse (normalizeAnime JSON_parse anime).1
  = ((normalizeAnime JSON_parse anime).1, []).
Proof.
  unfold normalizeAnime, parseRelations, setRelations. simpl.
  assert (H : ∀ l, VArray (normalizeRel <$> (normalizeRel <$> l))
                   = VArray (normalizeRel <$> l)).
  { intros l. f_equal. rewrite <- list_fmap_compose.
    apply list_fmap_ext. intros i x _. apply normalizeRel_idempotent. }
  destruct (a_relations anime) as [|s|l|]; simpl; try done.
  - destruct (String.eqb s ""); simpl; [done|].
    destruct (JSON_parse s) as [[|s'|l|]|]; simpl; try done. by rewrite H.
  - by rewrite H.
Qed.

Lemma normalizeStep_log st l :
  ns_log (foldl (normalizeStep JSON_parse) st l)
  = ns_log st ++ (l ≫= (λ ia : nat * Anime, (normalize ia.2).2)).
Proof.
  revert st. induction l as [|ia l IH]; intros st; simpl.
  - by rewrite app_nil_r.
  - rewrite IH. simpl. by rewrite <- app_assoc.
Qed.

Lemma bind_imap_snd {A B} (f : A → list B) (j : nat → A → nat * A) (l : list A) :
  (∀ i x, (j i x).2 = x) →
  imap j l ≫= (λ ia, f ia.2) = l ≫= f.
Proof.
  revert j. induction l as [|x l IH]; intros j Hj; [done|].
  rewrite imap_cons, !bind_cons, Hj. f_equal. apply IH. intros i y. apply Hj.
Qed.

Lemma normalizePass_log animeData :
  ns_log (normalizePass JSON_parse animeData)
  = animeData ≫= (λ anime, (normalize anime).2).
Proof.
  unfold normalizePass. rewrite normalizeStep_log. simpl.
  by apply (bind_imap_snd (λ anime, (normalize anime).2)).
Qed.

Section traversal_log.
Variable recs : list Anime.
Variable animeMap : gmap string nat.

Lemma findAll_log fuel a st :
  Forall isCircularWarning (t_log st) →
  Forall isCircularWarning (t_log (findAllRelatedIds recs animeMap fuel a st)).
Proof.
  revert a st. induction fuel as [|fuel IH]; intros a st Hst; simpl; [done|].
  destruct (decide (a ∈ t_processed st)); [done|].
  destruct (lookupAnime recs animeMap a) as [[i anime]|]; [|done].
  apply (foldl_invariant (λ st, Forall isCircularWarning (t_log st))); [done|].
  intros st' relation Hst'. unfold visitRelation.
  destruct (truthy (relTarget relation)); [|done].
  set (log := if decide (relTarget relation ∈ default [] (t_chains st' !! a))
              then _ else _).
  assert (Hlog : Forall isCircularWarning log).
  { subst log. destruct (decide (relTarget relation ∈ _)); [|done].
    apply Forall_app. split; [done|]. by apply Forall_singleton. }
  simpl. destruct (decide (relTarget relation ∈ t_processed st')); [done|].
  by apply IH.
Qed.

Lemma groupStep_log s anime :
  ∃ more, gs_log (groupStep env recs animeMap s anime) = gs_log s ++ more
          ∧ Forall isCircularWarning more.
Proof.
  assert (Hc : Forall isCircularWarning (t_log (relatedIdsOf recs animeMap (a_id anime)))).
  { apply findAll_log. apply Forall_nil_2. }
  destruct (groupStep_case env recs animeMap s anime);
    first [exists []; simpl; rewrite app_nil_r; split; [done|apply Forall_nil_2]
          |by exists (t_log (relatedIdsOf recs animeMap (a_id anime)))].
Qed.

Lemma run_log animes s :
  ∃ more, gs_log (foldl (groupStep env recs animeMap) s animes) = gs_log s ++ more
          ∧ Forall isCircularWarning more.
Proof.
  revert s. induction animes as [|anime animes IH]; intros s; simpl.
  - exists []. rewrite app_nil_r. split; [done|apply Forall_nil_2].
  - destruct (IH (groupStep env recs animeMap s anime)) as (more2 & -> & H2).
    destruct (groupStep_log s anime) as (more1 & -> & H1).
    exists (more1 ++ more2). rewrite <- app_assoc. split; [done|].
    apply Forall_app. done.
Qed.

End traversal_log.

(** X17: the log of a run holds the parse warnings of the first pass, one
    for each record whose relations string does not parse, in the order
    of the records, and after them only warnings of circular relations;
    a relations string that does not parse is read as no relation. *)
Theorem log_of_a_run animeData :
  (∃ later,
     gr_log (run animeData)
     = (animeData ≫= (λ anime, (normalize anime).2)) ++ later
     ∧ Forall isCircularWarning later)
  ∧ ∀ anime,
      (normalize anime).2
      = match a_relations anime with
        | VString s =>
            if String.eqb s "" then []
            else if JSON_parse s is None then [LogParseError (a_id anime)] else []
        | _ => []
        end
      ∧ ((normalize anime).2 ≠ [] → relationsOf (normalize anime).1 = []).
Proof.
  split.
  - unfold groupAnimeIntoSeries_internal. simpl.
    destruct (run_log (ns_animeData (normalizePass JSON_parse animeData))
                (ns_animeMap (normalizePass JSON_parse animeData))
                (ns_animeData (normalizePass JSON_parse animeData))
                (initialState (ns_log (normalizePass JSON_parse animeData))))
      as (more & -> & Hmore).
    exists more. simpl. by rewrite normalizePass_log.
  - intros anime. unfold normalizeAnime, parseRelations, relationsOf. simpl.
    destruct (a_relations anime) as [|s|l|]; simpl; try done.
    destruct (String.eqb s ""); simpl; [done|].
    destruct (JSON_parse s) as [v|]; simpl; done.
Qed.

End first_pass_facts.

(** ** [updateAnimeData] and [logSeriesSummary] *)

Section wrapper_facts.

Lemma seriesMapSet_fold seriesId ids m :
  JUndef ∉ ids →
  foldl (seriesMapSet seriesId) (Some m) ids
  = Some (foldl (λ m animeId, <[jsStr animeId := seriesId]> m) m ids).
Proof.
  revert m. induction ids as [|v ids IH]; intros m Hu; simpl; [done|].
  apply not_elem_of_cons in Hu as [Hv Hu].
  destruct v as [|s|n]; [done| |]; simpl; by apply IH.
Qed.

Lemma seriesMapSet_fold_None seriesId ids :
  foldl (seriesMapSet seriesId) None ids = None.
Proof. induction ids as [|v ids IH]; simpl; [done|]. apply IH. Qed.

Lemma seriesMapSet_fold_undef seriesId ids m :
  JUndef ∈ ids → foldl (seriesMapSet seriesId) m ids = None.
Proof.
  revert m. induction ids as [|v ids IH]; intros m Hu; simpl.
  - by apply elem_of_nil in Hu.
  - apply elem_of_cons in Hu as [<-|Hu]; [|by apply IH].
    destruct m; simpl; apply seriesMapSet_fold_None.
Qed.

Lemma insert_fold_lookup seriesId ids (m : gmap string string) k :
  foldl (λ m animeId, <[jsStr animeId := seriesId]> m) m ids !! k
  = if decide (k ∈ jsStr <$> ids) then Some seriesId else m !! k.
Proof.
  revert m. induction ids as [|v ids IH]; intros m; simpl; [done|].
  rewrite IH. destruct (decide (k ∈ jsStr <$> ids)) as [Hin|Hin].
  - rewrite decide_True; [done|]. by right.
  - destruct (decide (jsStr v = k)) as [<-|Hne].
    + rewrite lookup_insert_eq. rewrite decide_True; [done|]. apply list_elem_of_here.
    + rewrite lookup_insert_ne by done. rewrite decide_False; [done|].
      intros [?|?]%elem_of_cons; done.
Qed.

(** The map that [updateAnimeData] builds: it throws exactly when a
    group lists [undefined], and a key has the id of the last group that
    lists it. *)
Lemma seriesMapOf_spec series :
  (is_Some (seriesMapOf series) ↔ ∀ g, g ∈ series → JUndef ∉ g_animeIds g)
  ∧ ∀ m, seriesMapOf series = Some m →
      (∀ k, (∀ g, g ∈ series → ¬ lists k g) → m !! k = None)
      ∧ ∀ pre g post k, series = pre ++ g :: post → lists k g →
          (∀ g', g' ∈ post → ¬ lists k g') → m !! k = Some (g_seriesId g).
Proof.
  unfold seriesMapOf.
  induction series as [|g series IH] using rev_ind.
  - simpl. split.
    + split; [|by eexists]. intros _ g Hg. by apply elem_of_nil in Hg.
    + intros m [= <-]. split; [intros; apply lookup_empty|].
      intros pre g post k Heq. by destruct pre.
  - rewrite foldl_app. simpl. destruct IH as [IHsome IHmap].
    destruct (foldl _ (Some ∅) series) as [m0|] eqn:Hm0.
    + destruct (IHmap m0 eq_refl) as [IHnone IHlast].
      destruct (decide (JUndef ∈ g_animeIds g)) as [Hu|Hu].
      * rewrite (seriesMapSet_fold_undef _ _ _ Hu). split.
        -- split; [by intros [? ?]|]. intros Hall. exfalso.
           apply (Hall g); [|done]. apply elem_of_app. right. apply list_elem_of_here.
        -- done.
      * rewrite (seriesMapSet_fold _ _ _ Hu). split.
        -- split; [|by eexists].
           intros _ g' [Hg'| ->%list_elem_of_singleton]%elem_of_app; [|done].
           apply IHsome; [by eexists|done].
        -- intros m [= <-]. split.
           ++ intros k Hk. rewrite insert_fold_lookup, decide_False.
              ** apply IHnone. intros g' Hg'. apply Hk. apply elem_of_app. by left.
              ** apply (Hk g). apply elem_of_app. right. apply list_elem_of_here.
           ++ intros pre g' post k Heq Hlists Hpost.
              rewrite insert_fold_lookup.
              destruct post as [|g'' post _] using rev_ind.
              ** apply app_inj_tail in Heq as [-> ->]. by rewrite decide_True.
              ** rewrite app_comm_cons, app_assoc in Heq.
                 apply app_inj_tail in Heq as [-> ->].
                 rewrite decide_False.
                 { apply (IHlast pre g' post k); [done|done|].
                   intros g3 Hg3. apply Hpost. apply elem_of_app. by left. }
                 apply Hpost. apply elem_of_app. right. apply list_elem_of_here.
    + rewrite seriesMapSet_fold_None. split; [|done].
      split; [by intros [? ?]|]. intros Hall.
      apply IHsome. intros g' Hg'. apply Hall. apply elem_of_app. by left.
Qed.

(** X29: [updateAnimeData] throws exactly when a group lists [undefined]
    or a record has no id; else it returns the records in their order,
    each as it was when no group lists its id, and else with the id of
    the last group that lists it as [seriesId], unless that id is
    empty. *)
Theorem updateAnimeData_last_group_wins animeData series :
  (is_Some (updateAnimeData animeData series)
   ↔ (∀ g, g ∈ series → JUndef ∉ g_animeIds g)
     ∧ ∀ anime, anime ∈ animeData → a_id anime ≠ JUndef)
  ∧ ∀ updated, updateAnimeData animeData series = Some updated →
      length updated = length animeData
      ∧ ∀ i anime, animeData !! i = Some anime →
          ((∀ g, g ∈ series → ¬ lists (jsStr (a_id anime)) g) →
           updated !! i = Some anime)
          ∧ ∀ pre g post, series = pre ++ g :: post →
              lists (jsStr (a_id anime)) g →
              (∀ g', g' ∈ post → ¬ lists (jsStr (a_id anime)) g') →
              updated !! i
              = Some (if String.eqb (g_seriesId g) "" then anime
                      else setSeriesId anime (g_seriesId g)).
Proof.
  unfold updateAnimeData.
  destruct (seriesMapOf_spec series) as [Hsome Hmap].
  destruct (seriesMapOf series) as [m|] eqn:Hm; simpl.
  - destruct (Hmap m eq_refl) as [Hnone Hlast].
    assert (Hdef : ∀ anime, a_id anime ≠ JUndef →
              updateAnime m anime
              = Some match m !! jsStr (a_id anime) with
                     | Some seriesId =>
                         if String.eqb seriesId "" then anime
                         else setSeriesId anime seriesId
                     | None => anime
                     end).
    { intros anime Hid. unfold updateAnime. by destruct (a_id anime). }
    split.
    + rewrite mapM_is_Some, Forall_forall. split.
      * intros Hall. split; [apply Hsome; by eexists|].
        intros anime Hin Hid. destruct (Hall anime Hin) as [x Hx].
        simpl in Hx. unfold updateAnime in Hx. by rewrite Hid in Hx.
      * intros [_ Hids] anime Hin. simpl. rewrite Hdef by (by apply Hids).
        by eexists.
    + intros updated Hup. split; [symmetry; by eapply length_mapM|].
      intros i anime Hi.
      assert (Hid : a_id anime ≠ JUndef).
      { intros Hid. apply mapM_Some_1 in Hup.
        destruct (Forall2_lookup_l _ _ _ _ _ Hup Hi) as (y & _ & Hy).
        unfold updateAnime in Hy. by rewrite Hid in Hy. }
      assert (Hupd : updated !! i
                = Some match m !! jsStr (a_id anime) with
                       | Some seriesId =>
                           if String.eqb seriesId "" then anime
                           else setSeriesId anime seriesId
                       | None => anime
                       end).
      { apply mapM_Some_1 in Hup.
        destruct (Forall2_lookup_l _ _ _ _ _ Hup Hi) as (y & Hy & Hy').
        rewrite Hdef in Hy' by done. congruence. }
      split.
      * intros Hno. by rewrite Hupd, (Hnone _ Hno).
      * intros pre g post Heq Hl Hpost.
        by rewrite Hupd, (Hlast pre g post _ Heq Hl Hpost).
  - split; [|done]. split; [by intros [? ?]|].
    intros [Hall _]. apply Hsome in Hall. by destruct Hall.
Qed.

Lemma bySizeDesc_le a b :
  if cmp_le bySizeDesc a b
  then (length (g_animeIds b) ≤ length (g_animeIds a))%nat
  else (length (g_animeIds a) ≤ length (g_animeIds b))%nat.
Proof.
  unfold cmp_le, bySizeDesc.
  destruct (bool_decide _) eqn:Hd.
  - apply bool_decide_eq_true_1 in Hd. lia.
  - apply bool_decide_eq_false_1 in Hd. lia.
Qed.

(** X30: the summary reports five groups, or all of them when there are
    fewer, in descending order of their number of members, and no group
    it leaves out has more members than one it reports. *)
Theorem top_series_by_size series :
  let top := topSeriesBySize series in
  length top = (5 `min` length series)%nat
  ∧ StronglySorted (λ a b, (length (g_animeIds b) ≤ length (g_animeIds a))%nat) top
  ∧ ∃ rest, top ++ rest ≡ₚ series
            ∧ ∀ a b, a ∈ top → b ∈ rest →
                (length (g_animeIds b) ≤ length (g_animeIds a))%nat.
Proof.
  intros top. subst top. unfold topSeriesBySize.
  set (R := λ a b : SeriesGroup,
              (length (g_animeIds b) ≤ length (g_animeIds a))%nat).
  assert (Hs : StronglySorted R (sort_stable bySizeDesc series)).
  { apply sort_stable_sorted.
    - intros a b c. unfold R. lia.
    - intros a b _ _. apply bySizeDesc_le. }
  rewrite <- (take_drop 5 (sort_stable bySizeDesc series)) in Hs.
  apply StronglySorted_app in Hs as (Hcross & Htop & _).
  split_and!.
  - rewrite length_take. pose proof (Permutation_length (sort_stable_perm bySizeDesc series)).
    lia.
  - done.
  - exists (drop 5 (sort_stable bySizeDesc series)). split.
    + rewrite take_drop. apply sort_stable_perm.
    + intros a b Ha Hb. by apply Hcross.
Qed.

End wrapper_facts.

(** ** The slug of a group id *)

Lemma dropLastUnderscore_cons c c' s :
  dropLastUnderscore (String c (String c' s))
  = String c (dropLastUnderscore (String c' s)).
Proof. reflexivity. Qed.

Lemma dropLastUnderscore_forall (P : ascii → Prop) s :
  stringForall P s → stringForall P (dropLastUnderscore s).
Proof.
  induction s as [|c s IH]; [done|]. intros [Hc Hs].
  destruct s as [|c' s].
  - simpl. by destruct (decide (c = underscore)).
  - rewrite dropLastUnderscore_cons. split; [done|]. by apply IH.
Qed.

Lemma dropLastUnderscore_starts s :
  startsWithUnderscore (dropLastUnderscore s) → startsWithUnderscore s.
Proof.
  destruct s as [|c [|c' s]]; [done| |done].
  simpl. by destruct (decide (c = underscore)).
Qed.

Lemma dropLastUnderscore_noDouble s :
  noDoubleUnderscore s → noDoubleUnderscore (dropLastUnderscore s).
Proof.
  induction s as [|c s IH]; [done|]. intros [Hc Hs].
  destruct s as [|c' s].
  - simpl. by destruct (decide (c = underscore)).
  - rewrite dropLastUnderscore_cons. split; [|by apply IH].
    intros [Hu Hstart]. apply Hc. split; [done|].
    by apply dropLastUnderscore_starts.
Qed.

Lemma substring0_forall (P : ascii → Prop) n s : stringForall P s → stringForall P (substring0 n s).
Proof.
  revert s. induction n as [|n IH]; intros [|c s]; try done.
  intros [Hc Hs]. split; [done|]. by apply IH.
Qed.

Lemma substring0_starts n s :
  startsWithUnderscore (substring0 n s) → startsWithUnderscore s.
Proof. destruct n, s; done. Qed.

Lemma substring0_noDouble n s :
  noDoubleUnderscore s → noDoubleUnderscore (substring0 n s).
Proof.
  revert s. induction n as [|n IH]; intros [|c s]; try done.
  intros [Hc Hs]. split; [|by apply IH].
  intros [Hu Hstart]. apply Hc. split; [done|]. by eapply substring0_starts.
Qed.

Lemma substring0_length n s : (String.length (substring0 n s) ≤ n)%nat.
Proof.
  revert s. induction n as [|n IH]; intros [|c s]; simpl; try lia.
  specialize (IH s). lia.
Qed.

Lemma collapseUnderscores_forall (P : ascii → Prop) s :
  stringForall P s → stringForall P (collapseUnderscores s).
Proof.
  induction s as [|c s IH]; [done|]. intros [Hc Hs]. specialize (IH Hs). simpl.
  destruct (decide (c = underscore)); [|done].
  destruct (collapseUnderscores s) as [|c' r]; [done|].
  by destruct (decide (c' = underscore)).
Qed.

Lemma collapseUnderscores_noDouble s : noDoubleUnderscore (collapseUnderscores s).
Proof.
  induction s as [|c s IH]; [done|]. simpl.
  destruct (decide (c = underscore)) as [Hc|Hc].
  - destruct (collapseUnderscores s) as [|c' r]; [simpl; tauto|].
    destruct (decide (c' = underscore)) as [Hc'|Hc']; [done|].
    split; [|done]. simpl. tauto.
  - split; [|done]. tauto.
Qed.

Lemma trimUnderscores_forall (P : ascii → Prop) s :
  stringForall P s → stringForall P (trimUnderscores s).
Proof.
  intros Hs. unfold trimUnderscores. apply dropLastUnderscore_forall.
  destruct s as [|c s]; [done|]. destruct Hs as [Hc Hs].
  by destruct (decide (c = underscore)).
Qed.

Lemma trimUnderscores_shape s :
  noDoubleUnderscore s →
  noDoubleUnderscore (trimUnderscores s) ∧ ¬ startsWithUnderscore (trimUnderscores s).
Proof.
  intros Hs. unfold trimUnderscores.
  set (s1 := match s with
             | String c s' => if decide (c = underscore) then s' else s
             | EmptyString => s
             end).
  assert (H1 : noDoubleUnderscore s1 ∧ ¬ startsWithUnderscore s1).
  { subst s1. destruct s as [|c s]; [simpl; tauto|]. destruct Hs as [Hc Hs].
    destruct (decide (c = underscore)) as [Hu|Hu]; [tauto|].
    simpl. tauto. }
  destruct H1 as [Hnd Hstart]. split.
  - by apply dropLastUnderscore_noDouble.
  - intros H. apply Hstart. by apply dropLastUnderscore_starts.
Qed.

Lemma replaceNonSlug_chars s :
  stringForall (λ c, isSlugChar c = true ∨ c = underscore) (replaceNonSlug s).
Proof.
  induction s as [|c s IH]; [done|]. simpl. split; [|done].
  destruct (isSlugChar c) eqn:Hc; auto.
Qed.

(** X18: the slug of a title has at most 30 characters, each a lower-case
    letter, a digit or an underscore; it does not start with an
    underscore and has no two underscores in a row. *)
Theorem slug_shape title :
  (String.length (slugOf title) ≤ 30)%nat
  ∧ stringForall (λ c, isSlugChar c = true ∨ c = underscore) (slugOf title)
  ∧ ¬ startsWithUnderscore (slugOf title)
  ∧ noDoubleUnderscore (slugOf title).
Proof.
  unfold slugOf.
  set (s := collapseUnderscores (replaceNonSlug (toLowerCase title))).
  destruct (trimUnderscores_shape s (collapseUnderscores_noDouble _)) as [Hnd Hstart].
  split_and!.
  - apply substring0_length.
  - apply substring0_forall, trimUnderscores_forall, collapseUnderscores_forall.
    apply replaceNonSlug_chars.
  - intros H. apply Hstart. by eapply substring0_starts.
  - by apply substring0_noDouble.
Qed.

(** ** The graph of the splitting stage *)

(** X1: [addEdge] appends the target to the neighbours of the source
    and the source to the neighbours of the target, leaves every other
    neighbour list as it is, and adds each end to the vertices when it
    is new. *)
Theorem addEdge_appends_both_ways s t g v :
  GraphRel.neighbours (Graph.addEdge s t g) v
  = GraphRel.neighbours g v ++ (if decide (v = s) then [t] else [])
                            ++ (if decide (v = t) then [s] else [])
  ∧ (Graph.addEdge s t g).*1 = set_add t (set_add s g.*1).
Proof.
  split; [apply Components.neighbours_addEdge|apply Components.keys_addEdge].
Qed.

(** X2: on a graph as [addEdge] builds it, [findConnectedGroups]
    returns the connected components: every vertex is in exactly one
    group, and two vertices share a group exactly when a path joins
    them. *)
Theorem findConnectedGroups_components g :
  GraphRel.wf g →
  let groups := Graph.findConnectedGroups g in
  NoDup (concat groups)
  ∧ (∀ x, x ∈ concat groups ↔ x ∈ g.*1)
  ∧ ∀ group v w, group ∈ groups → v ∈ group →
      (w ∈ group ↔ GraphRel.path g v w).
Proof.
  intros Hwf groups.
  destruct (Components.findConnectedGroups_spec g Hwf) as (Hnd & Hcover & Hcomp).
  split_and!; [done|done|].
  intros group v w Hg Hv. rewrite Forall_forall in Hcomp.
  destruct (Hcomp group Hg) as (start & Hstart & Hgroup).
  rewrite Hgroup. apply Hgroup in Hv. split.
  - intros Hw. eapply Components.path_trans; [|exact Hw].
    by apply Components.path_sym.
  - intros Hw. eapply Components.path_trans; [exact Hv|exact Hw].
Qed.

Lemma findConnectedGroups_components_witness :
  let groups := Graph.findConnectedGroups MoreExamples.oneEdge in
  NoDup (concat groups)
  ∧ (∀ x, x ∈ concat groups ↔ x ∈ MoreExamples.oneEdge.*1)
  ∧ ∀ group v w, group ∈ groups → v ∈ group →
      (w ∈ group ↔ GraphRel.path MoreExamples.oneEdge v w).
Proof.
  apply (findConnectedGroups_components MoreExamples.oneEdge).
  apply Components.wf_addEdge, Components.wf_empty.
Defined.

(** ** The properties on the examples *)

Lemma main_clusters_are_link_components_witness :
  JStr "2" ∈ m_animeIds SplitExample.main12
  ↔ rtc (structuralLink (g_relations Examples.mainAndOther)) (JStr "1") (JStr "2").
Proof.
  apply (main_clusters_are_link_components decimalNumber noDate Examples.mainAndOther ∅
           SplitExample.main12 (JStr "1") (JStr "2")).
  - vm_compute. apply list_elem_of_here.
  - by_computation.
Defined.

Lemma main_cluster_outside_ids_witness :
  JStr "4" ∈ m_otherIds SplitExample.main12
  ↔ outsider (g_relations Examples.mainAndOther)
      (m_animeIds SplitExample.main12) (λ ty, ty = "OTHER" ∨ ty = "PARENT")
      (JStr "4").
Proof.
  destruct (main_cluster_outside_ids decimalNumber noDate Examples.mainAndOther ∅
              SplitExample.main12) as (_ & _ & _ & Hother).
  - vm_compute. apply list_elem_of_here.
  - apply Hother.
Defined.

Lemma main_cluster_relations_witness :
  NoDup (relationKey3 <$> m_relations SplitExample.main12).
Proof.
  apply (main_cluster_relations decimalNumber noDate Examples.mainAndOther ∅
           SplitExample.main12).
  vm_compute. apply list_elem_of_here.
Defined.

Lemma soft_cluster_relations_witness :
  c_originalSeriesId SplitExample.other45 = g_seriesId Examples.mainAndOther
  ∧ ∀ r, r ∈ c_relations SplitExample.other45 →
      categoryRelation (g_relations Examples.mainAndOther)
        (c_seriesType SplitExample.other45) (c_animeIds SplitExample.other45) r.
Proof.
  destruct (soft_cluster_relations decimalNumber noDate Examples.mainAndOther ∅
              "other" [SplitExample.other45] SplitExample.other45)
    as (H1 & H2 & _).
  - vm_compute. reflexivity.
  - apply list_elem_of_here.
  - split; [exact H1|exact H2].
Defined.

Lemma soft_clusters_are_category_components_witness :
  (JStr "5" ∈ c_animeIds SplitExample.other45
   ↔ (JStr "5" ∉ mainAnimeIdsOf
                   (processSeriesData decimalNumber noDate Examples.mainAndOther ∅))
     ∧ rtc (categoryLink (g_relations Examples.mainAndOther)
              (c_seriesType SplitExample.other45)) (JStr "4") (JStr "5"))
  ∧ ∃ c, c ∈ softOf (processSeriesData decimalNumber noDate Examples.mainAndOther ∅)
               "other"
         ∧ c_seriesType c = "OTHER"
         ∧ JStr "4" ∈ c_animeIds c ∧ JStr "5" ∈ c_animeIds c.
Proof.
  destruct (soft_clusters_are_category_components decimalNumber noDate
              Examples.mainAndOther ∅) as [Hwithin Hemitted].
  split.
  - apply (Hwithin "other" [SplitExample.other45] SplitExample.other45
             (JStr "4") (JStr "5")).
    + vm_compute. reflexivity.
    + apply list_elem_of_here.
    + by_computation.
  - apply (Hemitted "OTHER" (JStr "4") (JStr "5")).
    + by_computation.
    + done.
    + by_computation.
    + by_computation.
    + eapply rtc_l; [|apply rtc_refl].
      exists (mkGroupRel (JStr "4") (JStr "5") "OTHER" "forward").
      split_and!; [|by left|left; by split].
      simpl. do 2 apply list_elem_of_further. apply list_elem_of_here.
Defined.

Lemma soft_cluster_key_witness :
  "other" = toLowerCase (c_seriesType SplitExample.other45)
  ∧ c_seriesType SplitExample.other45 ∈ softTypes.
Proof.
  apply (soft_cluster_key decimalNumber noDate Examples.mainAndOther ∅
           "other" [SplitExample.other45] SplitExample.other45).
  - vm_compute. reflexivity.
  - apply list_elem_of_here.
Defined.

Lemma cluster_id_lists_ascending_witness :
  StronglySorted (numLe decimalNumber) (m_animeIds SplitExample.main12).
Proof.
  apply (cluster_id_lists_ascending decimalNumber noDate Examples.mainAndOther ∅).
  - left. exists SplitExample.main12. split.
    + vm_compute. apply list_elem_of_here.
    + apply list_elem_of_here.
  - apply Forall_forall. by_computation.
Defined.

Lemma named_after_earliest_start_date_witness :
  ∃ o a,
    o ∈ [JStr "1"; JStr "2"] ∧ MoreExamples.datedMap !! jsStr o = Some a
    ∧ getSeriesNameFromOldestAnime decimalNumber decimalNumber [JStr "1"; JStr "2"]
        MoreExamples.datedMap
      = strOrD (strOr (a_title_romaji a) (a_title a)) ("Series " +:+ jsStr o)
    ∧ ∀ y, y ∈ [JStr "1"; JStr "2"] →
           dateLe decimalNumber MoreExamples.datedMap o y.
Proof.
  apply (named_after_earliest_start_date decimalNumber decimalNumber
           MoreExamples.datedMap [JStr "1"; JStr "2"]).
  - done.
  - by_computation.
  - apply Forall_forall. by_computation.
Defined.

Lemma named_after_smallest_id_witness :
  ∃ o, o ∈ [JStr "2"; JStr "1"]
       ∧ getSeriesNameFromOldestAnime decimalNumber noDate [JStr "2"; JStr "1"] ∅
         = "Series " +:+ jsStr o
       ∧ ∀ y, y ∈ [JStr "2"; JStr "1"] → numLe decimalNumber o y.
Proof.
  apply (named_after_smallest_id decimalNumber noDate ∅ [JStr "2"; JStr "1"]).
  - done.
  - apply Forall_forall. by_computation.
  - apply Forall_forall. by_computation.
Defined.

Lemma generateSeriesId_first_free_witness :
  ∃ j, generateSeriesId Examples.clockA [(0%nat, Examples.record "1" "First" [])]
         {["first"]} 1
       = candidateId (slugOf "First") j
       ∧ (candidateId (slugOf "First") j ∉ ({["first"]} : gset string))
       ∧ ∀ j', (j' < j)%nat →
               candidateId (slugOf "First") j' ∈ ({["first"]} : gset string).
Proof.
  apply (generateSeriesId_first_free Examples.clockA
           [(0%nat, Examples.record "1" "First" [])] {["first"]} 1 0%nat
           (Examples.record "1" "First" [])).
  - reflexivity.
  - reflexivity.
Defined.

Lemma groups_start_at_records_witness :
  ∃ anime rest,
    anime ∈ ns_animeData (normalizePass Examples.noJson Examples.cycle)
    ∧ relationsOf anime ≠ []
    ∧ g_animeIds MoreExamples.cycleGroup
      = t_processed
          (relatedIdsOf (ns_animeData (normalizePass Examples.noJson Examples.cycle))
             (ns_animeMap (normalizePass Examples.noJson Examples.cycle)) (a_id anime))
    ∧ g_animeIds MoreExamples.cycleGroup = a_id anime :: rest ∧ rest ≠ []
    ∧ NoDup (g_animeIds MoreExamples.cycleGroup).
Proof.
  apply (groups_start_at_records Examples.noJson Examples.clockA Examples.cycle
           MoreExamples.cycleGroup).
  vm_compute. apply list_elem_of_here.
Defined.

Lemma group_relations_follow_member_records_witness :
  g_relations MoreExamples.cycleGroup
  = omap (lookupAnime (ns_animeData (normalizePass Examples.noJson Examples.cycle))
            (ns_animeMap (normalizePass Examples.noJson Examples.cycle)))
      (g_animeIds MoreExamples.cycleGroup)
    ≫= (λ ia, groupRelationsOf ia.2).
Proof.
  apply (group_relations_follow_member_records Examples.noJson Examples.clockA
           Examples.cycle MoreExamples.cycleGroup).
  vm_compute. apply list_elem_of_here.
Defined.

Lemma relation_type_index_lists_keys_once_witness :
  typeIndex (g_relations MoreExamples.cycleGroup)
    (g_relationTypes MoreExamples.cycleGroup).
Proof.
  apply (relation_type_index_lists_keys_once Examples.noJson Examples.clockA
           Examples.cycle MoreExamples.cycleGroup).
  vm_compute. apply list_elem_of_here.
Defined.

Lemma anime_details_of_member_records_witness :
  is_Some (g_animeDetails MoreExamples.cycleGroup !! "1").
Proof.
  destruct (anime_details_of_member_records Examples.noJson Examples.clockA
              Examples.cycle MoreExamples.cycleGroup) as [_ Hall].
  - vm_compute. apply list_elem_of_here.
  - apply (Hall (JStr "1") 0%nat
             (Examples.record "1" "Ping" [Examples.relTo "2" "SEQUEL"])).
    + by_computation.
    + vm_compute. reflexivity.
Defined.

Lemma multi_membership_entries_name_a_group_witness :
  ∃ g y i anime,
    g ∈ gr_series MoreExamples.lateRun
    ∧ me_foundInSeries MoreExamples.lateEntry
      = [(g_seriesId g, g_seriesId g); ("proposed_new_series", "Proposed New Series")]
    ∧ y ∈ g_animeIds g
    ∧ lookupAnime (ns_animeData (normalizePass Examples.noJson Examples.lateComer))
        (ns_animeMap (normalizePass Examples.noJson Examples.lateComer)) y
      = Some (i, anime)
    ∧ a_id anime = me_animeId MoreExamples.lateEntry.
Proof.
  apply (multi_membership_entries_name_a_group Examples.noJson Examples.clockA
           Examples.lateComer MoreExamples.lateEntry).
  vm_compute. apply list_elem_of_here.
Defined.

Lemma every_record_is_processed_witness :
  JStr "1" ∈ gs_processedIds (secondPass Examples.noJson Examples.clockA Examples.lateComer).
Proof.
  apply (every_record_is_processed Examples.noJson Examples.clockA Examples.lateComer
           (Examples.record "1" "Alpha" [Examples.relTo "2" "SEQUEL"])).
  apply list_elem_of_here.
Defined.

